(** * inPAsearchBot: polling, query expansion, aggregation and seen-state

    A shallow embedding of the polling core of the bot
    ([app/bot/poll.py]), of the payload builder of the handlers
    ([app/bot/handlers.py]) and of the two state stores
    ([app/bot/state_sqlite.py], [app/bot/state.py]), followed by the
    properties of the specification that concern them.

    Conventions of the embedding.
    - A Python [str] is a [string]; the empty string is the only falsy one.
    - A filter value [{"id": .., "name": ..}] is a record, hence always
      truthy, as a two-key dict is in Python.
    - A key of a dict that the bot itself builds (a search, a user) and
      reads with [.get(k)] is an [option] field when the code distinguishes
      its absence, and a list field when the code reads it with
      [.get(k, [])].
    - A key of a catalog item is a [Field]: the INPA answer is decoded
      JSON, where a key can be absent or present with [null], and the code
      treats the two differently.
    - State is passed explicitly; what can raise runs in a small
      state-and-exception monad in which the state reached survives an
      exception: the database, as it does with [isolation_level=None], and
      the messages already sent. *)

From Stdlib Require Import String Ascii Bool Arith PeanoNat Lia List.
From Stdlib Require Import Permutation Sorted.
From Stdlib Require OrderedTypeEx.
Import ListNotations.
Open Scope string_scope.
Open Scope list_scope.

Set Implicit Arguments.

(** ** Data model *)

(** [{"id": .., "name": ..}]: one selected value of a filter dimension. *)
Record Filt := mkFilt { f_id : string; f_name : string }.

(** A search configuration dict.  [categoria] is the legacy single field;
    the legacy fields [regione] and [settore] are never read by the code
    embedded here and are left out. *)
Record Search := mkSearch {
  s_id : string;
  s_text : string;
  s_label : option string;
  categorie : list Filt;
  regioni : list Filt;
  settori : list Filt;
  categoria : option Filt
}.

(** The request body of [inpa.build_payload]; [status] and
    [provinciaCodice] are the constants [["OPEN"]] and [None]. *)
Record Payload := mkPayload {
  p_text : string;
  categoriaId : string;
  regioneId : option string;
  settoreId : option string
}.

Definition build_payload (text categoria_id : string)
  (regione_id settore_id : option string) : Payload :=
  mkPayload text categoria_id regione_id settore_id.

(** The value of a key of a decoded JSON object: the key is absent, or
    present with [null], or present with a value. *)
Inductive Field (A : Type) :=
| Absent
| Null
| Val (a : A).

Arguments Absent {A}.
Arguments Null {A}.
Arguments Val {A} a.

(** One catalog entry.  [it_id] is [it.get("id")]; [dataPubblicazione] is
    the key the poller sorts by; [entiRiferimento] and [sedi] are the two
    lists that [summarize_item] joins; [it_body] stands for the display
    fields that are formatted without any operation that can fail
    ([titolo], [codice], [dataScadenza], [figuraRicercata],
    [tipoProcedura], [linkReindirizzamento]). *)
Record Item := mkItem {
  it_id : option string;
  dataPubblicazione : Field string;
  entiRiferimento : Field (list string);
  sedi : Field (list string);
  it_body : string
}.

(** ** Query expansion *)

(** [l or [None]] for a list of dicts. *)
Definition or_none {A} (l : list A) : list (option A) :=
  match l with
  | [] => [None]
  | _ => map Some l
  end.

(** [[c for c in cats if c]]. *)
Fixpoint drop_none {A} (l : list (option A)) : list A :=
  match l with
  | [] => []
  | Some c :: l' => c :: drop_none l'
  | None :: l' => drop_none l'
  end.

(** [reg["id"] if reg else None]. *)
Definition id_or_none (f : option Filt) : option string :=
  match f with
  | Some r => Some (f_id r)
  | None => None
  end.

(** [itertools.product] of three lists: the last one varies fastest. *)
Definition product3 {A B C} (la : list A) (lb : list B) (lc : list C)
  : list (A * B * C) :=
  flat_map (fun a => flat_map (fun b => map (fun c => (a, b, c)) lc) lb) la.

(** [poll._iter_payloads]. *)
Definition _iter_payloads (search_cfg : Search) : list Payload :=
  let cats := match categorie search_cfg with
              | [] => [categoria search_cfg]
              | l => map Some l
              end in
  let cats := drop_none cats in
  let regs_iter := or_none (regioni search_cfg) in
  let sets_iter := or_none (settori search_cfg) in
  map (fun '(cat, reg, sett) =>
         build_payload (s_text search_cfg) (f_id cat)
           (id_or_none reg) (id_or_none sett))
      (product3 cats regs_iter sets_iter).

(** [handlers._build_payloads_from_search]: the product runs over
    [cats or [None]] and the combinations whose category is [None] are
    skipped. *)
Definition _build_payloads_from_search (s : Search) : list Payload :=
  let cats_iter := or_none (categorie s) in
  let regs_iter := or_none (regioni s) in
  let sets_iter := or_none (settori s) in
  flat_map (fun '(cat, reg, sett) =>
              match cat with
              | None => []
              | Some c => [build_payload (s_text s) (f_id c)
                             (id_or_none reg) (id_or_none sett)]
              end)
           (product3 cats_iter regs_iter sets_iter).

(** A [SavedSearch] as the specification has it: no legacy field. *)
Record SavedSearch := mkSaved {
  ss_id : string;
  ss_text : string;
  ss_label : option string;
  ss_categories : list Filt;
  ss_regions : list Filt;
  ss_sectors : list Filt
}.

(** The dict that [State._load_searches_for_user] (and
    [handlers._finalize_and_save]) builds for a saved search:
    [categoria] is the first category or [None]. *)
Definition search_dict (s : SavedSearch) : Search :=
  mkSearch (ss_id s) (ss_text s) (ss_label s)
    (ss_categories s) (ss_regions s) (ss_sectors s)
    (hd_error (ss_categories s)).

(** ** Python helpers *)

(** Truth value of a [str]. *)
Definition truthy (s : string) : bool := negb (s =? EmptyString).

(** [x in l] for a list or a set of strings. *)
Definition mem (x : string) (l : list string) : bool :=
  existsb (String.eqb x) l.

(** A [dict] with string keys, in insertion order. *)
Definition Dict (V : Type) := list (string * V).

Fixpoint dict_get {V} (k : string) (d : Dict V) : option V :=
  match d with
  | [] => None
  | (k', v) :: d' => if k =? k' then Some v else dict_get k d'
  end.

(** [d[k] = v]: an existing key keeps its place, a new one goes last. *)
Fixpoint dict_set {V} (k : string) (v : V) (d : Dict V) : Dict V :=
  match d with
  | [] => [(k, v)]
  | (k', v') :: d' =>
      if k =? k' then (k, v) :: d' else (k', v') :: dict_set k v d'
  end.

(** [d.get(k, [])]. *)
Definition get_list {V} (k : string) (d : Dict (list V)) : list V :=
  match dict_get k d with
  | Some l => l
  | None => []
  end.

(** [list(dict.fromkeys(l))]: the keys of [l] in order of first
    occurrence. *)
Definition fromkeys_step (acc : list string) (k : string) : list string :=
  if mem k acc then acc else acc ++ [k].

Definition fromkeys (l : list string) : list string :=
  fold_left fromkeys_step l [].

(** ** State and exceptions

    A computation over a state [St] either returns or raises; the state
    reached so far is kept in both cases. *)

(** The exceptions that the embedded code can meet: the two of [sqlite3]
    and the [TypeError] of an operation on [None]. *)
Inductive Exn := IntegrityError | OperationalError | TypeError.

Definition M (St A : Type) : Type := St -> (Exn + A) * St.

Definition ret {St A} (a : A) : M St A := fun s => (inr a, s).

Definition raise {St A} (e : Exn) : M St A := fun s => (inl e, s).

Definition bind {St A B} (m : M St A) (k : A -> M St B) : M St B :=
  fun s =>
    match m s with
    | (inr a, s') => k a s'
    | (inl e, s') => (inl e, s')
    end.

Notation "x <- m ;; k" := (bind m (fun x => k))
  (at level 61, m at next level, right associativity).
Notation "m ;; k" := (bind m (fun _ => k))
  (at level 61, right associativity).

(** A value or an exception computed without the state. *)
Definition lift {St A} (r : Exn + A) : M St A := fun s => (r, s).

(** A [for] loop whose body may raise: the first exception leaves it. *)
Fixpoint for_each {St A} (l : list A) (body : A -> M St unit) : M St unit :=
  match l with
  | [] => ret tt
  | a :: l' => body a ;; for_each l' body
  end.

(** ** Labels and messages *)

(** The two non-ASCII literals of [_label]; a character of the model is an
    8-bit code, so U+00B7 is itself and U+2026 is stood for by code 133. *)
Definition middle_dot : string := String (ascii_of_nat 183) EmptyString.
Definition ellipsis : string := String (ascii_of_nat 133) EmptyString.

Definition names (l : list Filt) : string :=
  String.concat ", " (map f_name l).

(** [poll._label]. *)
Definition _label (search_cfg : Search) : string :=
  let computed :=
    let text := s_text search_cfg in
    let cat :=
      let j := names (categorie search_cfg) in
      if truthy j then j
      else match categoria search_cfg with
           | Some c => f_name c
           | None => "categoria?"
           end in
    let reg := names (regioni search_cfg) in
    let setr := names (settori search_cfg) in
    let parts := [text; cat]
                   ++ (if truthy reg then [reg] else [])
                   ++ (if truthy setr then [setr] else []) in
    let s := String.concat (" " ++ middle_dot ++ " ")%string (filter truthy parts) in
    if Nat.ltb 65 (String.length s)
    then (String.substring 0 64 s ++ ellipsis)%string else s in
  match s_label search_cfg with
  | Some l => if truthy l then l else computed
  | None => computed
  end.

(** What [tg_send] is given.  The two texts of the poller are kept
    structured: the failure notice with the label and the error count, and
    the new-item message, whose header is the label in multi-search mode
    ([Some label]) and the fixed legacy line otherwise ([None]), followed
    by [summarize_item(it)]. *)
Inductive Message :=
| MsgCheckFailed (label : string) (errors : nat)
| MsgNewItem (header : option string) (it : Item).

Definition Outbox := list (string * Message).

(** [", ".join(it.get(k, []))]: the default stands in for an absent key
    only, and joining [None] raises [TypeError]. *)
Definition join_names (f : Field (list string)) : Exn + string :=
  match f with
  | Absent => inr EmptyString
  | Null => inl TypeError
  | Val l => inr (String.concat ", " l)
  end.

(** [notifier.summarize_item], as far as it can fail: the two joins, in
    the order of the code.  The dates go through [fmt_dt_iso_to_local],
    which catches what its parsing raises, and the other fields are put
    into the text as they are. *)
Definition summarize_item (it : Item) : Exn + string * string :=
  match join_names (entiRiferimento it) with
  | inl e => inl e
  | inr ente =>
      match join_names (sedi it) with
      | inl e => inl e
      | inr sedi => inr (ente, sedi)
      end
  end.

(** [notifier.tg_send] catches every exception of the transport: it never
    raises.  The state is the list of the messages handed to it, oldest
    first. *)
Definition tg_send (chat_id : string) (msg : Message) : M Outbox unit :=
  fun out => (inr tt, out ++ [(chat_id, msg)]).

(** ** Catalog client *)

(** [inpa.search]: [None] when the call raises.  [Some content] is the
    list [data.get("content", [])] of the decoded response, an object
    whose [content], when present, is a list of objects. *)
Definition Catalog := Payload -> option (list Item).

(** ** Aggregation, ordering, diff, commit *)

(** The three accumulators of the merge loop. *)
Record Agg := mkAgg {
  merged : list Item;
  merge_ids : list string;
  errors : nat
}.

(** The body of the inner loop: [if iid and iid not in merge_ids]. *)
Definition merge_item (st : Agg) (it : Item) : Agg :=
  match it_id it with
  | Some iid =>
      if truthy iid && negb (mem iid (merge_ids st))
      then mkAgg (merged st ++ [it]) (iid :: merge_ids st) (errors st)
      else st
  | None => st
  end.

(** The body of the outer loop, with its [try]/[except]. *)
Definition merge_payload (inpa_search : Catalog) (st : Agg) (p : Payload)
  : Agg :=
  match inpa_search p with
  | None => mkAgg (merged st) (merge_ids st) (errors st + 1)
  | Some content => fold_left merge_item content st
  end.

Definition aggregate (inpa_search : Catalog) (payloads : list Payload)
  : Agg :=
  fold_left (merge_payload inpa_search) payloads (mkAgg [] [] 0).

(** The sort key [x.get("dataPubblicazione", "")]: the default stands in
    for an absent key only; a key present with [null] gives [None]. *)
Definition sort_key (x : Item) : option string :=
  match dataPubblicazione x with
  | Absent => Some EmptyString
  | Null => None
  | Val d => Some d
  end.

(** [a < b] on two sort keys: the lexical order on strings, and
    [TypeError] as soon as one of them is [None]. *)
Definition key_lt (a b : option string) : Exn + bool :=
  match a, b with
  | Some a, Some b => inr (negb (String.leb b a))
  | _, _ => inl TypeError
  end.

(** [merged.sort(key=..., reverse=True)].  Python's sort compares the keys
    with [<] only and is stable, also with [reverse=True]; it is embedded
    as the insertion from the right that gives the stable descending
    order.  Whatever the strategy of a sort, with two or more items every
    key takes part in at least one comparison, so a [None] key makes
    Python's sort raise exactly when it makes this one raise. *)
Fixpoint insert_sorted (x : Item) (l : list Item) : Exn + list Item :=
  match l with
  | [] => inr [x]
  | y :: l' =>
      match key_lt (sort_key x) (sort_key y) with
      | inl e => inl e
      | inr true =>
          match insert_sorted x l' with
          | inl e => inl e
          | inr r => inr (y :: r)
          end
      | inr false => inr (x :: l)
      end
  end.

Fixpoint merged_sort (l : list Item) : Exn + list Item :=
  match l with
  | [] => inr []
  | x :: l' =>
      match merged_sort l' with
      | inl e => inl e
      | inr s => insert_sorted x s
      end
  end.

(** The order that the sort computes when no key is [None]: the key as a
    string, and the stable descending insertion on it. *)
Definition date_key (x : Item) : string :=
  match sort_key x with
  | Some d => d
  | None => EmptyString
  end.

Fixpoint insert_desc (x : Item) (l : list Item) : list Item :=
  match l with
  | [] => [x]
  | y :: l' =>
      if String.leb (date_key y) (date_key x) then x :: l
      else y :: insert_desc x l'
  end.

Definition sort_desc (l : list Item) : list Item :=
  fold_right insert_desc [] l.

(** [it.get("id") not in seen_for_this]. *)
Definition unseen (seen : list string) (it : Item) : bool :=
  match it_id it with
  | Some iid => negb (mem iid seen)
  | None => true
  end.

(** [[it for it in merged if it.get("id") not in seen_for_this]]. *)
Definition diff (seen : list string) (items : list Item) : list Item :=
  filter (unseen seen) items.

(** [[it["id"] for it in new_items if "id" in it]]. *)
Definition ids_of (new_items : list Item) : list string :=
  drop_none (map it_id new_items).

(** [list(dict.fromkeys(prev + ids))]. *)
Definition commit (prev ids : list string) : list string :=
  fromkeys (prev ++ ids).

(** ** Users *)

(** The user dict that the poller receives; [searches] is
    [u.get("searches", []) or []], [search] is [u.get("search")]. *)
Record User := mkUser {
  searches : list Search;
  search : option Search;
  seen_ids_map : Dict (list string);
  seen_ids : list string
}.

Definition is_nil {A} (l : list A) : bool :=
  match l with [] => true | _ => false end.

(** [Poll._process_one_search]: it returns the flag and the user dict
    after its in-place updates, and sends its messages on the way.  The
    [try] covers the catalog call only (it is inside [aggregate]); the
    sort and [summarize_item] are outside of it. *)
Definition _process_one_search (inpa_search : Catalog) (chat_id : string)
  (u : User) (search_cfg : Search) (legacy_id : string)
  : M Outbox (bool * User) :=
  let payloads := _iter_payloads search_cfg in
  if is_nil payloads then ret (false, u)
  else
    let st := aggregate inpa_search payloads in
    if is_nil (merged st) then
      (if Nat.ltb 0 (errors st) && is_nil (merge_ids st)
       then tg_send chat_id (MsgCheckFailed (_label search_cfg) (errors st))
       else ret tt) ;;
      ret (false, u)
    else
      merged <- lift (merged_sort (merged st)) ;;
      let multi_mode := negb (is_nil (searches u)) in
      let seen_for_this :=
        if multi_mode then get_list legacy_id (seen_ids_map u)
        else seen_ids u in
      let new_items := diff seen_for_this merged in
      if is_nil new_items then ret (false, u)
      else
        let label := _label search_cfg in
        for_each new_items (fun it =>
          lift (summarize_item it) ;;
          tg_send chat_id
            (MsgNewItem (if multi_mode then Some label else None) it)) ;;
        let ids := ids_of new_items in
        if multi_mode then
          let prev := get_list legacy_id (seen_ids_map u) in
          ret (true,
               mkUser (searches u) (search u)
                 (dict_set legacy_id (commit prev ids) (seen_ids_map u))
                 (seen_ids u))
        else
          let prev := seen_ids u in
          ret (true,
               mkUser (searches u) (search u) (seen_ids_map u)
                 (commit prev ids)).

(** ** The SQLite store ([state_sqlite.py]) *)

Inductive Kind := category | region | sector.

(** A row of [searches]; [created_at] is left out: the rows are kept in
    insertion order, which is the order of [ORDER BY created_at ASC]. *)
Record SearchRow := mkSearchRow {
  r_id : string;
  r_chat_id : string;
  r_text : string;
  r_label : option string
}.

(** A row of [search_filters], without its autoincrement key. *)
Record FilterRow := mkFilterRow {
  fr_search_id : string;
  fr_kind : Kind;
  fr_value_id : string;
  fr_value_name : string
}.

(** The five tables of [SCHEMA]. *)
Record DB := mkDB {
  users : list string;
  searches_t : list SearchRow;
  search_filters : list FilterRow;
  seen_items : list (string * string);
  legacy_seen : list (string * string)
}.

Definition has_user (d : DB) (chat_id : string) : bool :=
  mem chat_id (users d).

Definition has_search (d : DB) (sid : string) : bool :=
  existsb (fun r => r_id r =? sid) (searches_t d).

Definition has_pair (p : string * string) (l : list (string * string)) : bool :=
  existsb (fun q => (fst q =? fst p) && (snd q =? snd p)) l.

(** *** Statements

    Each statement maps the database to [Some] database, or to [None] when
    SQLite rejects it (a foreign key without its parent row); foreign keys
    are enforced ([PRAGMA foreign_keys=ON] on every connection) and
    [OR IGNORE] covers the primary key only. *)

(** [INSERT OR IGNORE INTO users(chat_id) VALUES (?)]. *)
Definition sql_insert_user (chat_id : string) (d : DB) : option DB :=
  if has_user d chat_id then Some d
  else Some (mkDB (users d ++ [chat_id]) (searches_t d) (search_filters d)
               (seen_items d) (legacy_seen d)).

(** [INSERT INTO searches(id, chat_id, text, label) VALUES(?,?,?,?)
     ON CONFLICT(id) DO UPDATE SET text=excluded.text, label=excluded.label]. *)
Definition sql_upsert_search (sid chat_id text : string)
  (label : option string) (d : DB) : option DB :=
  if has_search d sid then
    Some (mkDB (users d)
            (map (fun r => if r_id r =? sid
                           then mkSearchRow (r_id r) (r_chat_id r) text label
                           else r)
                 (searches_t d))
            (search_filters d) (seen_items d) (legacy_seen d))
  else if has_user d chat_id then
    Some (mkDB (users d)
            (searches_t d ++ [mkSearchRow sid chat_id text label])
            (search_filters d) (seen_items d) (legacy_seen d))
  else None.

(** [DELETE FROM search_filters WHERE search_id=?]. *)
Definition sql_delete_filters (sid : string) (d : DB) : option DB :=
  Some (mkDB (users d) (searches_t d)
          (filter (fun f => negb (fr_search_id f =? sid)) (search_filters d))
          (seen_items d) (legacy_seen d)).

(** [INSERT INTO search_filters(search_id, kind, value_id, value_name)
     VALUES (?,?,?,?)]. *)
Definition sql_insert_filter (sid : string) (kind : Kind)
  (value_id value_name : string) (d : DB) : option DB :=
  if has_search d sid then
    Some (mkDB (users d) (searches_t d)
            (search_filters d ++ [mkFilterRow sid kind value_id value_name])
            (seen_items d) (legacy_seen d))
  else None.

(** [DELETE FROM searches WHERE id=?], with the two [ON DELETE CASCADE]
    keys that reference [searches(id)]. *)
Definition sql_delete_search (sid : string) (d : DB) : option DB :=
  Some (mkDB (users d)
          (filter (fun r => negb (r_id r =? sid)) (searches_t d))
          (filter (fun f => negb (fr_search_id f =? sid)) (search_filters d))
          (filter (fun p => negb (fst p =? sid)) (seen_items d))
          (legacy_seen d)).

(** [INSERT OR IGNORE INTO seen_items(search_id, item_id) VALUES (?,?)]. *)
Definition sql_insert_seen (sid iid : string) (d : DB) : option DB :=
  if has_pair (sid, iid) (seen_items d) then Some d
  else if has_search d sid then
    Some (mkDB (users d) (searches_t d) (search_filters d)
            (seen_items d ++ [(sid, iid)]) (legacy_seen d))
  else None.

(** [INSERT OR IGNORE INTO legacy_seen(chat_id, item_id) VALUES (?,?)]. *)
Definition sql_insert_legacy (chat_id iid : string) (d : DB) : option DB :=
  if has_pair (chat_id, iid) (legacy_seen d) then Some d
  else if has_user d chat_id then
    Some (mkDB (users d) (searches_t d) (search_filters d)
            (seen_items d) (legacy_seen d ++ [(chat_id, iid)]))
  else None.

(** *** Connections

    A connection is opened with [isolation_level=None]: every statement is
    committed as it ends and the code never opens a transaction.  The
    state of a connection is the database together with an optional fault:
    [Some n] makes the statement after the next [n] ones fail with
    [sqlite3.OperationalError] (lock timeout, I/O error, the process being
    stopped) without effect; the fault happens once. *)
Record Conn := mkConn {
  db : DB;
  fault : option nat
}.

Definition tick (f : option nat) : option nat :=
  match f with
  | Some (S n) => Some n
  | _ => None
  end.

(** [con.execute(stmt)] for a statement that writes. *)
Definition execute (stmt : DB -> option DB) : M Conn unit :=
  fun c =>
    match fault c with
    | Some 0 => (inl OperationalError, mkConn (db c) None)
    | f =>
        match stmt (db c) with
        | Some d' => (inr tt, mkConn d' (tick f))
        | None => (inl IntegrityError, mkConn (db c) (tick f))
        end
    end.

(** [con.execute(select).fetchall()]. *)
Definition query {A} (q : DB -> A) : M Conn A :=
  fun c => (inr (q (db c)), c).

(** [with _conn(db_path) as con]: the connection is closed on the way
    out; there is nothing to commit and nothing is rolled back. *)
Definition _conn {A} (body : M Conn A) : M Conn A := body.

Definition _ensure_user (chat_id : string) : M Conn unit :=
  execute (sql_insert_user chat_id).

(** *** Queries without [ORDER BY]

    [users], [seen_items] and [legacy_seen] have a [TEXT] primary key, and
    a query that reads only key columns is answered from the index of the
    key: its rows come in the order of the key, which for [TEXT] is the
    order of the bytes, whatever the order of insertion. *)

Fixpoint insert_asc (x : string) (l : list string) : list string :=
  match l with
  | [] => [x]
  | y :: l' => if String.leb x y then x :: l else y :: insert_asc x l'
  end.

Definition sort_asc (l : list string) : list string :=
  fold_right insert_asc [] l.

(** [SELECT chat_id FROM users]. *)
Definition select_users (d : DB) : list string := sort_asc (users d).

(** [SELECT item_id FROM seen_items WHERE search_id=?]. *)
Definition select_seen (sid : string) (d : DB) : list string :=
  sort_asc (map snd (filter (fun p => fst p =? sid) (seen_items d))).

(** [SELECT item_id FROM legacy_seen WHERE chat_id=?]. *)
Definition select_legacy (chat_id : string) (d : DB) : list string :=
  sort_asc (map snd (filter (fun p => fst p =? chat_id) (legacy_seen d))).

Definition filters_of (kind : Kind) (frows : list FilterRow) : list Filt :=
  flat_map (fun f =>
              match fr_kind f, kind with
              | category, category | region, region | sector, sector =>
                  [mkFilt (fr_value_id f) (fr_value_name f)]
              | _, _ => []
              end) frows.

(** [State._load_searches_for_user]. *)
Definition _load_searches_for_user (chat_id : string) (d : DB) : list Search :=
  map (fun sr =>
         let frows :=
           filter (fun f => fr_search_id f =? r_id sr) (search_filters d) in
         let cats := filters_of category frows in
         let regs := filters_of region frows in
         let sets := filters_of sector frows in
         mkSearch (r_id sr) (r_text sr) (r_label sr) cats regs sets
           (hd_error cats))
      (filter (fun r => r_chat_id r =? chat_id) (searches_t d)).

(** The class [State] of [state_sqlite.py]. *)
Module StateSqlite.

(** [State.get_user] (the in-memory draft is not part of the database
    and is left out). *)
Definition get_user (chat_id : string) : M Conn User :=
  _conn (
    _ensure_user chat_id ;;
    searches <- query (_load_searches_for_user chat_id) ;;
    seen_map <- query (fun d =>
      fold_left (fun m s => dict_set (s_id s) (select_seen (s_id s) d) m)
                searches []) ;;
    lrows <- query (select_legacy chat_id) ;;
    ret (mkUser searches (last (map Some searches) None) seen_map lrows)).

(** [State.set_user], for a user dict with all its keys, as [get_user]
    returns it.  [existing - incoming_ids] is taken in table order. *)
Definition set_user (chat_id : string) (u : User) : M Conn unit :=
  _conn (
    _ensure_user chat_id ;;
    existing <- query (fun d =>
      map r_id (filter (fun r => r_chat_id r =? chat_id) (searches_t d))) ;;
    for_each (searches u) (fun s =>
      let sid := s_id s in
      execute (sql_upsert_search sid chat_id (s_text s) (s_label s)) ;;
      execute (sql_delete_filters sid) ;;
      for_each (categorie s) (fun cat =>
        execute (sql_insert_filter sid category (f_id cat) (f_name cat))) ;;
      for_each (regioni s) (fun reg =>
        execute (sql_insert_filter sid region (f_id reg) (f_name reg))) ;;
      for_each (settori s) (fun sett =>
        execute (sql_insert_filter sid sector (f_id sett) (f_name sett)))) ;;
    let incoming_ids := map s_id (searches u) in
    let to_delete := filter (fun x => negb (mem x incoming_ids)) existing in
    for_each to_delete (fun x => execute (sql_delete_search x)) ;;
    for_each (seen_ids_map u) (fun '(sid, ids) =>
      for_each ids (fun iid => execute (sql_insert_seen sid iid))) ;;
    for_each (seen_ids u) (fun iid =>
      execute (sql_insert_legacy chat_id iid))).

(** [State.append_seen]. *)
Definition append_seen (chat_id : string) (ids : list string)
  (search_id : option string) : M Conn unit :=
  if is_nil ids then ret tt
  else
    _conn (
      _ensure_user chat_id ;;
      match search_id with
      | Some sid =>
          if truthy sid
          then for_each ids (fun iid => execute (sql_insert_seen sid iid))
          else for_each ids (fun iid =>
                 execute (sql_insert_legacy chat_id iid))
      | None =>
          for_each ids (fun iid => execute (sql_insert_legacy chat_id iid))
      end).

(** [State.all_users]. *)
Fixpoint all_users_loop (rows : list string) (out : Dict User)
  : M Conn (Dict User) :=
  match rows with
  | [] => ret out
  | chat_id :: rows' =>
      u <- get_user chat_id ;;
      all_users_loop rows' (dict_set chat_id u out)
  end.

Definition all_users : M Conn (Dict User) :=
  _conn (rows <- query select_users ;; all_users_loop rows []).

End StateSqlite.

(** ** The JSON store ([state.py])

    The file holds the [users] mapping; [set_user] replaces a node and
    rewrites the file. *)
Definition JsonFile := Dict User.

(** The class [State] of [state.py]. *)
Module StateJson.

Definition all_users : M JsonFile (Dict User) :=
  fun data => (inr data, data).

Definition set_user (chat_id : string) (user_obj : User)
  : M JsonFile unit :=
  fun data => (inr tt, dict_set chat_id user_obj data).

End StateJson.

(** ** The interface the poller is written against *)

Class StateAPI (St : Type) := {
  all_users : M St (Dict User);
  set_user : string -> User -> M St unit
}.

#[export] Instance sqlite_state : StateAPI Conn :=
  {| all_users := StateSqlite.all_users;
     set_user := StateSqlite.set_user |}.

#[export] Instance json_state : StateAPI JsonFile :=
  {| all_users := StateJson.all_users; set_user := StateJson.set_user |}.

(** ** The poll cycle *)

(** What a cycle acts on: the store and the messages handed to
    [tg_send], oldest first. *)
Record World (St : Type) := mkWorld {
  store : St;
  outbox : Outbox
}.

Arguments mkWorld {St} _ _.
Arguments store {St} _.
Arguments outbox {St} _.

Definition on_store {St A} (m : M St A) : M (World St) A :=
  fun w =>
    match m (store w) with
    | (r, s') => (r, mkWorld s' (outbox w))
    end.

Definition on_outbox {St A} (m : M Outbox A) : M (World St) A :=
  fun w =>
    match m (outbox w) with
    | (r, o') => (r, mkWorld (store w) o')
    end.

(** [s.get("id") or _label(s)]. *)
Definition sid_of (s : Search) : string :=
  if truthy (s_id s) then s_id s else _label s.

(** The loop over the searches of one user, from the flag [changed] and
    the user dict reached so far. *)
Fixpoint searches_loop (inpa_search : Catalog) (chat_id : string)
  (u : User) (changed : bool) (ss : list Search) : M Outbox (bool * User) :=
  match ss with
  | [] => ret (changed, u)
  | s :: ss' =>
      r <- _process_one_search inpa_search chat_id u s (sid_of s) ;;
      searches_loop inpa_search chat_id (snd r) (changed || fst r) ss'
  end.

Section Poll.

Context {St : Type} `{StateAPI St}.
Variable inpa_search : Catalog.

(** The body of the loop of [Poll.run_once] for one user. *)
Definition process_user (cu : string * User) : M (World St) unit :=
  let '(chat_id, u) := cu in
  if is_nil (searches u) then
    match search u with
    | Some legacy =>
        on_outbox
          (_process_one_search inpa_search chat_id u legacy "__legacy__") ;;
        ret tt
    | None => ret tt
    end
  else
    r <- on_outbox (searches_loop inpa_search chat_id u false (searches u)) ;;
    if fst r then on_store (set_user chat_id (snd r)) else ret tt.

Definition run_users (us : Dict User) : M (World St) unit :=
  for_each us process_user.

(** [Poll.run_once]. *)
Definition run_once : M (World St) unit :=
  us <- on_store all_users ;;
  run_users us.

End Poll.

(** ** Vocabulary of the statements *)

(** The items of the successful calls, in the order of the payloads; a
    call that raises contributes nothing. *)
Definition all_items (inpa_search : Catalog) (payloads : list Payload)
  : list Item :=
  flat_map (fun p => match inpa_search p with
                     | Some content => content
                     | None => []
                     end) payloads.

(** The number of calls that raise. *)
Definition failures (inpa_search : Catalog) (payloads : list Payload) : nat :=
  length (filter (fun p => match inpa_search p with
                           | Some _ => false
                           | None => true
                           end) payloads).

(** The item carries the id [i]. *)
Definition has_id (i : string) (it : Item) : bool :=
  match it_id it with
  | Some j => j =? i
  | None => false
  end.

(** The id of the item is present and truthy. *)
Definition valid_id (it : Item) : bool :=
  match it_id it with
  | Some j => truthy j
  | None => false
  end.

(** The first occurrence of every valid id that is not in [seen]. *)
Fixpoint first_seen (seen : list string) (l : list Item) : list Item :=
  match l with
  | [] => []
  | it :: l' =>
      match it_id it with
      | Some i =>
          if truthy i && negb (mem i seen)
          then it :: first_seen (i :: seen) l'
          else first_seen seen l'
      | None => first_seen seen l'
      end
  end.

(** Descending order of the sort keys. *)
Definition key_ge (a b : Item) : Prop :=
  String.leb (date_key b) (date_key a) = true.

(** The items that a message list notifies as new. *)
Fixpoint notified (sent : Outbox) : list Item :=
  match sent with
  | [] => []
  | (_, MsgNewItem _ it) :: sent' => it :: notified sent'
  | (_, MsgCheckFailed _ _) :: sent' => notified sent'
  end.

(** [l1] is [l2] with some elements left out, the others in place. *)
Inductive subseq {A} : list A -> list A -> Prop :=
| subseq_nil : subseq [] []
| subseq_skip x l1 l2 : subseq l1 l2 -> subseq l1 (x :: l2)
| subseq_keep x l1 l2 : subseq l1 l2 -> subseq (x :: l1) (x :: l2).

(** The statements of a list run in order on a connection without fault:
    whether all succeeded, and the database reached. *)
Fixpoint exec_all (stmts : list (DB -> option DB)) (d : DB) : bool * DB :=
  match stmts with
  | [] => (true, d)
  | s :: r =>
      match s d with
      | Some d' => exec_all r d'
      | None => (false, d)
      end
  end.

(** The statements of [append_seen], indexed by [None] for
    [_ensure_user] and [Some iid] for the insertion of [iid]. *)
Definition append_stmt (chat_id : string) (search_id : option string)
  (x : option string) : DB -> option DB :=
  match x with
  | None => sql_insert_user chat_id
  | Some iid =>
      match search_id with
      | Some sid =>
          if truthy sid then sql_insert_seen sid iid
          else sql_insert_legacy chat_id iid
      | None => sql_insert_legacy chat_id iid
      end
  end.

Definition append_settled (chat_id : string) (search_id : option string)
  (x : option string) (d : DB) : bool :=
  match x with
  | None => has_user d chat_id
  | Some iid =>
      match search_id with
      | Some sid =>
          if truthy sid then has_pair (sid, iid) (seen_items d)
          else has_pair (chat_id, iid) (legacy_seen d)
      | None => has_pair (chat_id, iid) (legacy_seen d)
      end
  end.

Ltac stmt_cases :=
  repeat match goal with
         | H : Some _ = Some _ |- _ => inversion H; subst; clear H
         | H : None = Some _ |- _ => discriminate H
         | H : context [if ?b then _ else _] |- _ => destruct b eqn:?
         | |- context [if ?b then _ else _] => destruct b eqn:?
         end.

(** The seen list that [_process_one_search] reads and extends. *)
Definition seen_for (u : User) (legacy_id : string) : list string :=
  if is_nil (searches u) then seen_ids u
  else get_list legacy_id (seen_ids_map u).

(** The new items of one search: the diff of the sorted merge. *)
Definition new_items_of (inpa_search : Catalog) (u : User)
  (search_cfg : Search) (legacy_id : string) : list Item :=
  diff (seen_for u legacy_id)
    (sort_desc (merged (aggregate inpa_search (_iter_payloads search_cfg)))).

(** The user dict after the ids of [new_items] are recorded as seen. *)
Definition record_seen (u : User) (legacy_id : string)
  (new_items : list Item) : User :=
  if is_nil (searches u)
  then mkUser (searches u) (search u) (seen_ids_map u)
         (commit (seen_ids u) (ids_of new_items))
  else mkUser (searches u) (search u)
         (dict_set legacy_id
            (commit (get_list legacy_id (seen_ids_map u)) (ids_of new_items))
            (seen_ids_map u))
         (seen_ids u).

(** *** What the processing of a search gives when nothing raises *)

(** The key is [None]: the date is present with [null]. *)
Definition null_date (x : Item) : bool :=
  match sort_key x with
  | None => true
  | Some _ => false
  end.

(** The sort of [l] compares no [None]: fewer than two items, or no
    [null] date. *)
Definition sortable (l : list Item) : bool :=
  negb (Nat.leb 2 (length l) && existsb null_date l).

(** The merged items of the search can be sorted. *)
Definition sortable_search (inpa_search : Catalog) (search_cfg : Search)
  : bool :=
  sortable (merged (aggregate inpa_search (_iter_payloads search_cfg))).

(** [summarize_item] returns on the item. *)
Definition summarizable (it : Item) : bool :=
  match summarize_item it with
  | inr _ => true
  | inl _ => false
  end.

(** The items up to the first one on which [summarize_item] raises. *)
Fixpoint summarized (l : list Item) : list Item :=
  match l with
  | [] => []
  | it :: l' => if summarizable it then it :: summarized l' else []
  end.

(** The processing of the search raises nothing: the merged items can be
    sorted and the new ones summarized. *)
Definition search_returns (inpa_search : Catalog) (u : User)
  (search_cfg : Search) (legacy_id : string) : bool :=
  sortable (merged (aggregate inpa_search (_iter_payloads search_cfg)))
  && forallb summarizable (new_items_of inpa_search u search_cfg legacy_id).

(** The answers of the catalog for the search are well formed: no [null]
    date among two or more merged items, no [null] list in any of them.
    The search is then processed without exception whatever was seen. *)
Definition well_formed (inpa_search : Catalog) (search_cfg : Search) : bool :=
  let m := merged (aggregate inpa_search (_iter_payloads search_cfg)) in
  sortable m && forallb summarizable m.

(** The messages of the new items, as [_process_one_search] words them. *)
Definition new_item_msgs (chat_id : string) (u : User) (search_cfg : Search)
  (new_items : list Item) : Outbox :=
  map (fun it =>
         (chat_id,
          MsgNewItem (if negb (is_nil (searches u))
                      then Some (_label search_cfg) else None) it))
      new_items.

(** The flag, the user dict and the messages of a search that is
    processed without exception. *)
Definition one_search_result (inpa_search : Catalog) (chat_id : string)
  (u : User) (search_cfg : Search) (legacy_id : string)
  : bool * User * Outbox :=
  let payloads := _iter_payloads search_cfg in
  if is_nil payloads then (false, u, [])
  else
    let st := aggregate inpa_search payloads in
    if is_nil (merged st) then
      if Nat.ltb 0 (errors st) && is_nil (merge_ids st)
      then (false, u,
            [(chat_id, MsgCheckFailed (_label search_cfg) (errors st))])
      else (false, u, [])
    else
      let new_items := new_items_of inpa_search u search_cfg legacy_id in
      if is_nil new_items then (false, u, [])
      else (true, record_seen u legacy_id new_items,
            new_item_msgs chat_id u search_cfg new_items).

(** The same for the loop over the searches of a user. *)
Definition loop_result (inpa_search : Catalog) (chat_id : string)
  (u : User) (ss : list Search) : bool * User * Outbox :=
  fold_left
    (fun '(changed, u, sent) s =>
       let '(c, u', sent') :=
         one_search_result inpa_search chat_id u s (sid_of s) in
       (changed || c, u', sent ++ sent'))
    ss (false, u, []).

(** No search of the loop raises, from the user dict [u] on. *)
Fixpoint loop_returns (inpa_search : Catalog) (chat_id : string) (u : User)
  (ss : list Search) : bool :=
  match ss with
  | [] => true
  | s :: ss' =>
      search_returns inpa_search u s (sid_of s)
      && loop_returns inpa_search chat_id
           (snd (fst (one_search_result inpa_search chat_id u s (sid_of s))))
           ss'
  end.

(** No search of the user raises. *)
Definition user_returns (inpa_search : Catalog) (cu : string * User) : bool :=
  let '(chat_id, u) := cu in
  if is_nil (searches u) then
    match search u with
    | Some legacy => search_returns inpa_search u legacy "__legacy__"
    | None => true
    end
  else loop_returns inpa_search chat_id u (searches u).

(** Messages handed to [tg_send] in a row. *)
Definition tg_send_all {St} (sent : Outbox) : M (World St) unit :=
  fun w => (inr tt, mkWorld (store w) (outbox w ++ sent)).

Section PollResult.

Context {St : Type} `{StateAPI St}.
Variable inpa_search : Catalog.

(** What the body of the loop of [run_once] does for a user none of whose
    searches raises: only the store can raise then. *)
Definition user_result (cu : string * User) : M (World St) unit :=
  let '(chat_id, u) := cu in
  if is_nil (searches u) then
    match search u with
    | Some legacy =>
        let '(_, _, sent) :=
          one_search_result inpa_search chat_id u legacy "__legacy__" in
        tg_send_all sent
    | None => ret tt
    end
  else
    let '(changed, u', sent) :=
      loop_result inpa_search chat_id u (searches u) in
    tg_send_all sent ;;
    if changed then on_store (set_user chat_id u') else ret tt.

Definition users_result (us : Dict User) : M (World St) unit :=
  for_each us user_result.

End PollResult.

(** *** The statements of [set_user], in the order the call sends them *)

(** [SELECT id FROM searches WHERE chat_id=?]. *)
Definition existing_of (chat_id : string) (d : DB) : list string :=
  map r_id (filter (fun r => r_chat_id r =? chat_id) (searches_t d)).

(** The statements for one incoming search. *)
Definition search_stmts (chat_id : string) (s : Search)
  : list (DB -> option DB) :=
  let sid := s_id s in
  [sql_upsert_search sid chat_id (s_text s) (s_label s);
   sql_delete_filters sid]
  ++ map (fun cat => sql_insert_filter sid category (f_id cat) (f_name cat))
       (categorie s)
  ++ map (fun reg => sql_insert_filter sid region (f_id reg) (f_name reg))
       (regioni s)
  ++ map (fun sett => sql_insert_filter sid sector (f_id sett) (f_name sett))
       (settori s).

Definition to_delete_of (chat_id : string) (u : User) (d : DB) : list string :=
  filter (fun x => negb (mem x (map s_id (searches u))))
    (existing_of chat_id d).

Definition seen_stmts (kv : string * list string) : list (DB -> option DB) :=
  map (sql_insert_seen (fst kv)) (snd kv).

(** All the statements of [set_user chat_id u] on the database [d]. *)
Definition set_user_stmts (chat_id : string) (u : User) (d : DB)
  : list (DB -> option DB) :=
  [sql_insert_user chat_id]
  ++ flat_map (search_stmts chat_id) (searches u)
  ++ map sql_delete_search (to_delete_of chat_id u d)
  ++ flat_map seen_stmts (seen_ids_map u)
  ++ map (sql_insert_legacy chat_id) (seen_ids u).

(** [for_each] over statements. *)
Definition run_stmts (l : list (DB -> option DB)) : M Conn unit :=
  for_each l execute.

(** What a fault lets through: all the statements, or the first [n]. *)
Definition reached (f : option nat) (l : list (DB -> option DB))
  : list (DB -> option DB) :=
  match f with
  | Some n => firstn n l
  | None => l
  end.

(** *** Referential integrity *)

(** Every foreign key of [SCHEMA] has its parent row. *)
Definition fk_ok (d : DB) : bool :=
  forallb (fun r => has_user d (r_chat_id r)) (searches_t d)
  && forallb (fun f => has_search d (fr_search_id f)) (search_filters d)
  && forallb (fun p => has_search d (fst p)) (seen_items d)
  && forallb (fun p => has_user d (fst p)) (legacy_seen d).

(** No row of [searches], [search_filters] or [seen_items] carries the
    search id [sid]. *)
Definition gone (sid : string) (d : DB) : bool :=
  negb (has_search d sid)
  && forallb (fun f => negb (fr_search_id f =? sid)) (search_filters d)
  && forallb (fun p => negb (fst p =? sid)) (seen_items d).

(** A statement that keeps referential integrity. *)
Definition fk_stmt (s : DB -> option DB) : Prop :=
  forall d d', fk_ok d = true -> s d = Some d' -> fk_ok d' = true.

(** ** Concrete data for the examples *)

Module Ex.

Definition c1 : Filt := mkFilt "C1" "Concorsi".
Definition c2 : Filt := mkFilt "C2" "Mobilita".
Definition lazio : Filt := mkFilt "R12" "Lazio".

Definition a1 : Item :=
  mkItem (Some "A1") (Val "2024-01-02T09:00:00") (Val ["Comune di Roma"])
    (Val ["Roma"]) "a1".
Definition a2 : Item :=
  mkItem (Some "A2") (Val "2024-01-03T09:00:00") (Val ["ASL Latina"])
    Absent "a2".

(** A catalog that answers every payload with the same two items. *)
Definition catalog : Catalog := fun _ => Some [a1; a2].

(** The legacy single search of the JSON store: text and [categoria]. *)
Definition legacy_search : Search :=
  mkSearch EmptyString "bibliotec" None [] [] [] (Some c1).

(** The saved search with the same text and category. *)
Definition saved : SavedSearch :=
  mkSaved "s1" "bibliotec" (Some "bibliotec") [c1] [] [].

Definition legacy_user : User := mkUser [] (Some legacy_search) [] [].

Definition multi_user : User :=
  mkUser [search_dict saved] (Some (search_dict saved)) [("s1", [])] [].

(** One cycle on a store, starting with an empty outbox. *)
Definition cycle {St} `{StateAPI St} (s : St) : World St :=
  snd (run_once catalog (mkWorld s [])).

(** A database with two users, one saved search each. *)
Definition db2 : DB :=
  mkDB ["1"; "2"]
       [mkSearchRow "s1" "1" "bibliotec" (Some "bibliotec");
        mkSearchRow "s2" "2" "archiv" (Some "archiv")]
       [mkFilterRow "s1" category "C1" "Concorsi";
        mkFilterRow "s2" category "C1" "Concorsi"]
       [] [].

(** A database with one user and two saved searches; [A1] was seen for
    the first. *)
Definition db1 : DB :=
  mkDB ["1"]
       [mkSearchRow "s1" "1" "bibliotec" (Some "bibliotec");
        mkSearchRow "s2" "1" "archiv" (Some "archiv")]
       [mkFilterRow "s1" category "C1" "Concorsi";
        mkFilterRow "s1" region "R12" "Lazio";
        mkFilterRow "s2" category "C1" "Concorsi"]
       [("s1", "A1")] [].

(** The user dict that [on_callback] passes to [set_user] after the user
    deleted [s1]: [searches] without it, the seen map as [get_user]
    returned it, and one more id seen for [s2]. *)
Definition after_delete : User :=
  mkUser [mkSearch "s2" "archiv" (Some "archiv") [c1] [] [] (Some c1)]
         None
         [("s1", ["A1"]); ("s2", ["A2"])]
         [].

(** The user dict of an edit of [s1]: two categories, no region. *)
Definition edited : User :=
  mkUser [mkSearch "s1" "bibliotec" (Some "bibliotec") [c1; c2] [] []
            (Some c1);
          mkSearch "s2" "archiv" (Some "archiv") [c1] [] [] (Some c1)]
         None
         [("s1", ["A1"]); ("s2", [])]
         [].

(** The user dicts that [get_user] builds from [db2]. *)
Definition user1 : User :=
  mkUser [mkSearch "s1" "bibliotec" (Some "bibliotec") [c1] [] [] (Some c1)]
         (Some (mkSearch "s1" "bibliotec" (Some "bibliotec") [c1] [] []
                  (Some c1)))
         [("s1", [])] [].

Definition user2 : User :=
  mkUser [mkSearch "s2" "archiv" (Some "archiv") [c1] [] [] (Some c1)]
         (Some (mkSearch "s2" "archiv" (Some "archiv") [c1] [] [] (Some c1)))
         [("s2", [])] [].

(** A saved search without category. *)
Definition no_category : SavedSearch :=
  mkSaved "s0" "bibliotec" None [] [lazio] [].

(** Three payloads; the second call raises, the third returns [A2] again
    with another body, an item without id and one with the empty id. *)
Definition a2' : Item :=
  mkItem (Some "A2") (Val "2024-01-05T09:00:00") Absent Absent "b2".
Definition a3 : Item := mkItem (Some "A3") Absent Absent Absent "a3".
Definition no_id : Item :=
  mkItem None (Val "2024-01-04T09:00:00") Absent Absent "x".
Definition empty_id : Item :=
  mkItem (Some EmptyString) (Val "2024-01-04T09:00:00") Absent Absent "y".

Definition three : SavedSearch :=
  mkSaved "s3" "bibliotec" (Some "three") [c1; c2; mkFilt "C3" "Altro"] [] [].

Definition catalog3 : Catalog :=
  fun p =>
    if categoriaId p =? "C1" then Some [a1; a2]
    else if categoriaId p =? "C2" then None
    else Some [a2'; no_id; empty_id; a3].

Definition user3 : User :=
  mkUser [search_dict three] (Some (search_dict three)) [("s3", ["A1"])] [].

End Ex.


(** * Further functions of the sources *)

(** ** [handlers.py]: selection and labels *)

(** The index of the first entry of [lst] with the id [id], the [next(...)]
    of [_toggle]. *)
Fixpoint index_of (id : string) (lst : list Filt) : option nat :=
  match lst with
  | [] => None
  | e :: r => if f_id e =? id then Some 0 else option_map S (index_of id r)
  end.

(** [lst.pop(idx)] for an index within the list. *)
Fixpoint pop (idx : nat) (lst : list Filt) : list Filt :=
  match idx, lst with
  | 0, _ :: r => r
  | S n, e :: r => e :: pop n r
  | _, [] => []
  end.

(** [handlers._toggle]: the list after the call and the flag returned. *)
Definition _toggle (lst : list Filt) (item : Filt) : list Filt * bool :=
  match index_of (f_id item) lst with
  | None => (lst ++ [item], true)
  | Some idx => (pop idx lst, false)
  end.

(** [handlers._fmt_names]. *)
Definition _fmt_names (items : list Filt) (empty_label : string) : string :=
  match items with
  | [] => empty_label
  | _ => String.concat ", " (map f_name items)
  end.

(** The separator of the labels, [" · "]. *)
Definition label_sep : string := (" " ++ middle_dot ++ " ")%string.

(** [handlers._compute_label]. *)
Definition _compute_label (cfg : Search) : string :=
  let cat := _fmt_names (categorie cfg) "categoria?" in
  let reg := _fmt_names (regioni cfg) "tutte le regioni" in
  let setr := _fmt_names (settori cfg) "tutti i settori" in
  let text := s_text cfg in
  let base := (text ++ label_sep ++ cat)%string in
  let tail := (if is_nil (regioni cfg) then [] else [reg])
                ++ (if is_nil (settori cfg) then [] else [setr]) in
  let base := if is_nil tail then base
              else (base ++ label_sep ++ String.concat label_sep tail)%string in
  if Nat.ltb 65 (String.length base)
  then (String.substring 0 64 base ++ ellipsis)%string else base.

(** ** [notifier.py]: truncation *)

(** [notifier.truncate]; [s[:limit - 1]] is all of [s] but its last
    character when [limit] is [0]. *)
Definition truncate (s : string) (limit : nat) : string :=
  if Nat.leb (String.length s) limit then s
  else
    let cut := match limit with
               | 0 => String.length s - 1
               | S n => n
               end in
    (String.substring 0 cut s ++ ellipsis)%string.

(** ** [state.py]: the other operations of the JSON store *)

Module StateJsonMore.

(** The node [{"search": None, "seen_ids": []}]. *)
Definition default_user : User := mkUser [] None [] [].

(** [State.get_user]: the node of the loaded file, or the default one;
    the file is not written. *)
Definition get_user (chat_id : string) : M JsonFile User :=
  fun data =>
    (inr (match dict_get chat_id data with
          | Some u => u
          | None => default_user
          end), data).

(** [seen[-cap:]]. *)
Definition last_n (cap : nat) (seen : list string) : list string :=
  match cap with
  | 0 => seen
  | _ => skipn (length seen - cap) seen
  end.

(** [State.append_seen]. *)
Definition append_seen (chat_id : string) (ids : list string) (cap : nat)
  : M JsonFile unit :=
  fun data =>
    let u := match dict_get chat_id data with
             | Some u => u
             | None => default_user
             end in
    let seen := fold_left fromkeys_step ids (seen_ids u) in
    let seen := if Nat.ltb cap (length seen) then last_n cap seen else seen in
    (inr tt,
     dict_set chat_id (mkUser (searches u) (search u) (seen_ids_map u) seen)
       data).

End StateJsonMore.

(** ** [state_sqlite.py]: the view of a user *)

(** The seen map that [get_user] builds for the searches it loaded. *)
Definition seen_map_of (ss : list Search) (d : DB) : Dict (list string) :=
  fold_left (fun m s => dict_set (s_id s) (select_seen (s_id s) d) m)
            ss [].

(** The dict that [get_user] returns on the database [d]. *)
Definition user_view (chat_id : string) (d : DB) : User :=
  let ss := _load_searches_for_user chat_id d in
  mkUser ss (last (map Some ss) None) (seen_map_of ss d)
    (select_legacy chat_id d).

(** The search dict as [get_user] returns it after it was stored:
    [categoria] is recomputed from the categories. *)
Definition stored (s : Search) : Search :=
  mkSearch (s_id s) (s_text s) (s_label s) (categorie s) (regioni s)
    (settori s) (hd_error (categorie s)).

(** The rows that [set_user] writes for a search. *)
Definition row_of (chat_id : string) (s : Search) : SearchRow :=
  mkSearchRow (s_id s) chat_id (s_text s) (s_label s).

Definition filter_rows (s : Search) : list FilterRow :=
  map (fun c => mkFilterRow (s_id s) category (f_id c) (f_name c))
    (categorie s)
  ++ map (fun r => mkFilterRow (s_id s) region (f_id r) (f_name r))
       (regioni s)
  ++ map (fun t => mkFilterRow (s_id s) sector (f_id t) (f_name t))
       (settori s).

(** ** More concrete data *)

Module Ex2.

(** A catalog whose every call raises. *)
Definition catalog_down : Catalog := fun _ => None.

(** A search without stored label. *)
Definition unlabelled : Search :=
  mkSearch "s9" "bibliotec" None [Ex.c1; Ex.c2] [Ex.lazio] [] (Some Ex.c1).

Definition labelled : Search :=
  mkSearch "s9" "bibliotec" (Some "mia ricerca") [Ex.c1] [] [] (Some Ex.c1).

(** The database [Ex.db1] with the seen rows of a cycle. *)
Definition db_seen : DB :=
  mkDB ["1"]
       [mkSearchRow "s1" "1" "bibliotec" (Some "bibliotec");
        mkSearchRow "s2" "1" "archiv" (Some "archiv")]
       [mkFilterRow "s1" category "C1" "Concorsi";
        mkFilterRow "s2" category "C1" "Concorsi"]
       [("s1", "A1"); ("s1", "A2"); ("s2", "A1"); ("s2", "A2")]
       [("1", "L1")].

(** A database with one user and no search. *)
Definition db_empty : DB := mkDB ["1"] [] [] [] [].

(** An item whose date is present with [null]:
    [{"id": "A9", "dataPubblicazione": null, ...}]. *)
Definition undated : Item :=
  mkItem (Some "A9") Null (Val ["Comune di Rieti"]) (Val ["Rieti"]) "a9".

(** An item whose list of places is present with [null]. *)
Definition unplaced : Item :=
  mkItem (Some "A8") (Val "2024-01-01T09:00:00") (Val ["Comune di Rieti"])
    Null "a8".

(** A saved search with two categories, no region and one sector. *)
Definition two_cats : SavedSearch :=
  mkSaved "s4" "bibliotec" None [Ex.c1; Ex.c2] []
    [mkFilt "S7" "Istruzione"].

(** A catalog that answers with an item without date among two, and one
    that answers with an item without places after a good one. *)
Definition catalog_undated : Catalog := fun _ => Some [undated; Ex.a1].

(** A catalog whose answers for the text [bibliotec] hold the item
    without places, and are good for any other text. *)
Definition catalog_mixed : Catalog :=
  fun p =>
    if p_text p =? "bibliotec" then Some [Ex.a1; unplaced]
    else Some [Ex.a1; Ex.a2].

(** Three users, registered in the order [2], [10], [1]. *)
Definition db_late : DB := mkDB ["2"; "10"; "1"] [] [] [] [].

(** Two new searches for that user. *)
Definition new_user : User :=
  mkUser [mkSearch "n1" "bibliotec" (Some "bibliotec") [Ex.c1; Ex.c2]
            [Ex.lazio] [] None;
          mkSearch "n2" "archiv" None [Ex.c2] [] [] (Some Ex.c2)]
         None [] [].

Definition json_file : JsonFile :=
  [("1", mkUser [] (Some Ex.legacy_search) [] ["A1"; "A2"]);
   ("2", mkUser [] None [] [])].

End Ex2.

(** ** Vocabulary of the cycle on the SQLite store *)

(** The rows of [search_filters] of one search. *)
Definition filters_for (sid : string) (d : DB) : list FilterRow :=
  filter (fun f => fr_search_id f =? sid) (search_filters d).

(** [d'] has the users and searches of [d], and for every search the same
    filter values of each kind in the same order: [get_user] loads the
    same searches from both. *)
Definition same_searches (d d' : DB) : Prop :=
  users d' = users d
  /\ searches_t d' = searches_t d
  /\ forall sid k,
       filters_of k (filters_for sid d') = filters_of k (filters_for sid d).

(** The merged and sorted items of a search. *)
Definition sorted_items (inpa_search : Catalog) (s : Search) : list Item :=
  sort_desc (merged (aggregate inpa_search (_iter_payloads s))).

(** Every item of every search of the user is recorded as seen in [d],
    for the searches that [d0] holds. *)
Definition all_seen (inpa_search : Catalog) (d0 d : DB) (chat_id : string)
  : Prop :=
  forall s it i,
    In s (_load_searches_for_user chat_id d0) ->
    In it (sorted_items inpa_search s) -> it_id it = Some i ->
    In (s_id s, i) (seen_items d).

(** ** [handlers.py]: the flows that rewrite a user

    The handlers are given the SQLite [State] by [__main__]; the replies
    sent to the chat are left out. *)

(** The branch [del:search:<id>] of [on_callback]: whether the search was
    found. *)
Definition delete_search (chat_id sid : string) : M Conn bool :=
  u <- StateSqlite.get_user chat_id ;;
  let new_list := filter (fun s => negb (s_id s =? sid)) (searches u) in
  if Nat.eqb (length new_list) (length (searches u)) then ret false
  else
    StateSqlite.set_user chat_id
      (mkUser new_list (search u) (seen_ids_map u) (seen_ids u)) ;;
    ret true.

(** [cmd_reset]. *)
Definition cmd_reset (chat_id : string) : M Conn unit :=
  u <- StateSqlite.get_user chat_id ;;
  StateSqlite.set_user chat_id
    (mkUser (searches u) None (seen_ids_map u) []).

(** The search [sid] has a seen row. *)
Definition has_seen (sid : string) (d : DB) : bool :=
  existsb (fun p => fst p =? sid) (seen_items d).


(** The draft of a search that [/nuova] collects in memory. *)
Record Draft := mkDraft {
  d_text : string;
  d_categorie : list Filt;
  d_regioni : list Filt;
  d_settori : list Filt
}.

(** The dict [new_search] of [_finalize_and_save]; [uuid] is the value of
    [str(uuid4())]. *)
Definition new_search_of (uuid : string) (d : Draft) : Search :=
  let new_search :=
    mkSearch uuid (d_text d) None (d_categorie d) (d_regioni d) (d_settori d)
      (hd_error (d_categorie d)) in
  mkSearch uuid (d_text d) (Some (_compute_label new_search))
    (d_categorie d) (d_regioni d) (d_settori d) (hd_error (d_categorie d)).

(** [_finalize_and_save]: whether the search was saved. *)
Definition _finalize_and_save (uuid chat_id : string) (u : User) (d : Draft)
  : M Conn bool :=
  if is_nil (d_categorie d) then ret false
  else
    let new_search := new_search_of uuid d in
    StateSqlite.set_user chat_id
      (mkUser (searches u ++ [new_search]) (Some new_search)
         (seen_ids_map u) (seen_ids u)) ;;
    ret true.

(** The branches of [on_callback] that end the selection: the user is
    read, then the draft is saved. *)
Definition save_search (uuid chat_id : string) (d : Draft) : M Conn bool :=
  u <- StateSqlite.get_user chat_id ;;
  _finalize_and_save uuid chat_id u d.
(** * Properties *)

(** ** Properties of the expander *)

Section Expander.

Lemma or_none_length {A} (l : list A) :
  length (or_none l) = Nat.max (length l) 1.
Proof.
  destruct l as [|a l]; simpl; [reflexivity|].
  rewrite length_map. lia.
Qed.

Lemma drop_none_map_Some {A} (l : list A) : drop_none (map Some l) = l.
Proof. induction l; simpl; congruence. Qed.

Lemma product3_length {A B C} (la : list A) (lb : list B) (lc : list C) :
  length (product3 la lb lc) = length la * (length lb * length lc).
Proof.
  assert (Hb : forall a : A,
             length (flat_map (fun b => map (fun c => (a, b, c)) lc) lb)
             = length lb * length lc).
  { intros a. induction lb as [|b lb IHb]; simpl; [reflexivity|].
    rewrite length_app, length_map, IHb. reflexivity. }
  unfold product3. induction la as [|a la IH]; simpl; [reflexivity|].
  rewrite length_app, IH, Hb. reflexivity.
Qed.

Lemma iter_payloads_saved (s : SavedSearch) :
  length (_iter_payloads (search_dict s))
  = length (ss_categories s)
    * Nat.max (length (ss_regions s)) 1
    * Nat.max (length (ss_sectors s)) 1.
Proof.
  unfold _iter_payloads, search_dict; simpl.
  rewrite length_map, product3_length, !or_none_length.
  destruct (ss_categories s) as [|c cs]; simpl; [reflexivity|].
  rewrite drop_none_map_Some. simpl. lia.
Qed.

Lemma flat_map_all_nil {A B} (f : A -> list B) (l : list A) :
  (forall a, In a l -> f a = []) -> flat_map f l = [].
Proof.
  induction l as [|a l IH]; simpl; intros H; [reflexivity|].
  rewrite H, IH by auto. reflexivity.
Qed.

Lemma flat_map_singleton_length {A B} (f : A -> list B) (l : list A) :
  (forall a, In a l -> length (f a) = 1) ->
  length (flat_map f l) = length l.
Proof.
  induction l as [|a l IH]; simpl; intros H; [reflexivity|].
  rewrite length_app, H by auto. rewrite IH by auto. reflexivity.
Qed.

Lemma product3_fst_in {A B C} (la : list A) (lb : list B) (lc : list C) a b c :
  In (a, b, c) (product3 la lb lc) -> In a la.
Proof.
  unfold product3. rewrite in_flat_map. intros (a' & Ha & H).
  rewrite in_flat_map in H. destruct H as (b' & _ & H).
  rewrite in_map_iff in H. destruct H as (c' & E & _).
  inversion E; subst; assumption.
Qed.

Lemma build_payloads_length (s : Search) :
  length (_build_payloads_from_search s)
  = length (categorie s)
    * Nat.max (length (regioni s)) 1
    * Nat.max (length (settori s)) 1.
Proof.
  unfold _build_payloads_from_search.
  destruct (categorie s) as [|c cs] eqn:E.
  - rewrite flat_map_all_nil; [reflexivity|].
    intros [[a b] x] H. apply product3_fst_in in H.
    simpl in H. destruct H as [<-|[]]. reflexivity.
  - rewrite flat_map_singleton_length.
    + rewrite product3_length, !or_none_length. simpl length. lia.
    + intros [[a b] x] H. apply product3_fst_in in H.
      simpl in H. destruct H as [<-|H]; [reflexivity|].
      rewrite in_map_iff in H. destruct H as (y & <- & _). reflexivity.
Qed.

End Expander.

Section ExpanderValues.

Lemma In_or_none {A} (x : option A) (l : list A) :
  In x (or_none l)
  <-> (if is_nil l then x = None else exists a, In a l /\ x = Some a).
Proof.
  destruct l as [|b l]; cbn [or_none is_nil].
  - simpl. split; [intros [E|[]]; auto | intros ->; auto].
  - rewrite in_map_iff. split; intros (a & H1 & H2); exists a; auto.
Qed.

Lemma In_product3 {A B C} (la : list A) (lb : list B) (lc : list C) a b c :
  In (a, b, c) (product3 la lb lc) <-> In a la /\ In b lb /\ In c lc.
Proof.
  unfold product3. rewrite in_flat_map. split.
  - intros (a' & Ha & H). rewrite in_flat_map in H.
    destruct H as (b' & Hb & H). rewrite in_map_iff in H.
    destruct H as (c' & E & Hc). inversion E; subst. auto.
  - intros (Ha & Hb & Hc). exists a. split; [assumption|].
    rewrite in_flat_map. exists b. split; [assumption|].
    rewrite in_map_iff. exists c. auto.
Qed.

(** The value of an optional dimension in a payload: [None] when nothing
    is selected, else the id of one of the selected values. *)
Lemma In_dimension (v : option string) (l : list Filt) :
  (exists o, In o (or_none l) /\ v = id_or_none o)
  <-> (if is_nil l then v = None
       else exists f, In f l /\ v = Some (f_id f)).
Proof.
  split.
  - intros (o & Ho & ->). apply In_or_none in Ho.
    destruct (is_nil l); [subst; reflexivity|].
    destruct Ho as (a & Ha & ->). exists a. auto.
  - intros H. destruct (is_nil l) eqn:E.
    + exists None. rewrite In_or_none, E. auto.
    + destruct H as (f & Hf & ->). exists (Some f).
      rewrite In_or_none, E. split; [eauto | reflexivity].
Qed.

Lemma In_iter_payloads_saved (s : SavedSearch) (p : Payload) :
  In p (_iter_payloads (search_dict s))
  <-> exists c o1 o2,
        In c (ss_categories s) /\ In o1 (or_none (ss_regions s))
        /\ In o2 (or_none (ss_sectors s))
        /\ p = mkPayload (ss_text s) (f_id c) (id_or_none o1)
                 (id_or_none o2).
Proof.
  unfold _iter_payloads, search_dict.
  cbn [categorie regioni settori categoria s_text].
  assert (Ec : drop_none
                 match ss_categories s with
                 | [] => [hd_error (ss_categories s)]
                 | f :: l0 => map Some (f :: l0)
                 end = ss_categories s).
  { destruct (ss_categories s) as [|c cs] eqn:E; [reflexivity|].
    apply drop_none_map_Some. }
  rewrite Ec, in_map_iff. unfold build_payload. split.
  - intros ([[c o1] o2] & <- & H). apply In_product3 in H.
    exists c, o1, o2. tauto.
  - intros (c & o1 & o2 & Hc & H1 & H2 & ->). exists (c, o1, o2).
    split; [reflexivity|]. apply In_product3. auto.
Qed.

Lemma product3_map_fst {A A' B C} (h : A -> A') (la : list A)
  (lb : list B) (lc : list C) :
  product3 (map h la) lb lc
  = map (fun '(a, b, c) => (h a, b, c)) (product3 la lb lc).
Proof.
  assert (Hb : forall a,
             flat_map (fun b => map (fun c => (h a, b, c)) lc) lb
             = map (fun '(a, b, c) => (h a, b, c))
                 (flat_map (fun b => map (fun c => (a, b, c)) lc) lb)).
  { intros a. induction lb as [|b lb IHb]; simpl; [reflexivity|].
    rewrite map_app, IHb, map_map. reflexivity. }
  unfold product3. induction la as [|a la IH]; simpl; [reflexivity|].
  rewrite map_app, IH, Hb. reflexivity.
Qed.

Lemma flat_map_map_singleton {A B C} (k : A -> B) (g : B -> list C)
  (f : A -> C) (l : list A) :
  (forall a, g (k a) = [f a]) -> flat_map g (map k l) = map f l.
Proof.
  intros H. induction l as [|a l IH]; simpl; [reflexivity|].
  rewrite H, IH. reflexivity.
Qed.

Lemma builders_agree_cats cfg :
  categorie cfg <> [] ->
  _iter_payloads cfg = _build_payloads_from_search cfg.
Proof.
  intros Hc. unfold _iter_payloads, _build_payloads_from_search.
  destruct (categorie cfg) as [|c cs] eqn:E; [congruence|].
  rewrite drop_none_map_Some.
  change (or_none (c :: cs)) with (map Some (c :: cs)).
  rewrite product3_map_fst. symmetry.
  apply flat_map_map_singleton. intros [[a b] x]. reflexivity.
Qed.

Lemma builders_saved (s : SavedSearch) :
  _build_payloads_from_search (search_dict s)
  = _iter_payloads (search_dict s).
Proof.
  destruct (ss_categories s) as [|c cs] eqn:E.
  - transitivity (@nil Payload); [|symmetry]; apply length_zero_iff_nil.
    + rewrite build_payloads_length. simpl. rewrite E. reflexivity.
    + rewrite iter_payloads_saved, E. reflexivity.
  - symmetry. apply builders_agree_cats. simpl. congruence.
Qed.

End ExpanderValues.

(** C4. A saved search with [k] categories, [r] regions and [s] sectors
    expands, both in the poller ([_iter_payloads] on the dict the store
    builds for it) and in the handlers ([_build_payloads_from_search]),
    into the same [k * max r 1 * max s 1] payloads.  The payloads are
    exactly those that carry the text of the search, the id of one of its
    categories, and in each optional dimension the value for no filter
    ([None]) when nothing is selected there, else the id of one of the
    selected values.  The list is empty exactly when there is no
    category. *)
Theorem C4_expander_count (s : SavedSearch) :
  let k := length (ss_categories s) in
  let r := length (ss_regions s) in
  let n := length (ss_sectors s) in
  let specs := _iter_payloads (search_dict s) in
  length specs = k * Nat.max r 1 * Nat.max n 1
  /\ _build_payloads_from_search (search_dict s) = specs
  /\ (forall p,
        In p specs <->
        p_text p = ss_text s
        /\ (exists c, In c (ss_categories s) /\ categoriaId p = f_id c)
        /\ (if is_nil (ss_regions s) then regioneId p = None
            else exists f, In f (ss_regions s)
                           /\ regioneId p = Some (f_id f))
        /\ (if is_nil (ss_sectors s) then settoreId p = None
            else exists f, In f (ss_sectors s)
                           /\ settoreId p = Some (f_id f)))
  /\ (specs = [] <-> ss_categories s = []).
Proof.
  cbv zeta. split; [apply iter_payloads_saved|].
  split; [apply builders_saved|]. split.
  - intros p. rewrite In_iter_payloads_saved.
    rewrite <- !In_dimension. split.
    + intros (c & o1 & o2 & Hc & H1 & H2 & ->). simpl.
      split; [reflexivity|]. split; [exists c; auto|].
      split; [exists o1 | exists o2]; auto.
    + intros (Ht & (c & Hc & Ec) & (o1 & H1 & E1) & (o2 & H2 & E2)).
      exists c, o1, o2. destruct p as [t ci ri si]. simpl in *. subst.
      auto.
  - rewrite <- !length_zero_iff_nil, iter_payloads_saved.
    destruct (ss_categories s); simpl; split; try reflexivity;
      try discriminate.
    intros H'. exfalso.
    pose proof (Nat.le_max_r (length (ss_regions s)) 1).
    pose proof (Nat.le_max_r (length (ss_sectors s)) 1).
    nia.
Qed.

(** ** Membership helpers *)

Lemma mem_In x l : mem x l = true <-> In x l.
Proof.
  unfold mem. rewrite existsb_exists. split.
  - intros (y & Hy & E). apply String.eqb_eq in E. subst. assumption.
  - intros Hx. exists x. split; [assumption | apply String.eqb_refl].
Qed.

Lemma mem_false x l : mem x l = false <-> ~ In x l.
Proof.
  rewrite <- mem_In. destruct (mem x l); split; congruence.
Qed.

Lemma mem_app x l1 l2 : mem x (l1 ++ l2) = mem x l1 || mem x l2.
Proof. unfold mem. apply existsb_app. Qed.

Lemma mem_cons x y l : mem x (y :: l) = (x =? y) || mem x l.
Proof. reflexivity. Qed.

(** ** Rows in key order *)

Lemma insert_asc_perm x l : Permutation (x :: l) (insert_asc x l).
Proof.
  induction l as [|y l IH]; simpl; [reflexivity|].
  destruct (String.leb x y); [reflexivity|].
  rewrite perm_swap. constructor. assumption.
Qed.

Lemma sort_asc_perm l : Permutation l (sort_asc l).
Proof.
  induction l as [|x l IH]; simpl; [constructor|].
  rewrite <- insert_asc_perm. constructor. assumption.
Qed.

Lemma In_sort_asc x l : In x (sort_asc l) <-> In x l.
Proof.
  split; apply Permutation_in;
    [apply Permutation_sym|]; apply sort_asc_perm.
Qed.

Lemma NoDup_sort_asc l : NoDup l -> NoDup (sort_asc l).
Proof. apply Permutation_NoDup, sort_asc_perm. Qed.

Lemma mem_sort_asc x l : mem x (sort_asc l) = mem x l.
Proof.
  destruct (mem x l) eqn:E.
  - apply mem_In, In_sort_asc, mem_In. assumption.
  - apply mem_false. rewrite In_sort_asc. apply mem_false. assumption.
Qed.

Lemma In_select_seen sid i d :
  In i (select_seen sid d) <-> In (sid, i) (seen_items d).
Proof.
  unfold select_seen. rewrite In_sort_asc, in_map_iff. split.
  - intros ([a b] & <- & H). apply filter_In in H. simpl in H.
    destruct H as [H E]. apply String.eqb_eq in E. subst. assumption.
  - intros H. exists (sid, i). split; [reflexivity|].
    apply filter_In. split; [assumption | apply String.eqb_refl].
Qed.

Lemma In_select_legacy chat i d :
  In i (select_legacy chat d) <-> In (chat, i) (legacy_seen d).
Proof.
  unfold select_legacy. rewrite In_sort_asc, in_map_iff. split.
  - intros ([a b] & <- & H). apply filter_In in H. simpl in H.
    destruct H as [H E]. apply String.eqb_eq in E. subst. assumption.
  - intros H. exists (chat, i). split; [reflexivity|].
    apply filter_In. split; [assumption | apply String.eqb_refl].
Qed.

Lemma has_id_iff i it : has_id i it = true <-> it_id it = Some i.
Proof.
  unfold has_id. destruct (it_id it) as [j|]; [|split; discriminate].
  rewrite String.eqb_eq. split; congruence.
Qed.

(** ** Aggregation *)

Section Aggregation.

Variable inpa_search : Catalog.

Lemma ids_of_app l1 l2 : ids_of (l1 ++ l2) = ids_of l1 ++ ids_of l2.
Proof.
  unfold ids_of. induction l1 as [|a l1 IH]; simpl; [reflexivity|].
  destruct (it_id a); simpl; rewrite IH; reflexivity.
Qed.

Lemma In_ids_of i l : In i (ids_of l) <-> exists it, In it l /\ it_id it = Some i.
Proof.
  unfold ids_of. induction l as [|a l IH]; simpl.
  - split; [tauto | intros (it & [] & _)].
  - destruct (it_id a) as [j|] eqn:E; simpl; rewrite IH; split.
    + intros [->|(it & Hin & Hid)]; eauto.
    + intros (it & [->|Hin] & Hid); [left; congruence | right; eauto].
    + intros (it & Hin & Hid); eauto.
    + intros (it & [->|Hin] & Hid); [congruence | eauto].
Qed.

(** The inner loop computes [first_seen]. *)
Lemma fold_merge_item l : forall st,
  fold_left merge_item l st
  = mkAgg (merged st ++ first_seen (merge_ids st) l)
          (rev (ids_of (first_seen (merge_ids st) l)) ++ merge_ids st)
          (errors st).
Proof.
  induction l as [|it l IH]; intros [m s e]; simpl.
  - rewrite app_nil_r. reflexivity.
  - unfold merge_item at 2. simpl.
    destruct (it_id it) as [i|] eqn:Ei; [|apply IH].
    destruct (truthy i && negb (mem i s)) eqn:Et; [|apply IH].
    rewrite IH. simpl. unfold ids_of at 2. simpl. rewrite Ei. simpl.
    fold (ids_of (first_seen (i :: s) l)).
    rewrite <- !app_assoc. reflexivity.
Qed.

Lemma first_seen_app l1 : forall seen l2,
  first_seen seen (l1 ++ l2)
  = first_seen seen l1
    ++ first_seen (rev (ids_of (first_seen seen l1)) ++ seen) l2.
Proof.
  induction l1 as [|it l1 IH]; intros seen l2; simpl; [reflexivity|].
  destruct (it_id it) as [i|] eqn:Ei; [|apply IH].
  destruct (truthy i && negb (mem i seen)) eqn:Et; [|apply IH].
  simpl. rewrite IH. unfold ids_of at 2. simpl. rewrite Ei. simpl.
  fold (ids_of (first_seen (i :: seen) l1)).
  rewrite <- !app_assoc. reflexivity.
Qed.

(** The outer loop: a failing call only counts. *)
Lemma fold_merge_payload ps : forall st,
  fold_left (merge_payload inpa_search) ps st
  = mkAgg (merged st ++ first_seen (merge_ids st) (all_items inpa_search ps))
          (rev (ids_of (first_seen (merge_ids st) (all_items inpa_search ps)))
             ++ merge_ids st)
          (errors st + failures inpa_search ps).
Proof.
  unfold failures.
  induction ps as [|p ps IH]; intros [m s e]; simpl.
  - rewrite app_nil_r, Nat.add_0_r. reflexivity.
  - unfold merge_payload at 2. destruct (inpa_search p) as [content|]; simpl.
    + rewrite fold_merge_item, IH. simpl.
      rewrite first_seen_app, ids_of_app, rev_app_distr.
      rewrite <- !app_assoc. reflexivity.
    + rewrite IH. simpl. f_equal. lia.
Qed.

Lemma aggregate_first_seen ps :
  aggregate inpa_search ps
  = mkAgg (first_seen [] (all_items inpa_search ps))
          (rev (ids_of (first_seen [] (all_items inpa_search ps))))
          (failures inpa_search ps).
Proof.
  unfold aggregate. rewrite fold_merge_payload. simpl.
  rewrite app_nil_r. reflexivity.
Qed.

Lemma first_seen_In l : forall seen it,
  In it (first_seen seen l) ->
  In it l /\ exists i, it_id it = Some i /\ truthy i = true /\ ~ In i seen.
Proof.
  induction l as [|a l IH]; intros seen it; simpl; [tauto|].
  destruct (it_id a) as [i|] eqn:Ei.
  - destruct (truthy i && negb (mem i seen)) eqn:Et.
    + apply andb_true_iff in Et. destruct Et as [Ht Hm].
      apply negb_true_iff, mem_false in Hm.
      intros [<-|Hin]; [split; eauto|].
      apply IH in Hin. destruct Hin as (Hin & j & Hj & Htj & Hn).
      split; [auto|]. exists j. repeat split; auto.
      intros Hs. apply Hn. right. assumption.
    + intros Hin. apply IH in Hin. tauto.
  - intros Hin. apply IH in Hin. tauto.
Qed.

Lemma first_seen_NoDup l : forall seen, NoDup (ids_of (first_seen seen l)).
Proof.
  induction l as [|a l IH]; intros seen; simpl; [constructor|].
  destruct (it_id a) as [i|] eqn:Ei; [|apply IH].
  destruct (truthy i && negb (mem i seen)); [|apply IH].
  unfold ids_of. simpl. rewrite Ei. simpl. constructor; [|apply IH].
  fold (ids_of (first_seen (i :: seen) l)).
  rewrite In_ids_of. intros (it & Hin & Hid).
  apply first_seen_In in Hin. destruct Hin as (_ & j & Hj & _ & Hn).
  apply Hn. left. congruence.
Qed.

Lemma first_seen_none l : forall seen i,
  In i seen -> filter (has_id i) (first_seen seen l) = [].
Proof.
  intros seen i Hi.
  destruct (filter (has_id i) (first_seen seen l)) as [|it r] eqn:E;
    [reflexivity|].
  assert (Hin : In it (filter (has_id i) (first_seen seen l)))
    by (rewrite E; left; reflexivity).
  apply filter_In in Hin. destruct Hin as [Hin Hid].
  apply has_id_iff in Hid.
  apply first_seen_In in Hin. destruct Hin as (_ & j & Hj & _ & Hn).
  exfalso. apply Hn. congruence.
Qed.

(** A valid id that occurs is kept once, at its first occurrence. *)
Lemma first_seen_first l : forall seen i,
  truthy i = true -> ~ In i seen -> existsb (has_id i) l = true ->
  length (filter (has_id i) (first_seen seen l)) = 1
  /\ find (has_id i) (first_seen seen l) = find (has_id i) l.
Proof.
  induction l as [|a l IH]; intros seen i Ht Hn Hex; simpl in *;
    [discriminate|].
  destruct (has_id i a) eqn:Ha.
  - pose proof Ha as Hid. apply has_id_iff in Hid. rewrite Hid.
    apply mem_false in Hn. rewrite Ht, Hn. simpl. rewrite Ha.
    rewrite first_seen_none by (left; reflexivity). auto.
  - simpl in Hex.
    destruct (it_id a) as [j|] eqn:Ej; [|apply IH; auto].
    destruct (truthy j && negb (mem j seen)); [|apply IH; auto].
    simpl. rewrite Ha. apply IH; auto.
    intros [->|Hs]; [|tauto].
    unfold has_id in Ha. rewrite Ej, String.eqb_refl in Ha. discriminate.
Qed.

End Aggregation.

(** C5. Merging the responses of the payloads keeps every valid id once,
    at its first occurrence in payload order; the ids of the merged list
    are pairwise distinct; every merged item comes from a successful call;
    a call that raises adds one to the error count and nothing else, the
    other payloads being processed as if it were absent. *)
Theorem C5_merge_first_seen_wins (inpa_search : Catalog)
  (payloads : list Payload) :
  let out := merged (aggregate inpa_search payloads) in
  let all := all_items inpa_search payloads in
  (forall i, truthy i = true -> existsb (has_id i) all = true ->
     length (filter (has_id i) out) = 1
     /\ find (has_id i) out = find (has_id i) all)
  /\ NoDup (ids_of out)
  /\ (forall it, In it out -> In it all)
  /\ errors (aggregate inpa_search payloads) = failures inpa_search payloads
  /\ out = merged (aggregate inpa_search
                     (filter (fun p => match inpa_search p with
                                       | Some _ => true
                                       | None => false
                                       end) payloads)).
Proof.
  cbv zeta. rewrite !aggregate_first_seen. simpl.
  split; [|split; [|split; [|split]]].
  - intros i Ht Hex. apply first_seen_first; auto.
  - apply first_seen_NoDup.
  - intros it Hin. apply first_seen_In in Hin. tauto.
  - reflexivity.
  - f_equal. unfold all_items.
    induction payloads as [|p ps IH]; simpl; [reflexivity|].
    destruct (inpa_search p) as [c|] eqn:E; simpl; rewrite ?E, IH; reflexivity.
Qed.

(** ** Ordering *)

Section Ordering.

Import OrderedTypeEx.

Lemma leb_iff a b : String.leb a b = true <-> a = b \/ String_as_OT.lt a b.
Proof.
  unfold String.leb.
  destruct (String.compare a b) eqn:E.
  - apply String_as_OT.cmp_eq in E. tauto.
  - apply String_as_OT.cmp_lt in E. tauto.
  - split; [discriminate|]. intros [->|H].
    + assert (X : String.compare b b = Eq) by (apply String_as_OT.cmp_eq; auto).
      congruence.
    + apply String_as_OT.cmp_lt in H. unfold String_as_OT.cmp in H. congruence.
Qed.

Lemma leb_trans a b c :
  String.leb a b = true -> String.leb b c = true -> String.leb a c = true.
Proof.
  rewrite !leb_iff. intros [->|H1] [->|H2]; auto.
  right. eapply String_as_OT.lt_trans; eauto.
Qed.

Lemma leb_refl a : String.leb a a = true.
Proof. apply leb_iff. auto. Qed.

Lemma leb_empty a : String.leb EmptyString a = true.
Proof. destruct a; reflexivity. Qed.

Lemma leb_empty_inv a : String.leb a EmptyString = true -> a = EmptyString.
Proof. destruct a; [reflexivity | discriminate]. Qed.

Lemma leb_false a b : String.leb a b = false -> String.leb b a = true.
Proof.
  intros H. destruct (String.leb_total a b) as [E|E]; congruence.
Qed.

Lemma key_ge_trans a b c : key_ge a b -> key_ge b c -> key_ge a c.
Proof. unfold key_ge. intros H1 H2. eapply leb_trans; eauto. Qed.

Lemma insert_desc_perm x l : Permutation (x :: l) (insert_desc x l).
Proof.
  induction l as [|y l IH]; simpl; [reflexivity|].
  destruct (String.leb (date_key y) (date_key x)); [reflexivity|].
  rewrite perm_swap. constructor. assumption.
Qed.

Lemma sort_desc_perm l : Permutation l (sort_desc l).
Proof.
  induction l as [|x l IH]; simpl; [constructor|].
  rewrite <- insert_desc_perm. constructor. assumption.
Qed.

Lemma insert_desc_sorted x l :
  StronglySorted key_ge l -> StronglySorted key_ge (insert_desc x l).
Proof.
  induction 1 as [|y l Hs IH Hy]; simpl.
  - repeat constructor.
  - destruct (String.leb (date_key y) (date_key x)) eqn:E.
    + constructor; [constructor; assumption|].
      constructor; [exact E|].
      eapply Forall_impl; [|exact Hy].
      intros z Hz. eapply key_ge_trans; [exact E | exact Hz].
    + constructor; [assumption|].
      rewrite <- insert_desc_perm. constructor; [|assumption].
      apply leb_false. assumption.
Qed.

Lemma sort_desc_sorted l : StronglySorted key_ge (sort_desc l).
Proof.
  induction l as [|x l IH]; simpl; [constructor|].
  apply insert_desc_sorted. assumption.
Qed.

(** Items with equal keys keep their relative order. *)
Lemma insert_desc_filter k x l :
  StronglySorted key_ge l ->
  filter (fun y => date_key y =? k) (insert_desc x l)
  = filter (fun y => date_key y =? k) (x :: l).
Proof.
  induction 1 as [|y l Hs IH Hy]; [reflexivity|].
  simpl insert_desc.
  destruct (String.leb (date_key y) (date_key x)) eqn:E; [reflexivity|].
  simpl. simpl in IH. rewrite IH.
  destruct (date_key x =? k) eqn:Ex; [|reflexivity].
  destruct (date_key y =? k) eqn:Ey; [|reflexivity].
  apply String.eqb_eq in Ex, Ey. rewrite Ex, Ey, leb_refl in E. discriminate.
Qed.

Lemma sort_desc_stable k l :
  filter (fun y => date_key y =? k) (sort_desc l)
  = filter (fun y => date_key y =? k) l.
Proof.
  induction l as [|x l IH]; [reflexivity|].
  simpl sort_desc. rewrite insert_desc_filter by apply sort_desc_sorted.
  simpl. rewrite IH. reflexivity.
Qed.

Lemma sorted_after_empty l : StronglySorted key_ge l ->
  forall xs a ys, l = xs ++ a :: ys -> date_key a = EmptyString ->
  Forall (fun b => date_key b = EmptyString) ys.
Proof.
  induction 1 as [|y l Hs IH Hy]; intros xs a ys E Ha.
  - destruct xs; discriminate.
  - destruct xs as [|x xs]; simpl in E; inversion E; subst.
    + eapply Forall_impl; [|exact Hy].
      intros b Hb. unfold key_ge in Hb. rewrite Ha in Hb.
      apply leb_empty_inv. assumption.
    + eapply IH; eauto.
Qed.

(** *** The sort as the code runs it *)

Lemma null_date_iff x :
  null_date x = true <-> dataPubblicazione x = Null.
Proof.
  unfold null_date, sort_key.
  destruct (dataPubblicazione x); split; congruence.
Qed.

Lemma key_lt_strings x y :
  null_date x = false -> null_date y = false ->
  key_lt (sort_key x) (sort_key y)
  = inr (negb (String.leb (date_key y) (date_key x))).
Proof.
  unfold null_date, date_key.
  destruct (sort_key x), (sort_key y); simpl; congruence.
Qed.

Lemma key_lt_null x y :
  null_date x = true \/ null_date y = true ->
  key_lt (sort_key x) (sort_key y) = inl TypeError.
Proof.
  unfold null_date.
  destruct (sort_key x), (sort_key y); simpl; intros [H|H];
    congruence.
Qed.

Lemma insert_sorted_ok x s :
  null_date x = false -> existsb null_date s = false ->
  insert_sorted x s = inr (insert_desc x s).
Proof.
  intros Hx. induction s as [|y s IH]; simpl; [reflexivity|].
  intros Hs. apply orb_false_iff in Hs. destruct Hs as [Hy Hs].
  rewrite key_lt_strings by assumption.
  destruct (String.leb (date_key y) (date_key x)); simpl; [reflexivity|].
  rewrite IH by assumption. reflexivity.
Qed.

Lemma insert_sorted_null x y s :
  null_date x = true \/ null_date y = true ->
  insert_sorted x (y :: s) = inl TypeError.
Proof. intros H. simpl. rewrite key_lt_null by assumption. reflexivity. Qed.

Lemma existsb_perm {A} (f : A -> bool) l l' :
  Permutation l l' -> existsb f l = existsb f l'.
Proof.
  intros Hp. destruct (existsb f l') eqn:E.
  - apply existsb_exists in E. destruct E as (x & Hx & Hf).
    apply existsb_exists. exists x. split; [|assumption].
    eapply Permutation_in; [apply Permutation_sym|]; eassumption.
  - destruct (existsb f l) eqn:E'; [|reflexivity].
    apply existsb_exists in E'. destruct E' as (x & Hx & Hf).
    assert (Ht : existsb f l' = true).
    { apply existsb_exists. exists x. split; [|assumption].
      eapply Permutation_in; eassumption. }
    congruence.
Qed.

(** The sort raises exactly on two or more items of which one has a
    [null] date; otherwise it gives the stable descending order. *)
Lemma merged_sort_spec l :
  merged_sort l
  = if sortable l then inr (sort_desc l) else inl TypeError.
Proof.
  unfold sortable. induction l as [|x l IH]; [reflexivity|].
  cbn [merged_sort]. rewrite IH. clear IH.
  destruct l as [|y l]; [reflexivity|].
  destruct l as [|z l].
  - cbn [length Nat.leb existsb andb negb sort_desc fold_right insert_desc].
    rewrite orb_false_r.
    destruct (null_date x) eqn:Hx.
    + cbn [orb negb]. apply insert_sorted_null. auto.
    + destruct (null_date y) eqn:Hy.
      * cbn [orb negb]. apply insert_sorted_null. auto.
      * cbn [orb negb]. apply insert_sorted_ok; [assumption|].
        cbn [existsb]. rewrite Hy. reflexivity.
  - change (Nat.leb 2 (length (y :: z :: l))) with true.
    change (Nat.leb 2 (length (x :: y :: z :: l))) with true.
    cbn [andb].
    change (existsb null_date (x :: y :: z :: l))
      with (null_date x || existsb null_date (y :: z :: l)).
    destruct (existsb null_date (y :: z :: l)) eqn:Hl; cbn [negb].
    + rewrite orb_true_r. reflexivity.
    + rewrite orb_false_r.
      assert (Hs : existsb null_date (sort_desc (y :: z :: l)) = false)
        by (rewrite <- (existsb_perm _ (sort_desc_perm _)); assumption).
      destruct (null_date x) eqn:Hx; cbn [negb].
      * destruct (sort_desc (y :: z :: l)) as [|a r] eqn:Er.
        -- pose proof (sort_desc_perm (y :: z :: l)) as Hp.
           rewrite Er in Hp. apply Permutation_sym, Permutation_nil in Hp.
           discriminate.
        -- apply insert_sorted_null. auto.
      * apply insert_sorted_ok; assumption.
Qed.

Lemma sortable_false l :
  sortable l = false
  <-> 2 <= length l /\ exists x, In x l /\ dataPubblicazione x = Null.
Proof.
  unfold sortable. rewrite negb_false_iff, andb_true_iff, Nat.leb_le.
  rewrite existsb_exists. split; intros [H1 (x & Hx & H2)];
    (split; [assumption|]); exists x; (split; [assumption|]);
    apply null_date_iff; assumption.
Qed.

Lemma insert_asc_sorted x l :
  StronglySorted (fun a b => String.leb a b = true) l ->
  StronglySorted (fun a b => String.leb a b = true) (insert_asc x l).
Proof.
  induction 1 as [|y l Hs IH Hy]; simpl.
  - repeat constructor.
  - destruct (String.leb x y) eqn:E.
    + constructor; [constructor; assumption|].
      constructor; [exact E|].
      eapply Forall_impl; [|exact Hy].
      intros z Hz. eapply leb_trans; eauto.
    + constructor; [assumption|].
      rewrite <- insert_asc_perm. constructor; [|assumption].
      apply leb_false. assumption.
Qed.

Lemma sort_asc_sorted l :
  StronglySorted (fun a b => String.leb a b = true) (sort_asc l).
Proof.
  induction l as [|x l IH]; simpl; [constructor|].
  apply insert_asc_sorted. assumption.
Qed.

End Ordering.

(** C6.  When the sort returns, its result is a rearrangement of the
    merged list in which the raw [dataPubblicazione] strings never
    increase under lexical comparison, items with equal strings keep their
    order, and an item without the key counts as the empty string: only
    items whose key is empty come after it.  But the sort does not return
    on every merged list: the default of [x.get("dataPubblicazione", "")]
    covers the absent key and not the key present with [null], and with
    two or more merged items, one of them with a [null] date, the sort
    raises [TypeError], as it does on the two items [Ex2.undated] and
    [Ex.a1]. *)
Theorem C6_null_date_breaks_sort (items : list Item) :
  (merged_sort items = inl TypeError
   <-> 2 <= length items
       /\ exists x, In x items /\ dataPubblicazione x = Null)
  /\ (forall s,
        merged_sort items = inr s ->
        Permutation items s
        /\ StronglySorted key_ge s
        /\ (forall k, filter (fun y => date_key y =? k) s
                      = filter (fun y => date_key y =? k) items)
        /\ (forall xs a ys,
              s = xs ++ a :: ys -> dataPubblicazione a = Absent ->
              date_key a = EmptyString
              /\ Forall (fun b => date_key b = EmptyString) ys))
  /\ merged_sort [Ex2.undated; Ex.a1] = inl TypeError.
Proof.
  split; [|split; [|reflexivity]].
  - rewrite merged_sort_spec, <- sortable_false.
    destruct (sortable items); split; congruence.
  - intros s. rewrite merged_sort_spec.
    destruct (sortable items); [|discriminate].
    intros E. inversion E; subst; clear E.
    split; [apply sort_desc_perm|].
    split; [apply sort_desc_sorted|].
    split; [intros k; apply sort_desc_stable|].
    intros xs a ys E Ha.
    assert (Hk : date_key a = EmptyString)
      by (unfold date_key, sort_key; rewrite Ha; reflexivity).
    split; [assumption|].
    eapply sorted_after_empty; eauto. apply sort_desc_sorted.
Qed.

(** ** Diff *)

Section Diff.

Lemma filter_subseq {A} (f : A -> bool) l : subseq (filter f l) l.
Proof.
  induction l as [|x l IH]; simpl; [constructor|].
  destruct (f x); constructor; assumption.
Qed.

Lemma unseen_iff seen it :
  unseen seen it = true <-> (forall i, it_id it = Some i -> ~ In i seen).
Proof.
  unfold unseen. destruct (it_id it) as [j|].
  - rewrite negb_true_iff, mem_false. split.
    + intros Hn i E. inversion E; subst. assumption.
    + intros Hn. apply Hn. reflexivity.
  - split; [intros _ i E; discriminate | reflexivity].
Qed.

End Diff.

Lemma diff_exact (seen : list string) (items : list Item) :
  (forall it, In it (diff seen items) <->
              In it items /\ (forall i, it_id it = Some i -> ~ In i seen))
  /\ subseq (diff seen items) items.
Proof.
  split.
  - intros it. unfold diff. rewrite filter_In, unseen_iff. reflexivity.
  - apply filter_subseq.
Qed.

(** ** Commit *)

Section Commit.

Lemma fromkeys_fold l : fromkeys l = fold_left fromkeys_step l [].
Proof. reflexivity. Qed.

Lemma step_fold_In l : forall acc i,
  In i (fold_left fromkeys_step l acc) <-> In i acc \/ In i l.
Proof.
  induction l as [|k l IH]; intros acc i; simpl; [tauto|].
  rewrite IH. unfold fromkeys_step. destruct (mem k acc) eqn:E.
  - apply mem_In in E. split; [tauto|].
    intros [H|[<-|H]]; auto.
  - rewrite in_app_iff. simpl. tauto.
Qed.

Lemma step_fold_NoDup l : forall acc,
  NoDup acc -> NoDup (fold_left fromkeys_step l acc).
Proof.
  induction l as [|k l IH]; intros acc Hn; simpl; [assumption|].
  apply IH. unfold fromkeys_step. destruct (mem k acc) eqn:E; [assumption|].
  apply mem_false in E.
  apply NoDup_app; [assumption | repeat constructor; simpl; tauto |].
  intros x Hx [<-|[]]. contradiction.
Qed.

Lemma step_fold_absorb l : forall acc,
  (forall x, In x l -> In x acc) -> fold_left fromkeys_step l acc = acc.
Proof.
  induction l as [|k l IH]; intros acc Hin; simpl; [reflexivity|].
  unfold fromkeys_step at 2.
  assert (E : mem k acc = true) by (apply mem_In, Hin; left; reflexivity).
  rewrite E. apply IH. intros x Hx. apply Hin. right. assumption.
Qed.

Lemma step_fold_fresh l : forall acc,
  NoDup (acc ++ l) -> fold_left fromkeys_step l acc = acc ++ l.
Proof.
  induction l as [|k l IH]; intros acc Hn; simpl.
  - rewrite app_nil_r. reflexivity.
  - unfold fromkeys_step at 2.
    assert (E : mem k acc = false).
    { apply mem_false. intros Hk. apply NoDup_remove_2 in Hn.
      apply Hn. apply in_or_app. left. assumption. }
    rewrite E, IH; rewrite <- app_assoc; [reflexivity | assumption].
Qed.

Lemma fromkeys_In l i : In i (fromkeys l) <-> In i l.
Proof. rewrite fromkeys_fold, step_fold_In. simpl. tauto. Qed.

Lemma fromkeys_NoDup l : NoDup (fromkeys l).
Proof. rewrite fromkeys_fold. apply step_fold_NoDup. constructor. Qed.

Lemma commit_In prev ids i : In i (commit prev ids) <-> In i prev \/ In i ids.
Proof. unfold commit. rewrite fromkeys_In, in_app_iff. reflexivity. Qed.

Lemma commit_twice prev ids :
  commit (commit prev ids) ids = commit prev ids.
Proof.
  unfold commit at 1. rewrite fromkeys_fold, fold_left_app.
  rewrite (step_fold_fresh (commit prev ids) []);
    [|simpl; apply fromkeys_NoDup].
  simpl. apply step_fold_absorb.
  intros x Hx. apply commit_In. right. assumption.
Qed.

End Commit.

(** ** Statements on a connection without fault *)

Section Statements.

Lemma execute_no_fault stmt d :
  execute stmt (mkConn d None)
  = match stmt d with
    | Some d' => (inr tt, mkConn d' None)
    | None => (inl IntegrityError, mkConn d None)
    end.
Proof. unfold execute. simpl. destruct (stmt d); reflexivity. Qed.

Lemma for_each_exec_all {A} (f : A -> DB -> option DB) l : forall d,
  for_each l (fun x => execute (f x)) (mkConn d None)
  = (if fst (exec_all (map f l) d) then inr tt else inl IntegrityError,
     mkConn (snd (exec_all (map f l) d)) None).
Proof.
  induction l as [|a l IH]; intros d; simpl; [reflexivity|].
  unfold bind. rewrite execute_no_fault.
  destruct (f a d) as [d'|]; [apply IH | reflexivity].
Qed.

Lemma has_pair_In p l : has_pair p l = true <-> In p l.
Proof.
  unfold has_pair. rewrite existsb_exists. destruct p as [a b]. split.
  - intros ([a' b'] & Hin & E). simpl in E.
    apply andb_true_iff in E. destruct E as [E1 E2].
    apply String.eqb_eq in E1, E2. subst. assumption.
  - intros Hin. exists (a, b). simpl. rewrite !String.eqb_refl. auto.
Qed.

Lemma has_pair_app p l1 l2 :
  has_pair p (l1 ++ l2) = has_pair p l1 || has_pair p l2.
Proof. unfold has_pair. apply existsb_app. Qed.

Lemma has_pair_self p l : has_pair p (l ++ [p]) = true.
Proof. apply has_pair_In, in_or_app. right. left. reflexivity. Qed.

(** Re-running statements that settle. *)
Section Settling.

Variables (A : Type) (f : A -> DB -> option DB) (settled : A -> DB -> bool).
Hypothesis settled_noop : forall x d, settled x d = true -> f x d = Some d.
Hypothesis settled_after :
  forall x d d', f x d = Some d' -> settled x d' = true.
Hypothesis settled_keeps :
  forall x y d d', settled x d = true -> f y d = Some d' ->
                   settled x d' = true.

Lemma exec_all_skip l1 : forall d r,
  (forall x, In x l1 -> settled x d = true) ->
  exec_all (map f (l1 ++ r)) d = exec_all (map f r) d.
Proof.
  induction l1 as [|a l1 IH]; intros d r Hs; simpl; [reflexivity|].
  rewrite settled_noop by (apply Hs; left; reflexivity).
  apply IH. intros x Hx. apply Hs. right. assumption.
Qed.

Lemma exec_all_again l : forall d done,
  (forall x, In x done -> settled x d = true) ->
  exec_all (map f (done ++ l)) (snd (exec_all (map f l) d))
  = exec_all (map f l) d.
Proof.
  induction l as [|a l IH]; intros d done Hs; simpl.
  - rewrite exec_all_skip by assumption. reflexivity.
  - destruct (f a d) as [d1|] eqn:E.
    + replace (done ++ a :: l) with ((done ++ [a]) ++ l)
        by (rewrite <- app_assoc; reflexivity).
      apply IH. intros x Hx. apply in_app_or in Hx.
      destruct Hx as [Hx|[<-|[]]]; eauto.
    + simpl. rewrite exec_all_skip by assumption. simpl. rewrite E.
      reflexivity.
Qed.

Lemma exec_all_idempotent l d :
  snd (exec_all (map f l) (snd (exec_all (map f l) d)))
  = snd (exec_all (map f l) d).
Proof.
  pose proof (@exec_all_again l d []) as H. simpl in H.
  rewrite H; [reflexivity | intros x []].
Qed.

End Settling.

Lemma append_settled_noop chat sid x d :
  append_settled chat sid x d = true -> append_stmt chat sid x d = Some d.
Proof.
  destruct x as [iid|], sid as [s|]; simpl;
    unfold sql_insert_seen, sql_insert_legacy, sql_insert_user;
    try destruct (truthy s); intros ->; reflexivity.
Qed.

Lemma append_settled_after chat sid x d d' :
  append_stmt chat sid x d = Some d' -> append_settled chat sid x d' = true.
Proof.
  destruct x as [iid|], sid as [s|]; simpl;
    unfold sql_insert_seen, sql_insert_legacy, sql_insert_user, has_user;
    intros H; stmt_cases; simpl;
    rewrite ?has_pair_self, ?mem_app; simpl; rewrite ?String.eqb_refl;
    auto using orb_true_r.
Qed.

Lemma append_settled_keeps chat sid x y d d' :
  append_settled chat sid x d = true -> append_stmt chat sid y d = Some d' ->
  append_settled chat sid x d' = true.
Proof.
  destruct x as [i|], y as [j|], sid as [s|]; simpl;
    unfold sql_insert_seen, sql_insert_legacy, sql_insert_user, has_user;
    intros Hs H; stmt_cases; simpl;
    rewrite ?has_pair_app, ?mem_app; try rewrite Hs; simpl; auto;
    congruence.
Qed.

Lemma append_seen_run chat ids sid d :
  db (snd (StateSqlite.append_seen chat ids sid (mkConn d None)))
  = match ids with
    | [] => d
    | _ => snd (exec_all (map (append_stmt chat sid) (None :: map Some ids)) d)
    end.
Proof.
  unfold StateSqlite.append_seen. destruct ids as [|i ids]; [reflexivity|].
  cbv iota. cbv [is_nil]. generalize (i :: ids). intros l.
  cbv [_conn _ensure_user]. unfold bind at 1. rewrite execute_no_fault.
  simpl map. cbn [exec_all]. unfold append_stmt at 1.
  assert (E : exists d1, sql_insert_user chat d = Some d1)
    by (unfold sql_insert_user; destruct (has_user d chat); eauto).
  destruct E as [d1 ->]. rewrite map_map.
  destruct sid as [s|]; [destruct (truthy s) eqn:Et|];
    rewrite for_each_exec_all; unfold append_stmt; rewrite ?Et; reflexivity.
Qed.

End Statements.

(** C8. Committing the same ids twice gives the list that committing
    them once gives, in memory ([commit], an order-preserving union
    without repetition) and in the database ([append_seen] on the SQLite
    store): the second call changes nothing. *)
Theorem C8_commit_idempotent :
  (forall prev ids,
     commit (commit prev ids) ids = commit prev ids
     /\ NoDup (commit prev ids)
     /\ (forall i, In i (commit prev ids) <-> In i prev \/ In i ids))
  /\ (forall chat_id ids search_id d,
        let append d :=
          db (snd (StateSqlite.append_seen chat_id ids search_id (mkConn d None))) in
        append (append d) = append d).
Proof.
  split.
  - intros prev ids. split; [apply commit_twice|].
    split; [apply fromkeys_NoDup | intros i; apply commit_In].
  - intros chat ids sid d. cbv beta zeta. rewrite !append_seen_run.
    destruct ids as [|i ids]; [reflexivity|].
    apply exec_all_idempotent with (settled := append_settled chat sid).
    + apply append_settled_noop.
    + apply append_settled_after.
    + apply append_settled_keeps.
Qed.

(** ** One search *)

Section OneSearch.

Variable inpa_search : Catalog.

Lemma is_nil_true {A} (l : list A) : is_nil l = true <-> l = [].
Proof. destruct l; simpl; split; congruence. Qed.

Lemma notified_new chat hdr l :
  notified (map (fun it => (chat, MsgNewItem hdr it)) l) = l.
Proof. induction l as [|a l IH]; simpl; congruence. Qed.

Lemma sort_desc_nil l : l = [] -> sort_desc l = [].
Proof. intros ->. reflexivity. Qed.

Lemma new_items_none u cfg lid :
  merged (aggregate inpa_search (_iter_payloads cfg)) = [] ->
  new_items_of inpa_search u cfg lid = [].
Proof. unfold new_items_of. intros ->. reflexivity. Qed.

Lemma notified_msgs chat u cfg l :
  notified (new_item_msgs chat u cfg l) = l.
Proof. apply notified_new. Qed.

(** What a search that raises nothing does, in terms of the new items. *)
Lemma process_one_spec chat u cfg lid :
  let new := new_items_of inpa_search u cfg lid in
  notified (snd (one_search_result inpa_search chat u cfg lid)) = new
  /\ fst (fst (one_search_result inpa_search chat u cfg lid))
     = negb (is_nil new)
  /\ snd (fst (one_search_result inpa_search chat u cfg lid))
     = (if is_nil new then u else record_seen u lid new).
Proof.
  cbv zeta. unfold one_search_result.
  destruct (is_nil (_iter_payloads cfg)) eqn:Ep.
  { apply is_nil_true in Ep. rewrite new_items_none; [simpl; auto|].
    rewrite Ep. reflexivity. }
  destruct (is_nil (merged (aggregate inpa_search (_iter_payloads cfg))))
    eqn:Em.
  { apply is_nil_true in Em. rewrite new_items_none by assumption.
    destruct (_ && _); simpl; auto. }
  destruct (is_nil (new_items_of inpa_search u cfg lid)) eqn:En; simpl.
  - apply is_nil_true in En. rewrite En. auto.
  - rewrite notified_msgs. auto.
Qed.

Lemma first_seen_valid seen l :
  Forall (fun it => valid_id it = true) (first_seen seen l).
Proof.
  apply Forall_forall. intros it Hin. apply first_seen_In in Hin.
  destruct Hin as (_ & i & Hi & Ht & _). unfold valid_id. rewrite Hi.
  assumption.
Qed.

Lemma merged_valid ps :
  Forall (fun it => valid_id it = true) (merged (aggregate inpa_search ps)).
Proof. rewrite aggregate_first_seen. apply first_seen_valid. Qed.

Lemma new_items_valid u cfg lid :
  Forall (fun it => valid_id it = true) (new_items_of inpa_search u cfg lid).
Proof.
  apply Forall_forall. intros it Hin. unfold new_items_of, diff in Hin.
  apply filter_In in Hin. destruct Hin as [Hin _].
  apply (Permutation_in _ (Permutation_sym (sort_desc_perm _))) in Hin.
  pose proof (merged_valid (_iter_payloads cfg)) as Hv.
  rewrite Forall_forall in Hv. auto.
Qed.

Lemma ids_of_valid l i :
  Forall (fun it => valid_id it = true) l -> In i (ids_of l) ->
  truthy i = true.
Proof.
  intros Hv Hin. apply In_ids_of in Hin. destruct Hin as (it & Hin & Hid).
  rewrite Forall_forall in Hv. apply Hv in Hin.
  unfold valid_id in Hin. rewrite Hid in Hin. assumption.
Qed.

Lemma dict_get_set {V} k k' (v : V) d :
  dict_get k (dict_set k' v d) = if k =? k' then Some v else dict_get k d.
Proof.
  induction d as [|[k0 v0] d IH]; simpl.
  - destruct (k =? k'); reflexivity.
  - destruct (k' =? k0) eqn:E0; simpl.
    + apply String.eqb_eq in E0. subst k0.
      destruct (k =? k'); reflexivity.
    + rewrite IH. destruct (k =? k0) eqn:E1; [|reflexivity].
      apply String.eqb_eq in E1. subst k0.
      rewrite String.eqb_sym, E0. reflexivity.
Qed.

Lemma get_list_set {V} k k' (v : list V) d :
  get_list k (dict_set k' v d) = if k =? k' then v else get_list k d.
Proof.
  unfold get_list. rewrite dict_get_set. destruct (k =? k'); reflexivity.
Qed.

End OneSearch.

Lemma notified_app a b : notified (a ++ b) = notified a ++ notified b.
Proof.
  induction a as [|[c m] a IH]; simpl; [reflexivity|].
  destruct m; simpl; rewrite IH; reflexivity.
Qed.

(** ** The search as the code runs it *)

Section OneSearchRun.

Variable inpa_search : Catalog.

Lemma summarize_item_raises it :
  summarizable it = false -> summarize_item it = inl TypeError.
Proof.
  unfold summarizable, summarize_item, join_names.
  destruct (entiRiferimento it), (sedi it); simpl; congruence.
Qed.

(** The loop that notifies the new items: all of them, or those before
    the first one that cannot be summarized. *)
Lemma notify_run chat hdr l : forall out,
  for_each l (fun it =>
    lift (summarize_item it) ;; tg_send chat (MsgNewItem hdr it)) out
  = (if forallb summarizable l then inr tt else inl TypeError,
     out ++ map (fun it => (chat, MsgNewItem hdr it)) (summarized l)).
Proof.
  induction l as [|it l IH]; intros out; cbn [for_each forallb summarized].
  - unfold ret. simpl. rewrite app_nil_r. reflexivity.
  - unfold bind at 1. unfold bind at 1. unfold lift at 1.
    destruct (summarizable it) eqn:Hs.
    + unfold summarizable in Hs.
      destruct (summarize_item it) as [e|t]; [discriminate|].
      unfold tg_send at 1. rewrite IH. cbn [andb map].
      rewrite <- app_assoc. reflexivity.
    + rewrite (summarize_item_raises it Hs). cbn [andb map].
      rewrite app_nil_r. reflexivity.
Qed.

Lemma summarized_all l : forallb summarizable l = true -> summarized l = l.
Proof.
  induction l as [|it l IH]; simpl; [reflexivity|].
  destruct (summarizable it); simpl; [|discriminate].
  intros Hl. rewrite IH by assumption. reflexivity.
Qed.

Lemma new_items_seen_for u cfg lid :
  diff (if negb (is_nil (searches u)) then get_list lid (seen_ids_map u)
        else seen_ids u)
    (sort_desc (merged (aggregate inpa_search (_iter_payloads cfg))))
  = new_items_of inpa_search u cfg lid.
Proof.
  unfold new_items_of, seen_for. destruct (is_nil (searches u)); reflexivity.
Qed.

(** [_process_one_search] on any outbox: when nothing raises, the result
    and the messages of [one_search_result]; else [TypeError], no result,
    and the messages of the new items that come before the first one that
    cannot be summarized (none when it is the sort that raises). *)
Lemma process_one_run chat u cfg lid out :
  _process_one_search inpa_search chat u cfg lid out
  = if search_returns inpa_search u cfg lid
    then (inr (fst (one_search_result inpa_search chat u cfg lid)),
          out ++ snd (one_search_result inpa_search chat u cfg lid))
    else (inl TypeError,
          out ++ new_item_msgs chat u cfg
                   (if sortable (merged (aggregate inpa_search
                                           (_iter_payloads cfg)))
                    then summarized (new_items_of inpa_search u cfg lid)
                    else [])).
Proof.
  unfold _process_one_search, one_search_result, search_returns.
  destruct (is_nil (_iter_payloads cfg)) eqn:Ep.
  { apply is_nil_true in Ep. rewrite new_items_none by (rewrite Ep; reflexivity).
    rewrite Ep. simpl. unfold ret. rewrite app_nil_r. reflexivity. }
  destruct (is_nil (merged (aggregate inpa_search (_iter_payloads cfg))))
    eqn:Em.
  { apply is_nil_true in Em. rewrite new_items_none by assumption.
    rewrite Em. cbn [sortable length Nat.leb andb negb forallb].
    destruct (_ && _); unfold bind, tg_send, ret; simpl;
      rewrite ?app_nil_r; reflexivity. }
  unfold bind at 1. unfold lift at 1. rewrite merged_sort_spec.
  destruct (sortable (merged (aggregate inpa_search (_iter_payloads cfg))))
    eqn:Hs; cbn [andb].
  2:{ unfold new_item_msgs. simpl. rewrite app_nil_r. reflexivity. }
  rewrite new_items_seen_for.
  destruct (is_nil (new_items_of inpa_search u cfg lid)) eqn:En.
  { apply is_nil_true in En. rewrite En. simpl. unfold ret.
    rewrite app_nil_r. reflexivity. }
  unfold bind at 1. rewrite notify_run. unfold new_item_msgs.
  destruct (forallb summarizable (new_items_of inpa_search u cfg lid))
    eqn:Hf; [|reflexivity].
  rewrite (summarized_all _ Hf). unfold record_seen.
  destruct (is_nil (searches u)); reflexivity.
Qed.

Lemma process_one_ok chat u cfg lid out :
  search_returns inpa_search u cfg lid = true ->
  _process_one_search inpa_search chat u cfg lid out
  = (inr (fst (one_search_result inpa_search chat u cfg lid)),
     out ++ snd (one_search_result inpa_search chat u cfg lid)).
Proof. intros Hr. rewrite process_one_run, Hr. reflexivity. Qed.

Lemma process_one_returns chat u cfg lid out r out' :
  _process_one_search inpa_search chat u cfg lid out = (inr r, out') ->
  search_returns inpa_search u cfg lid = true
  /\ r = fst (one_search_result inpa_search chat u cfg lid)
  /\ out' = out ++ snd (one_search_result inpa_search chat u cfg lid).
Proof.
  rewrite process_one_run.
  destruct (search_returns inpa_search u cfg lid); [|discriminate].
  intros E. inversion E. auto.
Qed.

Lemma forallb_subset {A} (f : A -> bool) l l' :
  (forall x, In x l' -> In x l) ->
  forallb f l = true -> forallb f l' = true.
Proof.
  rewrite !forallb_forall. auto.
Qed.

(** Well-formed answers are processed without exception, whatever the
    user has seen. *)
Lemma well_formed_returns u cfg lid :
  well_formed inpa_search cfg = true ->
  search_returns inpa_search u cfg lid = true.
Proof.
  unfold well_formed, search_returns. cbv zeta.
  rewrite !andb_true_iff. intros [Hs Hf]. split; [assumption|].
  eapply forallb_subset; [|exact Hf].
  intros x Hx. unfold new_items_of, diff in Hx. apply filter_In in Hx.
  destruct Hx as [Hx _].
  eapply Permutation_in; [apply Permutation_sym, sort_desc_perm|].
  assumption.
Qed.

(** A search without new item is processed without exception as soon as
    its merged items can be sorted. *)
Lemma quiet_returns u cfg lid :
  new_items_of inpa_search u cfg lid = [] ->
  search_returns inpa_search u cfg lid
  = sortable (merged (aggregate inpa_search (_iter_payloads cfg))).
Proof.
  intros Hn. unfold search_returns. rewrite Hn. simpl.
  apply andb_true_r.
Qed.

Lemma summarized_prefix l : exists rest, summarized l ++ rest = l.
Proof.
  induction l as [|it l [rest IH]]; simpl; [exists []; reflexivity|].
  destruct (summarizable it).
  - exists rest. simpl. rewrite IH. reflexivity.
  - exists (it :: l). reflexivity.
Qed.

(** The two ways a call ends: with the result of [one_search_result], or
    with [TypeError] after the messages of some first new items. *)
Lemma process_one_cases chat u cfg lid out res out' :
  _process_one_search inpa_search chat u cfg lid out = (res, out') ->
  (search_returns inpa_search u cfg lid = true
   /\ res = inr (fst (one_search_result inpa_search chat u cfg lid))
   /\ out' = out ++ snd (one_search_result inpa_search chat u cfg lid))
  \/ (search_returns inpa_search u cfg lid = false
      /\ res = inl TypeError
      /\ exists part rest,
           out' = out ++ new_item_msgs chat u cfg part
           /\ part ++ rest = new_items_of inpa_search u cfg lid).
Proof.
  rewrite process_one_run.
  destruct (search_returns inpa_search u cfg lid).
  - intros E. inversion E. left. auto.
  - intros E. inversion E. right. split; [reflexivity|].
    split; [reflexivity|].
    destruct (sortable (merged (aggregate inpa_search (_iter_payloads cfg)))).
    + destruct (summarized_prefix (new_items_of inpa_search u cfg lid))
        as [rest Hr].
      exists (summarized (new_items_of inpa_search u cfg lid)), rest. auto.
    + exists [], (new_items_of inpa_search u cfg lid). auto.
Qed.

Lemma search_returns_sortable u cfg lid :
  search_returns inpa_search u cfg lid = true ->
  merged_sort (merged (aggregate inpa_search (_iter_payloads cfg)))
  = inr (sort_desc (merged (aggregate inpa_search (_iter_payloads cfg)))).
Proof.
  unfold search_returns. rewrite andb_true_iff. intros [Hs _].
  rewrite merged_sort_spec, Hs. reflexivity.
Qed.

End OneSearchRun.

(** C7. [diff seen items] holds exactly the items whose id is not in the
    seen-set: none of its items has its id in [seen], every item of
    [items] whose id is not in [seen] is in it, and it is a subsequence of
    [items], so their order is kept.  The items that a call of
    [_process_one_search] notifies when it returns are the diff of the
    sorted merge against the seen list of the search; when it raises,
    they are the first items of that diff. *)
Theorem C7_diff_exact (seen : list string) (items : list Item) :
  (forall it, In it (diff seen items) <->
              In it items /\ (forall i, it_id it = Some i -> ~ In i seen))
  /\ subseq (diff seen items) items
  /\ (forall inpa_search chat_id u search_cfg legacy_id out r out',
        _process_one_search inpa_search chat_id u search_cfg legacy_id out
        = (inr r, out') ->
        exists sorted sent,
          merged_sort
            (merged (aggregate inpa_search (_iter_payloads search_cfg)))
          = inr sorted
          /\ out' = out ++ sent
          /\ notified sent = diff (seen_for u legacy_id) sorted)
  /\ (forall inpa_search chat_id u search_cfg legacy_id out e out',
        _process_one_search inpa_search chat_id u search_cfg legacy_id out
        = (inl e, out') ->
        exists sent rest,
          out' = out ++ sent
          /\ notified sent ++ rest
             = diff (seen_for u legacy_id)
                 (sort_desc
                    (merged (aggregate inpa_search
                               (_iter_payloads search_cfg))))).
Proof.
  destruct (diff_exact seen items) as [H1 H2].
  split; [exact H1|]. split; [exact H2|]. split.
  - intros inpa_search chat_id u search_cfg legacy_id out r out' E.
    apply process_one_returns in E. destruct E as (Hr & _ & ->).
    exists (sort_desc
              (merged (aggregate inpa_search (_iter_payloads search_cfg)))),
      (snd (one_search_result inpa_search chat_id u search_cfg legacy_id)).
    split; [eapply search_returns_sortable; eassumption|].
    split; [reflexivity|].
    apply (process_one_spec inpa_search chat_id u search_cfg legacy_id).
  - intros inpa_search chat_id u search_cfg legacy_id out e out' E.
    apply process_one_cases in E.
    destruct E as [(_ & E & _)|(_ & _ & part & rest & -> & Hp)];
      [discriminate|].
    exists (new_item_msgs chat_id u search_cfg part), rest.
    split; [reflexivity|]. rewrite notified_msgs. exact Hp.
Qed.

(** C10. An item whose id is absent, [None] or empty is not in the merged
    list, is not notified, and its id is not recorded: whether
    [_process_one_search] returns or raises, every item it notifies has a
    truthy id, and when it returns every id of a seen list of the user
    was in that list before or is a truthy id. *)
Theorem C10_invalid_ids_dropped (inpa_search : Catalog) (chat_id : string)
  (u : User) (search_cfg : Search) (legacy_id : string) (out : Outbox) :
  let r := _process_one_search inpa_search chat_id u search_cfg legacy_id
             out in
  Forall (fun it => valid_id it = true)
    (merged (aggregate inpa_search (_iter_payloads search_cfg)))
  /\ (exists sent,
        snd r = out ++ sent
        /\ Forall (fun it => valid_id it = true) (notified sent))
  /\ (forall c u',
        fst r = inr (c, u') ->
        (forall i, In i (seen_ids u') -> In i (seen_ids u) \/ truthy i = true)
        /\ (forall k i, In i (get_list k (seen_ids_map u')) ->
                        In i (get_list k (seen_ids_map u))
                        \/ truthy i = true)).
Proof.
  cbv zeta.
  pose proof (new_items_valid inpa_search u search_cfg legacy_id) as Hv.
  destruct (_process_one_search inpa_search chat_id u search_cfg legacy_id
              out) as [res out'] eqn:E.
  apply process_one_cases in E. cbn [fst snd].
  destruct (process_one_spec inpa_search chat_id u search_cfg legacy_id)
    as (Hn & _ & Hu).
  split; [apply merged_valid|].
  destruct E as [(_ & -> & ->)|(_ & -> & part & rest & -> & Hp)].
  - split.
    { eexists. split; [reflexivity|]. rewrite Hn. assumption. }
    intros c u' E. inversion E as [E']. clear E.
    assert (Eu : u' = snd (fst (one_search_result inpa_search chat_id u
                                  search_cfg legacy_id)))
      by (rewrite E'; reflexivity).
    rewrite Hu in Eu. subst u'.
    destruct (is_nil (new_items_of inpa_search u search_cfg legacy_id));
      [split; auto|].
    unfold record_seen. destruct (is_nil (searches u)); simpl.
    + split; [|auto]. intros i Hi. apply commit_In in Hi.
      destruct Hi as [Hi|Hi]; [auto|]. right. eapply ids_of_valid; eauto.
    + split; [auto|]. intros k i. rewrite get_list_set.
      destruct (k =? legacy_id) eqn:Ek; [|auto].
      apply String.eqb_eq in Ek. subst k. intros Hi. apply commit_In in Hi.
      destruct Hi as [Hi|Hi]; [auto|]. right. eapply ids_of_valid; eauto.
  - split; [|intros c u' E; discriminate].
    eexists. split; [reflexivity|]. rewrite notified_msgs.
    rewrite <- Hp in Hv. apply Forall_app in Hv. tauto.
Qed.

(** ** [set_user] as a list of statements *)

Section SetUserStatements.

Lemma bind_ext {St A B} (m m' : M St A) (k k' : A -> M St B) s :
  m s = m' s -> (forall a s', k a s' = k' a s') -> bind m k s = bind m' k' s.
Proof.
  intros Hm Hk. unfold bind. rewrite Hm.
  destruct (m' s) as [[e|a] s']; [reflexivity | apply Hk].
Qed.

Lemma bind_ext_res {St A B} (m : M St A) (k k' : A -> M St B) s :
  (forall a s', m s = (inr a, s') -> k a s' = k' a s') ->
  bind m k s = bind m k' s.
Proof.
  intros Hk. unfold bind.
  destruct (m s) as [[e|a] s']; [reflexivity | apply Hk; reflexivity].
Qed.

Lemma run_stmts_app l1 l2 c :
  run_stmts (l1 ++ l2) c = bind (run_stmts l1) (fun _ => run_stmts l2) c.
Proof.
  unfold run_stmts. revert c.
  induction l1 as [|s l1 IH]; intros c; simpl.
  - reflexivity.
  - unfold bind at 1 2 3. destruct (execute s c) as [[e|[]] c1]; [reflexivity|].
    rewrite IH. reflexivity.
Qed.

Lemma for_each_map_stmts {A} (f : A -> DB -> option DB) l c :
  for_each l (fun x => execute (f x)) c = run_stmts (map f l) c.
Proof.
  unfold run_stmts. revert c. induction l as [|a l IH]; intros c; simpl;
    [reflexivity|].
  apply bind_ext; [reflexivity | intros _ c'; apply IH].
Qed.

Lemma for_each_flat_stmts {A} (g : A -> list (DB -> option DB)) l c :
  for_each l (fun x => run_stmts (g x)) c = run_stmts (flat_map g l) c.
Proof.
  revert c. induction l as [|a l IH]; intros c; simpl; [reflexivity|].
  rewrite run_stmts_app.
  apply bind_ext; [reflexivity | intros _ c'; apply IH].
Qed.

Lemma for_each_ext {St A} (f g : A -> M St unit) l s :
  (forall a s', f a s' = g a s') -> for_each l f s = for_each l g s.
Proof.
  intros Hfg. revert s. induction l as [|a l IH]; intros s; simpl;
    [reflexivity|].
  apply bind_ext; [apply Hfg | intros _ s'; apply IH].
Qed.

Lemma search_stmts_run chat s c :
  (execute (sql_upsert_search (s_id s) chat (s_text s) (s_label s)) ;;
   execute (sql_delete_filters (s_id s)) ;;
   for_each (categorie s) (fun cat =>
     execute (sql_insert_filter (s_id s) category (f_id cat) (f_name cat))) ;;
   for_each (regioni s) (fun reg =>
     execute (sql_insert_filter (s_id s) region (f_id reg) (f_name reg))) ;;
   for_each (settori s) (fun sett =>
     execute (sql_insert_filter (s_id s) sector (f_id sett) (f_name sett)))) c
  = run_stmts (search_stmts chat s) c.
Proof.
  unfold search_stmts. change ([?a; ?b] ++ ?l) with (a :: b :: l).
  unfold run_stmts at 1. simpl for_each. fold (run_stmts).
  apply bind_ext; [reflexivity | intros _ c1].
  apply bind_ext; [reflexivity | intros _ c2].
  fold (run_stmts
          (map (fun cat => sql_insert_filter (s_id s) category
                             (f_id cat) (f_name cat)) (categorie s)
           ++ map (fun reg => sql_insert_filter (s_id s) region
                                (f_id reg) (f_name reg)) (regioni s)
           ++ map (fun sett => sql_insert_filter (s_id s) sector
                                 (f_id sett) (f_name sett)) (settori s))).
  rewrite run_stmts_app.
  apply bind_ext; [apply for_each_map_stmts | intros _ c3].
  rewrite run_stmts_app.
  apply bind_ext; [apply for_each_map_stmts | intros _ c4].
  apply for_each_map_stmts.
Qed.

Lemma existing_insert_user chat d d' :
  sql_insert_user chat d = Some d' ->
  existing_of chat d' = existing_of chat d.
Proof.
  unfold sql_insert_user. destruct (has_user d chat); intros E;
    inversion E; reflexivity.
Qed.

(** [set_user] sends exactly the statements of [set_user_stmts]. *)
Lemma set_user_run chat u c :
  StateSqlite.set_user chat u c = run_stmts (set_user_stmts chat u (db c)) c.
Proof.
  unfold StateSqlite.set_user, set_user_stmts, _conn, _ensure_user.
  change ([?a] ++ ?l) with (a :: l).
  unfold run_stmts at 1. simpl for_each. fold run_stmts.
  apply bind_ext_res. intros [] c1 E1.
  assert (Hex : existing_of chat (db c1) = existing_of chat (db c)).
  { unfold execute in E1. destruct (fault c) as [[|n]|];
      try discriminate;
      destruct (sql_insert_user chat (db c)) eqn:Es; inversion E1; subst;
      simpl; eapply existing_insert_user; eauto. }
  unfold bind at 1. unfold query at 1. cbv beta iota.
  fold (existing_of chat (db c1)). rewrite Hex.
  fold (to_delete_of chat u (db c)).
  change (for_each ?l execute c1) with (run_stmts l c1).
  rewrite run_stmts_app. apply bind_ext.
  { rewrite <- for_each_flat_stmts. apply for_each_ext.
    intros s c'. apply search_stmts_run. }
  intros _ c2. rewrite run_stmts_app. apply bind_ext.
  { apply for_each_map_stmts. }
  intros _ c3. rewrite run_stmts_app. apply bind_ext.
  { rewrite <- for_each_flat_stmts. apply for_each_ext.
    intros [sid ids] c'. apply for_each_map_stmts. }
  intros _ c4. apply for_each_map_stmts.
Qed.

(** On a connection with fault [f] the database ends where the
    statements that [f] lets through lead. *)
Lemma run_stmts_reached l : forall d f,
  db (snd (run_stmts l (mkConn d f))) = snd (exec_all (reached f l) d).
Proof.
  unfold run_stmts.
  induction l as [|s l IH]; intros d f; simpl.
  - destruct f as [[|n]|]; reflexivity.
  - unfold bind. unfold execute at 1. simpl.
    destruct f as [[|n]|]; simpl; try reflexivity;
      destruct (s d) as [d'|]; simpl; try reflexivity; apply IH.
Qed.

Lemma run_stmts_no_fault l d :
  run_stmts l (mkConn d None)
  = (if fst (exec_all l d) then inr tt else inl IntegrityError,
     mkConn (snd (exec_all l d)) None).
Proof.
  unfold run_stmts. rewrite <- (map_id l) at 2 3.
  rewrite <- for_each_exec_all. apply for_each_ext. reflexivity.
Qed.

End SetUserStatements.

(** ** Invariants of the statements *)

Section Invariants.

Lemma exec_all_app l1 l2 d :
  exec_all (l1 ++ l2) d
  = if fst (exec_all l1 d) then exec_all l2 (snd (exec_all l1 d))
    else (false, snd (exec_all l1 d)).
Proof.
  revert d. induction l1 as [|s l1 IH]; intros d; simpl; [reflexivity|].
  destruct (s d) as [d'|]; [apply IH | reflexivity].
Qed.

Lemma exec_all_inv (P : DB -> Prop) l :
  (forall s, In s l -> forall d d', P d -> s d = Some d' -> P d') ->
  forall d, P d -> P (snd (exec_all l d)).
Proof.
  induction l as [|s l IH]; intros Hs d Hd; simpl; [assumption|].
  destruct (s d) as [d'|] eqn:E; [|assumption].
  apply IH; [intros; eapply Hs; eauto; right; assumption|].
  eapply Hs; eauto. left. reflexivity.
Qed.

Lemma exec_all_ok (Q : DB -> Prop) l :
  (forall s, In s l -> forall d, Q d -> exists d', s d = Some d' /\ Q d') ->
  forall d, Q d -> fst (exec_all l d) = true /\ Q (snd (exec_all l d)).
Proof.
  induction l as [|s l IH]; intros Hs d Hd; simpl; [auto|].
  destruct (Hs s (or_introl eq_refl) d Hd) as (d' & -> & Hd').
  apply IH; [intros; apply Hs; auto; right; assumption | assumption].
Qed.

Lemma In_firstn {A} n (l : list A) x : In x (firstn n l) -> In x l.
Proof.
  revert l. induction n as [|n IH]; intros [|a l]; simpl; try tauto.
  intros [->|H]; auto.
Qed.

Lemma In_reached f l s : In s (reached f l) -> In s l.
Proof. destruct f; simpl; [apply In_firstn | auto]. Qed.

Lemma has_search_iff d x :
  has_search d x = true <-> exists r, In r (searches_t d) /\ r_id r = x.
Proof.
  unfold has_search. rewrite existsb_exists.
  split; intros (r & Hin & E); exists r; split; auto;
    apply String.eqb_eq; assumption.
Qed.

Lemma forallb_filter {A} (f g : A -> bool) l :
  forallb f l = true -> forallb f (filter g l) = true.
Proof.
  rewrite !forallb_forall. intros H x Hx. apply filter_In in Hx.
  apply H. tauto.
Qed.

Lemma existsb_filter_false {A} (f g : A -> bool) l :
  existsb f l = false -> existsb f (filter g l) = false.
Proof.
  intros H. destruct (existsb f (filter g l)) eqn:E; [|reflexivity].
  apply existsb_exists in E. destruct E as (x & Hx & Hf).
  apply filter_In in Hx.
  assert (existsb f l = true) by (apply existsb_exists; exists x; tauto).
  congruence.
Qed.

Lemma fk_ok_iff d :
  fk_ok d = true <->
  (forall r, In r (searches_t d) -> has_user d (r_chat_id r) = true)
  /\ (forall f, In f (search_filters d) ->
                has_search d (fr_search_id f) = true)
  /\ (forall p, In p (seen_items d) -> has_search d (fst p) = true)
  /\ (forall p, In p (legacy_seen d) -> has_user d (fst p) = true).
Proof.
  unfold fk_ok. rewrite !andb_true_iff, !forallb_forall. tauto.
Qed.

Lemma fk_insert_user chat : fk_stmt (sql_insert_user chat).
Proof.
  intros d d' Hd. unfold sql_insert_user.
  destruct (has_user d chat); intros E; inversion E; subst; [assumption|].
  apply fk_ok_iff in Hd. destruct Hd as (H1 & H2 & H3 & H4).
  apply fk_ok_iff. unfold has_user, has_search in *. simpl.
  repeat split; auto; intros x Hx; rewrite mem_app; apply orb_true_iff; auto.
Qed.

Lemma has_search_upsert d sid text label x :
  existsb (fun r => r_id r =? x)
    (map (fun r => if r_id r =? sid
                   then mkSearchRow (r_id r) (r_chat_id r) text label
                   else r) (searches_t d))
  = has_search d x.
Proof.
  unfold has_search. induction (searches_t d) as [|r l IH]; simpl;
    [reflexivity|].
  rewrite IH. destruct (r_id r =? sid); reflexivity.
Qed.

Lemma fk_upsert sid chat text label :
  fk_stmt (sql_upsert_search sid chat text label).
Proof.
  intros d d' Hd. unfold sql_upsert_search.
  apply fk_ok_iff in Hd. destruct Hd as (H1 & H2 & H3 & H4).
  destruct (has_search d sid) eqn:Es; [|destruct (has_user d chat) eqn:Eu];
    intros E; inversion E; subst; clear E; apply fk_ok_iff;
    unfold has_user, has_search in *; simpl.
  - repeat split; auto.
    + intros r Hr. apply in_map_iff in Hr. destruct Hr as (r0 & <- & Hr0).
      destruct (r_id r0 =? sid); simpl; auto.
    + intros f Hf. rewrite has_search_upsert. apply H2. assumption.
    + intros p Hp. rewrite has_search_upsert. apply H3. assumption.
  - repeat split; auto.
    + intros r Hr. apply in_app_or in Hr. destruct Hr as [Hr|[<-|[]]]; auto.
    + intros f Hf. rewrite existsb_app. apply orb_true_iff. auto.
    + intros p Hp. rewrite existsb_app. apply orb_true_iff. auto.
Qed.

Lemma fk_delete_filters sid : fk_stmt (sql_delete_filters sid).
Proof.
  intros d d' Hd E. inversion E; subst; clear E.
  apply fk_ok_iff in Hd. destruct Hd as (H1 & H2 & H3 & H4).
  apply fk_ok_iff. unfold has_user, has_search in *. simpl.
  repeat split; auto. intros f Hf. apply filter_In in Hf. apply H2. tauto.
Qed.

Lemma fk_insert_filter sid k vid vname :
  fk_stmt (sql_insert_filter sid k vid vname).
Proof.
  intros d d' Hd. unfold sql_insert_filter.
  destruct (has_search d sid) eqn:Es; intros E; inversion E; subst; clear E.
  apply fk_ok_iff in Hd. destruct Hd as (H1 & H2 & H3 & H4).
  apply fk_ok_iff. unfold has_user, has_search in *. simpl.
  repeat split; auto. intros f Hf.
  apply in_app_or in Hf. destruct Hf as [Hf|[<-|[]]]; auto.
Qed.

Lemma has_search_delete d sid x :
  (x =? sid) = false ->
  existsb (fun r => r_id r =? x)
    (filter (fun r => negb (r_id r =? sid)) (searches_t d))
  = has_search d x.
Proof.
  intros Hx. unfold has_search.
  induction (searches_t d) as [|r l IH]; simpl; [reflexivity|].
  destruct (r_id r =? sid) eqn:E; simpl; rewrite IH; [|reflexivity].
  apply String.eqb_eq in E. rewrite E, String.eqb_sym, Hx. reflexivity.
Qed.

Lemma fk_delete_search sid : fk_stmt (sql_delete_search sid).
Proof.
  intros d d' Hd E. inversion E; subst; clear E.
  apply fk_ok_iff in Hd. destruct Hd as (H1 & H2 & H3 & H4).
  apply fk_ok_iff. unfold has_user in *. unfold has_search at 1 2. simpl.
  repeat split; auto.
  - intros r Hr. apply filter_In in Hr. apply H1. tauto.
  - intros f Hf. apply filter_In in Hf. destruct Hf as [Hf Hn].
    apply negb_true_iff in Hn. rewrite has_search_delete; auto.
  - intros p Hp. apply filter_In in Hp. destruct Hp as [Hp Hn].
    apply negb_true_iff in Hn. rewrite has_search_delete; auto.
Qed.

Lemma fk_insert_seen sid iid : fk_stmt (sql_insert_seen sid iid).
Proof.
  intros d d' Hd. unfold sql_insert_seen.
  destruct (has_pair (sid, iid) (seen_items d)); [|
    destruct (has_search d sid) eqn:Es]; intros E; inversion E; subst;
    clear E; [assumption|].
  apply fk_ok_iff in Hd. destruct Hd as (H1 & H2 & H3 & H4).
  apply fk_ok_iff. unfold has_user, has_search in *. simpl.
  repeat split; auto. intros p Hp.
  apply in_app_or in Hp. destruct Hp as [Hp|[<-|[]]]; auto.
Qed.

Lemma fk_insert_legacy chat iid : fk_stmt (sql_insert_legacy chat iid).
Proof.
  intros d d' Hd. unfold sql_insert_legacy.
  destruct (has_pair (chat, iid) (legacy_seen d)); [|
    destruct (has_user d chat) eqn:Es]; intros E; inversion E; subst;
    clear E; [assumption|].
  apply fk_ok_iff in Hd. destruct Hd as (H1 & H2 & H3 & H4).
  apply fk_ok_iff. unfold has_user, has_search in *. simpl.
  repeat split; auto. intros p Hp.
  apply in_app_or in Hp. destruct Hp as [Hp|[<-|[]]]; auto.
Qed.

Lemma In_search_stmts chat s st :
  In st (search_stmts chat s) ->
  st = sql_upsert_search (s_id s) chat (s_text s) (s_label s)
  \/ st = sql_delete_filters (s_id s)
  \/ exists k vid vname, st = sql_insert_filter (s_id s) k vid vname.
Proof.
  unfold search_stmts. simpl.
  intros [<-|[<-|H]]; auto. right. right.
  rewrite !in_app_iff, !in_map_iff in H.
  destruct H as [(x & <- & _)|[(x & <- & _)|(x & <- & _)]]; eauto.
Qed.

Lemma fk_set_user_stmts chat u d0 st :
  In st (set_user_stmts chat u d0) -> fk_stmt st.
Proof.
  unfold set_user_stmts. rewrite !in_app_iff. simpl.
  intros [[<-|[]]|[H|[H|[H|H]]]].
  - apply fk_insert_user.
  - apply in_flat_map in H. destruct H as (s & _ & H).
    apply In_search_stmts in H.
    destruct H as [->|[->|(k & vid & vname & ->)]];
      auto using fk_upsert, fk_delete_filters, fk_insert_filter.
  - apply in_map_iff in H. destruct H as (x & <- & _).
    apply fk_delete_search.
  - apply in_flat_map in H. destruct H as ([sid ids] & _ & H).
    unfold seen_stmts in H. apply in_map_iff in H.
    destruct H as (x & <- & _). apply fk_insert_seen.
  - apply in_map_iff in H. destruct H as (x & <- & _).
    apply fk_insert_legacy.
Qed.

End Invariants.

(** C2 (as amended). [set_user] opens no transaction: the database it
    leaves is the one reached by the statements that ran, all of them when
    nothing fails, the first [n] when the statement after them fails or
    the call is interrupted there, and the statements up to the rejected
    one when SQLite rejects one.  At each of these points referential
    integrity holds: no filter row and no seen row is without its search,
    no search and no legacy seen row is without its user. *)
Theorem C2_set_user_statementwise (chat_id : string) (u : User) (d : DB)
  (f : option nat) :
  let d' := db (snd (StateSqlite.set_user chat_id u (mkConn d f))) in
  d' = snd (exec_all (reached f (set_user_stmts chat_id u d)) d)
  /\ (fk_ok d = true -> fk_ok d' = true).
Proof.
  cbv zeta. rewrite set_user_run. simpl db at 1 3.
  rewrite run_stmts_reached. split; [reflexivity|].
  apply (exec_all_inv (fun d => fk_ok d = true)).
  intros s Hs d0 d0' H0 E0. apply In_reached in Hs.
  eapply fk_set_user_stmts; eauto.
Qed.

(** ** Cascade *)

Section Cascade.

Variable sid : string.

Lemma gone_iff d :
  gone sid d = true <->
  has_search d sid = false
  /\ forallb (fun f => negb (fr_search_id f =? sid)) (search_filters d) = true
  /\ forallb (fun p => negb (fst p =? sid)) (seen_items d) = true.
Proof.
  unfold gone. rewrite !andb_true_iff, negb_true_iff. tauto.
Qed.

Lemma delete_makes_gone d d' :
  sql_delete_search sid d = Some d' -> gone sid d' = true.
Proof.
  intros E. inversion E; subst; clear E. apply gone_iff.
  unfold has_search. simpl. repeat split.
  - induction (searches_t d) as [|r l IH]; simpl; [reflexivity|].
    destruct (r_id r =? sid) eqn:Er; simpl; rewrite ?Er; auto.
  - apply forallb_forall. intros f Hf. apply filter_In in Hf. tauto.
  - apply forallb_forall. intros p Hp. apply filter_In in Hp. tauto.
Qed.

Lemma delete_keeps_gone x d d' :
  gone sid d = true -> sql_delete_search x d = Some d' -> gone sid d' = true.
Proof.
  intros Hg E. inversion E; subst; clear E.
  apply gone_iff in Hg. destruct Hg as (H1 & H2 & H3).
  apply gone_iff. unfold has_search in *. simpl.
  auto using existsb_filter_false, forallb_filter.
Qed.

Lemma insert_seen_keeps_gone x iid d d' :
  gone sid d = true -> sql_insert_seen x iid d = Some d' ->
  gone sid d' = true.
Proof.
  intros Hg. unfold sql_insert_seen.
  destruct (has_pair (x, iid) (seen_items d)); [|
    destruct (has_search d x) eqn:Es]; intros E; inversion E; subst;
    clear E; [assumption|].
  apply gone_iff in Hg. destruct Hg as (H1 & H2 & H3).
  apply gone_iff. unfold has_search in *. simpl. repeat split; auto.
  rewrite forallb_app, H3. simpl.
  destruct (x =? sid) eqn:Ex; [|reflexivity].
  apply String.eqb_eq in Ex. subst x. congruence.
Qed.

Lemma insert_legacy_keeps_gone chat iid d d' :
  gone sid d = true -> sql_insert_legacy chat iid d = Some d' ->
  gone sid d' = true.
Proof.
  intros Hg. unfold sql_insert_legacy.
  destruct (has_pair (chat, iid) (legacy_seen d)); [|
    destruct (has_user d chat)]; intros E; inversion E; subst;
    clear E; assumption.
Qed.

Lemma deletes_make_gone l : forall d,
  In sid l ->
  fst (exec_all (map sql_delete_search l) d) = true
  /\ gone sid (snd (exec_all (map sql_delete_search l) d)) = true.
Proof.
  induction l as [|x l IH]; intros d Hin; [destruct Hin|].
  simpl. destruct Hin as [->|Hin]; [|apply IH; assumption].
  apply (exec_all_ok (fun d => gone sid d = true)).
  - intros s Hs d0 Hd0. apply in_map_iff in Hs. destruct Hs as (y & <- & _).
    eexists. split; [reflexivity|].
    eapply delete_keeps_gone; eauto. reflexivity.
  - eapply delete_makes_gone. reflexivity.
Qed.

(** The statements for the incoming searches are all accepted once the
    user row exists. *)
Lemma search_stmts_ok chat s d :
  has_user d chat = true ->
  fst (exec_all (search_stmts chat s) d) = true
  /\ has_user (snd (exec_all (search_stmts chat s) d)) chat = true.
Proof.
  intros Hu. unfold search_stmts. simpl.
  assert (E : exists d1, sql_upsert_search (s_id s) chat (s_text s)
                           (s_label s) d = Some d1
                         /\ has_user d1 chat = true
                         /\ has_search d1 (s_id s) = true).
  { unfold sql_upsert_search.
    destruct (has_search d (s_id s)) eqn:Es.
    - eexists. split; [reflexivity|]. split; [exact Hu|].
      unfold has_search. simpl. rewrite has_search_upsert. exact Es.
    - rewrite Hu. eexists. split; [reflexivity|]. split; [exact Hu|].
      unfold has_search. simpl. rewrite existsb_app. simpl.
      rewrite String.eqb_refl. apply orb_true_iff. auto. }
  destruct E as (d1 & -> & Hu1 & Hs1).
  pose (Q := fun d => has_user d chat = true /\ has_search d (s_id s) = true).
  assert (H : fst (exec_all
                (map (fun cat => sql_insert_filter (s_id s) category
                                   (f_id cat) (f_name cat)) (categorie s)
                 ++ map (fun reg => sql_insert_filter (s_id s) region
                                      (f_id reg) (f_name reg)) (regioni s)
                 ++ map (fun sett => sql_insert_filter (s_id s) sector
                                       (f_id sett) (f_name sett)) (settori s))
                (mkDB (users d1) (searches_t d1)
                   (filter (fun f => negb (fr_search_id f =? s_id s))
                      (search_filters d1))
                   (seen_items d1) (legacy_seen d1))) = true
              /\ Q (snd (exec_all
                (map (fun cat => sql_insert_filter (s_id s) category
                                   (f_id cat) (f_name cat)) (categorie s)
                 ++ map (fun reg => sql_insert_filter (s_id s) region
                                      (f_id reg) (f_name reg)) (regioni s)
                 ++ map (fun sett => sql_insert_filter (s_id s) sector
                                       (f_id sett) (f_name sett)) (settori s))
                (mkDB (users d1) (searches_t d1)
                   (filter (fun f => negb (fr_search_id f =? s_id s))
                      (search_filters d1))
                   (seen_items d1) (legacy_seen d1))))).
  { apply (exec_all_ok Q); [|split; assumption].
    intros st Hst d0 [Hu0 Hs0].
    assert (Hf : exists k vid vname,
               st = sql_insert_filter (s_id s) k vid vname).
    { rewrite !in_app_iff, !in_map_iff in Hst.
      destruct Hst as [(x & <- & _)|[(x & <- & _)|(x & <- & _)]]; eauto. }
    destruct Hf as (k & vid & vname & ->).
    unfold sql_insert_filter. rewrite Hs0. eexists. split; [reflexivity|].
    split; assumption. }
  destruct H as [H1 [H2 _]]. split; assumption.
Qed.

Lemma searches_stmts_ok chat ss : forall d,
  has_user d chat = true ->
  fst (exec_all (flat_map (search_stmts chat) ss) d) = true
  /\ has_user (snd (exec_all (flat_map (search_stmts chat) ss) d)) chat
     = true.
Proof.
  induction ss as [|s ss IH]; intros d Hu; cbn [flat_map]; [simpl; auto|].
  rewrite exec_all_app.
  destruct (search_stmts_ok chat s d Hu) as [-> Hu1]. apply IH. assumption.
Qed.

Lemma In_existing chat d r :
  In r (searches_t d) -> r_chat_id r = chat -> In (r_id r) (existing_of chat d).
Proof.
  intros Hr Hc. unfold existing_of. apply in_map. apply filter_In.
  split; [assumption|]. apply String.eqb_eq. assumption.
Qed.

End Cascade.

(** C9. When [set_user] runs with a list of searches that leaves out a
    search stored for the user, the search row is deleted and no row of
    [search_filters] or [seen_items] carries its id afterwards, also when
    the incoming seen map still has an entry for it. *)
Theorem C9_omitted_search_cascades (chat_id : string) (u : User) (d : DB)
  (r : SearchRow) :
  In r (searches_t d) -> r_chat_id r = chat_id ->
  ~ In (r_id r) (map s_id (searches u)) ->
  gone (r_id r)
    (db (snd (StateSqlite.set_user chat_id u (mkConn d None)))) = true.
Proof.
  intros Hr Hc Hn.
  rewrite set_user_run, run_stmts_no_fault. simpl.
  unfold set_user_stmts. change ([?a] ++ ?l) with (a :: l). simpl exec_all.
  assert (E : exists d1, sql_insert_user chat_id d = Some d1
                         /\ has_user d1 chat_id = true).
  { unfold sql_insert_user. destruct (has_user d chat_id) eqn:Eu.
    - eauto.
    - eexists. split; [reflexivity|]. unfold has_user. simpl.
      rewrite mem_app. simpl. rewrite String.eqb_refl.
      apply orb_true_iff. auto. }
  destruct E as (d1 & -> & Hu1).
  rewrite exec_all_app.
  destruct (searches_stmts_ok chat_id (searches u) d1 Hu1) as [-> _].
  rewrite exec_all_app.
  assert (Hd : In (r_id r) (to_delete_of chat_id u d)).
  { unfold to_delete_of. apply filter_In. split.
    - apply In_existing; assumption.
    - apply negb_true_iff, mem_false. assumption. }
  destruct (deletes_make_gone (r_id r) (to_delete_of chat_id u d)
              (snd (exec_all (flat_map (search_stmts chat_id) (searches u))
                      d1)) Hd) as [-> Hg].
  apply (exec_all_inv (fun d => gone (r_id r) d = true)); [|assumption].
  intros s Hs d0 d0' Hd0 Es. apply in_app_or in Hs. destruct Hs as [Hs|Hs].
  - apply in_flat_map in Hs. destruct Hs as ([k ids] & _ & Hs).
    unfold seen_stmts in Hs. apply in_map_iff in Hs.
    destruct Hs as (x & <- & _). eapply insert_seen_keeps_gone; eauto.
  - apply in_map_iff in Hs. destruct Hs as (x & <- & _).
    eapply insert_legacy_keeps_gone; eauto.
Qed.

(** ** The cycle over the users *)

Section Cycle.

Context {St : Type} `{StateAPI St}.
Variable inpa_search : Catalog.

Lemma for_each_app {S A} (l1 l2 : list A) (body : A -> M S unit) s :
  for_each (l1 ++ l2) body s
  = bind (for_each l1 body) (fun _ => for_each l2 body) s.
Proof.
  revert s. induction l1 as [|a l1 IH]; intros s; simpl; [reflexivity|].
  unfold bind at 1 2 3. destruct (body a s) as [[e|[]] s1]; [reflexivity|].
  rewrite IH. reflexivity.
Qed.

(** An exception of one user ends the loop there. *)
Lemma run_users_raise us1 cu us2 w w1 w2 e :
  run_users inpa_search us1 w = (inr tt, w1) ->
  process_user inpa_search cu w1 = (inl e, w2) ->
  run_users inpa_search (us1 ++ cu :: us2) w = (inl e, w2).
Proof.
  unfold run_users. intros H1 H2. rewrite for_each_app.
  unfold bind at 1. rewrite H1. simpl. unfold bind. rewrite H2. reflexivity.
Qed.

(** *** The loop over the searches *)

Lemma loop_fold_shift chat ss : forall c u a b,
  fold_left
    (fun '(changed, u, sent) s =>
       let '(c, u', sent') :=
         one_search_result inpa_search chat u s (sid_of s) in
       (changed || c, u', sent ++ sent'))
    ss (c, u, a ++ b)
  = (let '(c', u', sent') :=
       fold_left
         (fun '(changed, u, sent) s =>
            let '(c, u', sent') :=
              one_search_result inpa_search chat u s (sid_of s) in
            (changed || c, u', sent ++ sent'))
         ss (c, u, b) in
     (c', u', a ++ sent')).
Proof.
  induction ss as [|s ss IH]; intros c u a b; cbn [fold_left];
    [reflexivity|].
  destruct (one_search_result inpa_search chat u s (sid_of s))
    as [[c1 u1] sent1].
  rewrite <- app_assoc. apply IH.
Qed.

(** The loop, when no search raises: the flag, the user dict and the
    messages of [loop_result]. *)
Lemma searches_loop_run chat ss : forall u c0 out,
  loop_returns inpa_search chat u ss = true ->
  searches_loop inpa_search chat u c0 ss out
  = (let '(c, u', sent) :=
       fold_left
         (fun '(changed, u, sent) s =>
            let '(c, u', sent') :=
              one_search_result inpa_search chat u s (sid_of s) in
            (changed || c, u', sent ++ sent'))
         ss (c0, u, []) in
     (inr (c, u'), out ++ sent)).
Proof.
  induction ss as [|s ss IH]; intros u c0 out Hr;
    cbn [searches_loop fold_left loop_returns] in *.
  - unfold ret. rewrite app_nil_r. reflexivity.
  - apply andb_true_iff in Hr. destruct Hr as [Hs Hl].
    unfold bind. rewrite (process_one_ok inpa_search chat u s (sid_of s) out Hs).
    destruct (one_search_result inpa_search chat u s (sid_of s))
      as [[c1 u1] sent1]. cbn [fst snd] in *.
    rewrite (IH u1 (c0 || c1) (out ++ sent1) Hl).
    replace ([] ++ sent1) with (sent1 ++ [])
      by (rewrite app_nil_r; reflexivity).
    rewrite loop_fold_shift.
    destruct (fold_left _ ss (c0 || c1, u1, [])) as [[c u'] sent].
    rewrite app_assoc. reflexivity.
Qed.

(** The loop, when a search raises: [TypeError], and no user dict. *)
Lemma searches_loop_raises chat ss : forall u c0 out,
  loop_returns inpa_search chat u ss = false ->
  exists out',
    searches_loop inpa_search chat u c0 ss out = (inl TypeError, out').
Proof.
  induction ss as [|s ss IH]; intros u c0 out Hr;
    cbn [searches_loop loop_returns] in *; [discriminate|].
  unfold bind. rewrite process_one_run.
  destruct (search_returns inpa_search u s (sid_of s)); cbn [andb] in Hr.
  - apply IH. assumption.
  - eexists. reflexivity.
Qed.

(** *** One user *)

Lemma process_user_ok cu w :
  user_returns inpa_search cu = true ->
  process_user inpa_search cu w = user_result inpa_search cu w.
Proof.
  destruct cu as [chat u]. unfold user_returns, process_user, user_result.
  destruct (is_nil (searches u)).
  - destruct (search u) as [legacy|]; [|reflexivity].
    intros Hr. unfold bind, on_outbox.
    rewrite (process_one_ok inpa_search chat u legacy "__legacy__"
               (outbox w) Hr).
    destruct (one_search_result _ _ _ _ _) as [[c u'] sent]. reflexivity.
  - intros Hr. unfold bind at 1. unfold on_outbox.
    rewrite (searches_loop_run chat (searches u) u false (outbox w) Hr).
    unfold loop_result.
    destruct (fold_left _ (searches u) (false, u, [])) as [[c u'] sent].
    cbn [fst snd]. unfold bind, tg_send_all. reflexivity.
Qed.

Lemma process_user_raises cu w :
  user_returns inpa_search cu = false ->
  exists out',
    process_user inpa_search cu w = (inl TypeError, mkWorld (store w) out').
Proof.
  destruct cu as [chat u]. unfold user_returns, process_user.
  destruct (is_nil (searches u)).
  - destruct (search u) as [legacy|]; [|discriminate].
    intros Hr. unfold bind, on_outbox. rewrite process_one_run, Hr.
    eexists. reflexivity.
  - intros Hr.
    destruct (searches_loop_raises chat (searches u) u false (outbox w) Hr)
      as [out' E].
    unfold bind, on_outbox. rewrite E. eexists. reflexivity.
Qed.

(** Nothing but the store can raise in the processing of a user whose
    searches raise nothing. *)
Lemma user_result_returns cu w :
  (forall chat u s, fst (set_user chat u s) = inr tt) ->
  fst (user_result inpa_search cu w) = inr tt.
Proof.
  intros Hs. destruct cu as [chat u]. unfold user_result.
  destruct (is_nil (searches u)).
  - destruct (search u) as [legacy|]; [|reflexivity].
    destruct (one_search_result _ _ _ _ _) as [[c u'] sent]. reflexivity.
  - destruct (loop_result _ _ _ _) as [[changed u'] sent].
    unfold bind, tg_send_all. destruct changed; [|reflexivity].
    unfold on_store. simpl.
    specialize (Hs chat u' (store w)).
    destruct (set_user chat u' (store w)) as [r s']. simpl in *.
    assumption.
Qed.

(** *** The users *)

Lemma run_users_ok us : forall w,
  (forall cu, In cu us -> user_returns inpa_search cu = true) ->
  run_users inpa_search us w = users_result inpa_search us w.
Proof.
  unfold run_users, users_result.
  induction us as [|cu us IH]; intros w Hr; cbn [for_each]; [reflexivity|].
  unfold bind. rewrite process_user_ok by (apply Hr; left; reflexivity).
  destruct (user_result inpa_search cu w) as [[e|[]] w1]; [reflexivity|].
  apply IH. intros cu' Hin. apply Hr. right. assumption.
Qed.

(** With a store that does not raise, the loop runs to its end exactly
    when no search of any user raises. *)
Lemma run_users_returns_iff us : forall w,
  (forall chat u s, fst (set_user chat u s) = inr tt) ->
  fst (run_users inpa_search us w) = inr tt
  <-> (forall cu, In cu us -> user_returns inpa_search cu = true).
Proof.
  unfold run_users.
  induction us as [|cu us IH]; intros w Hs; cbn [for_each].
  - split; [intros _ cu [] | reflexivity].
  - unfold bind. destruct (user_returns inpa_search cu) eqn:Hr.
    + rewrite process_user_ok by assumption.
      pose proof (user_result_returns cu w Hs) as Hp.
      destruct (user_result inpa_search cu w) as [[e|[]] w1]; simpl in Hp;
        [discriminate|].
      rewrite (IH w1 Hs). split.
      * intros Hall cu' [<-|Hin]; auto.
      * intros Hall cu' Hin. apply Hall. right. assumption.
    + destruct (process_user_raises cu w Hr) as [out' E]. rewrite E.
      simpl. split; [discriminate|].
      intros Hall. specialize (Hall cu (or_introl eq_refl)). congruence.
Qed.

End Cycle.

(** C3 (as amended). A catalog call that raises is caught where it is
    made.  Any exception that leaves the processing of a user leaves
    [run_once] too: the users before it have been processed, the users
    after it are not.  Such an exception comes from the commit to the
    store, or from the processing of a search outside the [try]: the sort
    of the merged items and [summarize_item] raise [TypeError] on a
    [null]; the user's seen ids are then not committed.  With a store
    that does not raise, the loop over the users runs to its end exactly
    when no search of any user raises. *)
Theorem C3_exception_ends_cycle {St : Type} `{StateAPI St}
  (inpa_search : Catalog) :
  (forall us1 cu us2 w w1 w2 e,
     run_users inpa_search us1 w = (inr tt, w1) ->
     process_user inpa_search cu w1 = (inl e, w2) ->
     run_users inpa_search (us1 ++ cu :: us2) w = (inl e, w2))
  /\ (forall cu w,
        user_returns inpa_search cu = false ->
        exists out',
          process_user inpa_search cu w
          = (inl TypeError, mkWorld (store w) out'))
  /\ ((forall chat u s, fst (set_user chat u s) = inr tt) ->
      forall us w,
        fst (run_users inpa_search us w) = inr tt
        <-> (forall cu, In cu us -> user_returns inpa_search cu = true)).
Proof.
  split; [|split].
  - intros. eapply run_users_raise; eauto.
  - intros cu w Hr. apply process_user_raises. assumption.
  - intros Hs us w. apply run_users_returns_iff. assumption.
Qed.

(** ** The legacy path *)

(** The SQLite store never returns a legacy search without searches:
    [search] is the last saved search. *)
Lemma sqlite_get_user_search chat c u c' :
  StateSqlite.get_user chat c = (inr u, c') ->
  searches u = [] -> search u = None.
Proof.
  unfold StateSqlite.get_user, _conn, _ensure_user, bind, query, ret.
  destruct (execute (sql_insert_user chat) c) as [[e|[]] c1];
    [discriminate|].
  intros E. inversion E; subst; clear E. simpl. intros ->. reflexivity.
Qed.

(** C1. A legacy user of the JSON store and a user with the equivalent
    saved search are notified of the same two items in the first cycle;
    the cycle of the legacy user leaves the store as it was, so the next
    cycle with the same catalog notifies the two items again, while the
    store of the other user holds the two ids and its next cycle sends
    nothing. *)
Theorem C1_legacy_seen_not_persisted :
  let legacy0 : JsonFile := [("42", Ex.legacy_user)] in
  let multi0 : JsonFile := [("42", Ex.multi_user)] in
  let legacy1 := Ex.cycle legacy0 in
  let multi1 := Ex.cycle multi0 in
  notified (outbox legacy1) = [Ex.a2; Ex.a1]
  /\ notified (outbox multi1) = [Ex.a2; Ex.a1]
  /\ store legacy1 = legacy0
  /\ option_map seen_ids_map (dict_get "42" (store multi1))
     = Some [("s1", ["A2"; "A1"])]
  /\ notified (outbox (Ex.cycle (store legacy1))) = [Ex.a2; Ex.a1]
  /\ outbox (Ex.cycle (store multi1)) = [].
Proof. vm_compute. repeat split; reflexivity. Qed.

(** ** Concrete instances *)

(** C2, the claim as stated fails.  The call that follows the deletion
    of [s1] raises [IntegrityError] at the seen rows of [s1], after the
    deletion has been committed and before [A2] is recorded for [s2]:
    the stored state is neither the old one nor the whole update.  An
    edit of [s1] interrupted at its fifth statement leaves [s1] with one
    filter row, where it had two and was to have two others. *)
Lemma C2_counterexample :
  let r := StateSqlite.set_user "1" Ex.after_delete (mkConn Ex.db1 None) in
  let r' := StateSqlite.set_user "1" Ex.edited (mkConn Ex.db1 (Some 4)) in
  let filters_s1 d :=
    filter (fun f => fr_search_id f =? "s1") (search_filters d) in
  (fst r = inl IntegrityError
   /\ has_search Ex.db1 "s1" = true
   /\ has_search (db (snd r)) "s1" = false
   /\ has_pair ("s2", "A2") (seen_items (db (snd r))) = false)
  /\ (fst r' = inl OperationalError
      /\ filters_s1 Ex.db1
         = [mkFilterRow "s1" category "C1" "Concorsi";
            mkFilterRow "s1" region "R12" "Lazio"]
      /\ filters_s1 (db (snd r')) = [mkFilterRow "s1" category "C1" "Concorsi"]
      /\ filters_s1
           (db (snd (StateSqlite.set_user "1" Ex.edited (mkConn Ex.db1 None))))
         = [mkFilterRow "s1" category "C1" "Concorsi";
            mkFilterRow "s1" category "C2" "Mobilita"]).
Proof. vm_compute. repeat split; reflexivity. Qed.

Lemma C2_witness :
  fk_ok Ex.db1 = true
  /\ fk_ok (db (snd (StateSqlite.set_user "1" Ex.edited
                       (mkConn Ex.db1 (Some 4))))) = true.
Proof.
  split; [reflexivity|].
  apply (proj2 (C2_set_user_statementwise "1" Ex.edited Ex.db1 (Some 4))).
  reflexivity.
Defined.

(** C3, the claim as stated fails.  When the third statement of the cycle,
    the first of the commit of user [1], raises, [run_once] ends with that
    exception: user [2], whose search has two new items, gets no message
    and no seen row, where the same cycle without the exception gives
    both.  The same happens without any fault of the store when an
    answer for the search of user [1] holds an item whose list of places
    is [null]: [summarize_item] raises [TypeError] and user [2] is not
    processed. *)
Lemma C3_counterexample :
  let r := run_once Ex.catalog (mkWorld (mkConn Ex.db2 (Some 2)) []) in
  let ok := run_once Ex.catalog (mkWorld (mkConn Ex.db2 None) []) in
  let r' := run_once Ex2.catalog_mixed (mkWorld (mkConn Ex.db2 None) []) in
  let for2 (w : World Conn) := filter (fun m => fst m =? "2") (outbox w) in
  (fst r = inl OperationalError
   /\ for2 (snd r) = []
   /\ seen_items (db (store (snd r))) = []
   /\ notified (for2 (snd ok)) = [Ex.a2; Ex.a1]
   /\ filter (fun p => fst p =? "s2") (seen_items (db (store (snd ok))))
      = [("s2", "A2"); ("s2", "A1")])
  /\ (fst r' = inl TypeError
      /\ for2 (snd r') = []
      /\ seen_items (db (store (snd r'))) = []).
Proof. vm_compute. repeat split; reflexivity. Qed.

Lemma C3_witness :
  let w := mkWorld (mkConn Ex.db2 (Some 0)) [] in
  let w2 := snd (process_user Ex.catalog ("1", Ex.user1) w) in
  let j := mkWorld ([("42", Ex.multi_user)] : JsonFile) [] in
  (run_users Ex.catalog [] w = (inr tt, w)
   /\ process_user Ex.catalog ("1", Ex.user1) w = (inl OperationalError, w2)
   /\ run_users Ex.catalog ([] ++ ("1", Ex.user1) :: [("2", Ex.user2)]) w
      = (inl OperationalError, w2))
  /\ (user_returns Ex2.catalog_undated ("42", Ex.multi_user) = false
      /\ exists out',
           process_user Ex2.catalog_undated ("42", Ex.multi_user) j
           = (inl TypeError, mkWorld (store j) out'))
  /\ ((forall chat u (s : JsonFile), fst (set_user chat u s) = inr tt)
      /\ (fst (run_users Ex.catalog [("42", Ex.multi_user)]
                 (mkWorld ([] : JsonFile) [])) = inr tt
          <-> (forall cu, In cu [("42", Ex.multi_user)] ->
                          user_returns Ex.catalog cu = true))).
Proof.
  cbv zeta. split; [|split].
  - assert (H1 : run_users Ex.catalog []
                   (mkWorld (mkConn Ex.db2 (Some 0)) [])
                 = (inr tt, mkWorld (mkConn Ex.db2 (Some 0)) []))
      by reflexivity.
    assert (H2 : process_user Ex.catalog ("1", Ex.user1)
                   (mkWorld (mkConn Ex.db2 (Some 0)) [])
                 = (inl OperationalError,
                    snd (process_user Ex.catalog ("1", Ex.user1)
                           (mkWorld (mkConn Ex.db2 (Some 0)) []))))
      by (vm_compute; reflexivity).
    split; [exact H1|]. split; [exact H2|].
    exact (proj1 (C3_exception_ends_cycle Ex.catalog)
             [] ("1", Ex.user1) [("2", Ex.user2)] _ _ _ _ H1 H2).
  - assert (H : user_returns Ex2.catalog_undated ("42", Ex.multi_user)
                = false) by reflexivity.
    split; [exact H|].
    exact (proj1 (proj2 (C3_exception_ends_cycle Ex2.catalog_undated))
             ("42", Ex.multi_user)
             (mkWorld ([("42", Ex.multi_user)] : JsonFile) []) H).
  - assert (H : forall chat u (s : JsonFile),
               fst (set_user chat u s) = inr tt)
      by (intros; reflexivity).
    split; [exact H|].
    exact (proj2 (proj2 (C3_exception_ends_cycle Ex.catalog)) H
             [("42", Ex.multi_user)] (mkWorld ([] : JsonFile) [])).
Defined.

Lemma C4_witness :
  let q := mkPayload "bibliotec" "C2" None (Some "S7") in
  length (_iter_payloads (search_dict Ex2.two_cats)) = 2
  /\ _build_payloads_from_search (search_dict Ex2.two_cats)
     = _iter_payloads (search_dict Ex2.two_cats)
  /\ In q (_iter_payloads (search_dict Ex2.two_cats))
  /\ ~ In (mkPayload "bibliotec" "C2" (Some "R12") (Some "S7"))
         (_iter_payloads (search_dict Ex2.two_cats)).
Proof.
  cbv zeta.
  destruct (C4_expander_count Ex2.two_cats) as (H1 & H2 & H3 & _).
  split; [exact H1|]. split; [exact H2|]. split.
  - apply H3. simpl. split; [reflexivity|].
    split; [exists Ex.c2; auto|]. split; [reflexivity|].
    exists (mkFilt "S7" "Istruzione"). auto.
  - intros Hin. apply H3 in Hin. simpl in Hin.
    destruct Hin as (_ & _ & Hr & _). discriminate Hr.
Defined.

Lemma C5_witness :
  let payloads := _iter_payloads (search_dict Ex.three) in
  truthy "A2" = true
  /\ existsb (has_id "A2") (all_items Ex.catalog3 payloads) = true
  /\ length (filter (has_id "A2") (merged (aggregate Ex.catalog3 payloads)))
     = 1
  /\ find (has_id "A2") (merged (aggregate Ex.catalog3 payloads))
     = find (has_id "A2") (all_items Ex.catalog3 payloads).
Proof.
  cbv zeta. split; [reflexivity|]. split; [reflexivity|].
  exact (proj1 (C5_merge_first_seen_wins Ex.catalog3
                  (_iter_payloads (search_dict Ex.three)))
           "A2" eq_refl eq_refl).
Defined.

Lemma C6_witness :
  merged_sort [Ex.a3; Ex.a1; Ex.empty_id; Ex.a2]
  = inr ([Ex.empty_id; Ex.a2; Ex.a1] ++ Ex.a3 :: [])
  /\ dataPubblicazione Ex.a3 = Absent
  /\ date_key Ex.a3 = EmptyString
  /\ Forall (fun b => date_key b = EmptyString) [].
Proof.
  assert (H : merged_sort [Ex.a3; Ex.a1; Ex.empty_id; Ex.a2]
              = inr ([Ex.empty_id; Ex.a2; Ex.a1] ++ Ex.a3 :: []))
    by reflexivity.
  split; [exact H|]. split; [reflexivity|].
  exact (proj2 (proj2 (proj2
           (proj1 (proj2
              (C6_null_date_breaks_sort
                 [Ex.a3; Ex.a1; Ex.empty_id; Ex.a2])) _ H)))
           [Ex.empty_id; Ex.a2; Ex.a1] Ex.a3 [] eq_refl eq_refl).
Defined.

Lemma C9_witness :
  let r := mkSearchRow "s1" "1" "bibliotec" (Some "bibliotec") in
  In r (searches_t Ex.db1)
  /\ r_chat_id r = "1"
  /\ ~ In (r_id r) (map s_id (searches Ex.after_delete))
  /\ gone (r_id r)
       (db (snd (StateSqlite.set_user "1" Ex.after_delete (mkConn Ex.db1 None))))
     = true.
Proof.
  cbv zeta.
  assert (H1 : In (mkSearchRow "s1" "1" "bibliotec" (Some "bibliotec"))
                 (searches_t Ex.db1)) by (left; reflexivity).
  assert (H3 : ~ In "s1" (map s_id (searches Ex.after_delete)))
    by (simpl; intros [E|[]]; discriminate E).
  split; [exact H1|]. split; [reflexivity|]. split; [exact H3|].
  exact (C9_omitted_search_cascades Ex.after_delete Ex.db1 _ H1 eq_refl H3).
Defined.

Lemma C10_witness :
  let u' := mkUser (searches Ex.user3) (search Ex.user3)
              [("s3", ["A1"; "A2"; "A3"])] [] in
  fst (_process_one_search Ex.catalog3 "1" Ex.user3 (search_dict Ex.three)
         "s3" []) = inr (true, u')
  /\ In "A2" (get_list "s3" (seen_ids_map u'))
  /\ (In "A2" (get_list "s3" (seen_ids_map Ex.user3)) \/ truthy "A2" = true).
Proof.
  cbv zeta.
  assert (E : fst (_process_one_search Ex.catalog3 "1" Ex.user3
                     (search_dict Ex.three) "s3" [])
              = inr (true,
                     mkUser (searches Ex.user3) (search Ex.user3)
                       [("s3", ["A1"; "A2"; "A3"])] []))
    by (vm_compute; reflexivity).
  assert (H : In "A2"
                (get_list "s3"
                   (seen_ids_map
                      (mkUser (searches Ex.user3) (search Ex.user3)
                         [("s3", ["A1"; "A2"; "A3"])] []))))
    by (vm_compute; auto).
  split; [exact E|]. split; [exact H|].
  exact (proj2 (proj2 (proj2
           (C10_invalid_ids_dropped Ex.catalog3 "1" Ex.user3
              (search_dict Ex.three) "s3" [])) _ _ E) "s3" "A2" H).
Defined.

Lemma C7_witness :
  let r := (true,
            mkUser (searches Ex.user3) (search Ex.user3)
              [("s3", ["A1"; "A2"; "A3"])] []) in
  let sent := [("1", MsgNewItem (Some "three") Ex.a2);
               ("1", MsgNewItem (Some "three") Ex.a3)] in
  _process_one_search Ex.catalog3 "1" Ex.user3 (search_dict Ex.three)
    "s3" [] = (inr r, sent)
  /\ exists sorted sent',
       merged_sort
         (merged (aggregate Ex.catalog3
                    (_iter_payloads (search_dict Ex.three))))
       = inr sorted
       /\ sent = [] ++ sent'
       /\ notified sent' = diff (seen_for Ex.user3 "s3") sorted.
Proof.
  cbv zeta.
  assert (E : _process_one_search Ex.catalog3 "1" Ex.user3
                (search_dict Ex.three) "s3" []
              = (inr (true,
                      mkUser (searches Ex.user3) (search Ex.user3)
                        [("s3", ["A1"; "A2"; "A3"])] []),
                 [("1", MsgNewItem (Some "three") Ex.a2);
                  ("1", MsgNewItem (Some "three") Ex.a3)]))
    by (vm_compute; reflexivity).
  split; [exact E|].
  exact (proj1 (proj2 (proj2 (C7_diff_exact [] [])))
           Ex.catalog3 "1" Ex.user3 (search_dict Ex.three) "s3" [] _ _ E).
Defined.

(** * Further properties *)

(** ** The failure notice and the second run of a search *)

Section OneSearchMore.

Variable inpa_search : Catalog.

Lemma first_seen_nil_iff l : forall seen,
  (forall i, In i seen -> truthy i = true -> False) \/ seen = [] ->
  first_seen seen l = [] <-> Forall (fun it => valid_id it = false) l.
Proof.
  induction l as [|a l IH]; intros seen Hs; simpl.
  - split; auto.
  - unfold valid_id at 1. destruct (it_id a) as [i|] eqn:Ei.
    + destruct (truthy i) eqn:Et; simpl.
      * assert (Hm : mem i seen = false).
        { apply mem_false. intros Hin. destruct Hs as [Hs| ->];
            [eapply Hs; eauto | destruct Hin]. }
        rewrite Hm. simpl. split; [discriminate|].
        intros H. inversion H; subst. unfold valid_id in *.
        rewrite Ei in *. congruence.
      * rewrite IH by assumption. split; intros H.
        -- constructor; [unfold valid_id; rewrite Ei; assumption | assumption].
        -- inversion H; assumption.
    + rewrite IH by assumption. split; intros H.
      * constructor; [unfold valid_id; rewrite Ei; reflexivity | assumption].
      * inversion H; assumption.
Qed.

Lemma merged_nil_iff ps :
  merged (aggregate inpa_search ps) = []
  <-> Forall (fun it => valid_id it = false) (all_items inpa_search ps).
Proof.
  rewrite aggregate_first_seen. simpl. apply first_seen_nil_iff. auto.
Qed.

Lemma failures_nil : failures inpa_search [] = 0.
Proof. reflexivity. Qed.

Lemma is_nil_false {A} (l : list A) : is_nil l = false <-> l <> [].
Proof. destruct l; simpl; split; congruence. Qed.

Lemma diff_all_seen seen items :
  (forall it, In it items -> unseen seen it = false) -> diff seen items = [].
Proof.
  intros H. unfold diff. induction items as [|a l IH]; simpl; [reflexivity|].
  rewrite H by (left; reflexivity). apply IH. intros it Hin. apply H.
  right. assumption.
Qed.

Lemma seen_for_record u lid new :
  seen_for (record_seen u lid new) lid
  = commit (seen_for u lid) (ids_of new).
Proof.
  unfold seen_for, record_seen.
  destruct (is_nil (searches u)) eqn:E; simpl; rewrite E; [reflexivity|].
  rewrite get_list_set, String.eqb_refl. reflexivity.
Qed.

Lemma new_items_after_record u cfg lid :
  new_items_of inpa_search
    (record_seen u lid (new_items_of inpa_search u cfg lid)) cfg lid = [].
Proof.
  unfold new_items_of at 1. rewrite seen_for_record.
  apply diff_all_seen. intros it Hin.
  assert (Hv : valid_id it = true).
  { pose proof (merged_valid inpa_search (_iter_payloads cfg)) as Hv.
    rewrite Forall_forall in Hv. apply Hv.
    apply (Permutation_in _ (Permutation_sym (sort_desc_perm _))).
    assumption. }
  unfold valid_id in Hv. unfold unseen.
  destruct (it_id it) as [i|] eqn:Ei; [|discriminate].
  apply negb_false_iff, mem_In, commit_In.
  destruct (mem i (seen_for u lid)) eqn:Em; [left; apply mem_In; assumption|].
  right. apply In_ids_of. exists it. split; [|assumption].
  unfold new_items_of, diff. apply filter_In. split; [assumption|].
  unfold unseen. rewrite Ei, Em. reflexivity.
Qed.

End OneSearchMore.

Section Notice.

Variable inpa_search : Catalog.

Lemma search_returns_none u cfg lid :
  merged (aggregate inpa_search (_iter_payloads cfg)) = [] ->
  search_returns inpa_search u cfg lid = true.
Proof.
  intros Hm. unfold search_returns.
  rewrite (new_items_none inpa_search u cfg lid Hm), Hm. reflexivity.
Qed.

Lemma one_search_notice chat u cfg lid :
  let payloads := _iter_payloads cfg in
  let r := one_search_result inpa_search chat u cfg lid in
  (Forall (fun it => valid_id it = false) (all_items inpa_search payloads) ->
   0 < failures inpa_search payloads ->
   r = (false, u,
        [(chat, MsgCheckFailed (_label cfg)
                  (failures inpa_search payloads))]))
  /\ ((exists it, In it (all_items inpa_search payloads)
                  /\ valid_id it = true)
      \/ failures inpa_search payloads = 0 ->
      forall m, In m (snd r) -> exists h it, m = (chat, MsgNewItem h it)).
Proof.
  cbv zeta. unfold one_search_result.
  pose proof (merged_nil_iff inpa_search (_iter_payloads cfg)) as Hm.
  pose proof (aggregate_first_seen inpa_search (_iter_payloads cfg)) as Ha.
  split.
  - intros Hinv Hf.
    destruct (is_nil (_iter_payloads cfg)) eqn:Ep.
    { apply is_nil_true in Ep. rewrite Ep in Hf. unfold failures in Hf.
      simpl in Hf. lia. }
    apply Hm in Hinv. rewrite Hinv. simpl.
    rewrite Ha. simpl. rewrite Ha in Hinv. simpl in Hinv. rewrite Hinv.
    simpl. apply Nat.ltb_lt in Hf. rewrite Hf. reflexivity.
  - intros Hc m.
    destruct (is_nil (_iter_payloads cfg)) eqn:Ep; [intros []|].
    destruct (is_nil (merged (aggregate inpa_search (_iter_payloads cfg))))
      eqn:Em.
    + apply is_nil_true in Em. apply Hm in Em.
      destruct Hc as [(it & Hin & Hv)|Hz].
      * rewrite Forall_forall in Em. apply Em in Hin. congruence.
      * rewrite Ha. simpl. rewrite Hz. simpl. intros [].
    + destruct (is_nil (new_items_of inpa_search u cfg lid)); [intros []|].
      unfold new_item_msgs. simpl. rewrite in_map_iff.
      intros (it & <- & _). eauto.
Qed.

End Notice.

(** X1. [_process_one_search] sends the failure notice exactly when at
    least one call raised and no call returned an item with a valid id;
    the notice is then its only message, it carries the label and the
    number of failed calls, the call returns [False] and the user dict is
    left as it was.  In every other case all its messages are new-item
    messages, whether it returns or raises. *)
Theorem X1_failure_notice (inpa_search : Catalog) (chat_id : string)
  (u : User) (search_cfg : Search) (legacy_id : string) (out : Outbox) :
  let payloads := _iter_payloads search_cfg in
  let r := _process_one_search inpa_search chat_id u search_cfg legacy_id
             out in
  (Forall (fun it => valid_id it = false) (all_items inpa_search payloads) ->
   0 < failures inpa_search payloads ->
   r = (inr (false, u),
        out ++ [(chat_id, MsgCheckFailed (_label search_cfg)
                            (failures inpa_search payloads))]))
  /\ ((exists it, In it (all_items inpa_search payloads)
                  /\ valid_id it = true)
      \/ failures inpa_search payloads = 0 ->
      exists sent,
        snd r = out ++ sent
        /\ forall m, In m sent ->
                     exists h it, m = (chat_id, MsgNewItem h it)).
Proof.
  cbv zeta.
  destruct (one_search_notice inpa_search chat_id u search_cfg legacy_id)
    as [H1 H2].
  split.
  - intros Hinv Hf.
    rewrite process_one_ok.
    + rewrite (H1 Hinv Hf). reflexivity.
    + apply search_returns_none. apply merged_nil_iff. assumption.
  - intros Hc.
    destruct (_process_one_search inpa_search chat_id u search_cfg
                legacy_id out) as [res out'] eqn:E.
    apply process_one_cases in E. cbn [snd].
    destruct E as [(_ & _ & ->)|(_ & _ & part & rest & -> & _)].
    + eexists. split; [reflexivity|]. apply H2. assumption.
    + eexists. split; [reflexivity|]. unfold new_item_msgs.
      intros m Hm. apply in_map_iff in Hm. destruct Hm as (it & <- & _).
      eauto.
Qed.

(** X2. Running [_process_one_search] again, with the same catalog, on the
    user dict that a first run returned finds no new item: it returns
    [False], notifies nothing and leaves the dict as it is. *)
Theorem X2_second_run_quiet (inpa_search : Catalog) (chat_id : string)
  (u : User) (search_cfg : Search) (legacy_id : string)
  (out out1 : Outbox) (c : bool) (u' : User) :
  _process_one_search inpa_search chat_id u search_cfg legacy_id out
  = (inr (c, u'), out1) ->
  forall out2,
  exists sent,
    _process_one_search inpa_search chat_id u' search_cfg legacy_id out2
    = (inr (false, u'), out2 ++ sent)
    /\ notified sent = [].
Proof.
  intros E out2. apply process_one_returns in E.
  destruct E as (Hr & Er & _).
  destruct (process_one_spec inpa_search chat_id u search_cfg legacy_id)
    as (_ & _ & Hu).
  assert (Eu : u' = snd (fst (one_search_result inpa_search chat_id u
                                search_cfg legacy_id)))
    by (rewrite <- Er; reflexivity).
  rewrite Hu in Eu.
  assert (Hn : new_items_of inpa_search u' search_cfg legacy_id = []).
  { rewrite Eu.
    destruct (is_nil (new_items_of inpa_search u search_cfg legacy_id))
      eqn:En.
    - apply is_nil_true. assumption.
    - apply new_items_after_record. }
  assert (Hr' : search_returns inpa_search u' search_cfg legacy_id = true).
  { rewrite quiet_returns by assumption.
    unfold search_returns in Hr. apply andb_true_iff in Hr. tauto. }
  destruct (process_one_spec inpa_search chat_id u' search_cfg legacy_id)
    as (H1 & H2 & H3).
  rewrite Hn in H1, H2, H3. simpl in H2, H3.
  exists (snd (one_search_result inpa_search chat_id u' search_cfg
                 legacy_id)).
  split; [|exact H1].
  rewrite process_one_ok by assumption.
  destruct (one_search_result inpa_search chat_id u' search_cfg legacy_id)
    as [[c2 u2] sent2]. simpl in *. subst. reflexivity.
Qed.

Lemma X2_witness :
  let u' := mkUser (searches Ex.user3) (search Ex.user3)
              [("s3", ["A1"; "A2"; "A3"])] [] in
  let sent := [("1", MsgNewItem (Some "three") Ex.a2);
               ("1", MsgNewItem (Some "three") Ex.a3)] in
  _process_one_search Ex.catalog3 "1" Ex.user3 (search_dict Ex.three)
    "s3" [] = (inr (true, u'), sent)
  /\ exists sent2,
       _process_one_search Ex.catalog3 "1" u' (search_dict Ex.three)
         "s3" sent = (inr (false, u'), sent ++ sent2)
       /\ notified sent2 = [].
Proof.
  cbv zeta.
  assert (E : _process_one_search Ex.catalog3 "1" Ex.user3
                (search_dict Ex.three) "s3" []
              = (inr (true,
                      mkUser (searches Ex.user3) (search Ex.user3)
                        [("s3", ["A1"; "A2"; "A3"])] []),
                 [("1", MsgNewItem (Some "three") Ex.a2);
                  ("1", MsgNewItem (Some "three") Ex.a3)]))
    by (vm_compute; reflexivity).
  split; [exact E|].
  exact (@X2_second_run_quiet Ex.catalog3 "1" Ex.user3
           (search_dict Ex.three) "s3" [] _ _ _ E _).
Defined.

(** ** Labels and truncation *)

Section Labels.

Lemma length_append (a b : string) :
  String.length (a ++ b)%string = String.length a + String.length b.
Proof. induction a as [|c a IH]; simpl; [reflexivity | rewrite IH; reflexivity]. Qed.

Lemma length_substring_le n m s : String.length (String.substring n m s) <= m.
Proof.
  revert n m. induction s as [|c s IH]; intros n m.
  - destruct n, m; simpl; lia.
  - destruct n as [|n]; simpl.
    + destruct m as [|m]; simpl; [lia|]. specialize (IH 0 m). lia.
    + apply IH.
Qed.

Lemma length_substring_prefix m s :
  m <= String.length s -> String.length (String.substring 0 m s) = m.
Proof.
  revert m. induction s as [|c s IH]; intros m Hm; simpl in *.
  - assert (m = 0) by lia. subst. reflexivity.
  - destruct m as [|m]; simpl; [reflexivity|]. rewrite IH; lia.
Qed.

Lemma substring_all s : String.substring 0 (String.length s) s = s.
Proof. induction s as [|c s IH]; simpl; [reflexivity | rewrite IH; reflexivity]. Qed.

Lemma append_assoc (a b c : string) :
  ((a ++ b) ++ c)%string = (a ++ (b ++ c))%string.
Proof. induction a as [|x a IH]; simpl; [reflexivity | rewrite IH; reflexivity]. Qed.

(** The cut that both label functions apply. *)
Lemma label_cut_bound s :
  String.length (if Nat.ltb 65 (String.length s)
                 then (String.substring 0 64 s ++ ellipsis)%string else s)
  <= 65.
Proof.
  destruct (Nat.ltb 65 (String.length s)) eqn:E.
  - rewrite length_append. pose proof (length_substring_le 0 64 s).
    simpl. lia.
  - apply Nat.ltb_ge in E. assumption.
Qed.

Lemma names_truthy l :
  Forall (fun f => f_name f <> EmptyString) l -> l <> [] ->
  truthy (names l) = true.
Proof.
  intros Hn Hl. unfold names, truthy. apply negb_true_iff, String.eqb_neq.
  destruct l as [|a l]; [congruence|]. inversion Hn; subst.
  simpl. destruct (f_name a) as [|c n] eqn:Ea; [congruence|].
  destruct (map f_name l); simpl; discriminate.
Qed.

Lemma names_fmt l e : l <> [] -> _fmt_names l e = names l.
Proof. destruct l; [congruence | reflexivity]. Qed.

Lemma label_join T C R S (hr hs : bool) :
  truthy T = true -> truthy C = true -> truthy R = hr -> truthy S = hs ->
  String.concat label_sep
    (filter truthy ([T; C] ++ (if hr then [R] else [])
                      ++ (if hs then [S] else [])))
  = (let base := (T ++ label_sep ++ C)%string in
     let tail := (if hr then [R] else []) ++ (if hs then [S] else []) in
     if is_nil tail then base
     else (base ++ label_sep ++ String.concat label_sep tail)%string).
Proof.
  intros ET EC ER ES.
  destruct hr, hs; cbn [app filter]; rewrite ET, EC, ?ER, ?ES;
    cbn [String.concat is_nil]; rewrite ?append_assoc; reflexivity.
Qed.

End Labels.

(** X3. [_label] returns the stored label when there is a non-empty one;
    otherwise the label it computes has at most 65 characters. *)
Theorem X3_label_stored_or_bounded (search_cfg : Search) :
  (forall l, s_label search_cfg = Some l -> l <> EmptyString ->
             _label search_cfg = l)
  /\ ((s_label search_cfg = None \/ s_label search_cfg = Some EmptyString) ->
      String.length (_label search_cfg) <= 65).
Proof.
  unfold _label. split.
  - intros l -> Hl. unfold truthy.
    apply String.eqb_neq in Hl. rewrite Hl. reflexivity.
  - intros [-> | ->]; simpl; apply label_cut_bound.
Qed.

(** X4. The label that [_compute_label] builds at creation has at most 65
    characters, and for a search with a non-empty text, at least one
    category and no empty filter name it is the label that the poller's
    [_label] computes when none is stored. *)
Theorem X4_compute_label (cfg : Search) :
  String.length (_compute_label cfg) <= 65
  /\ (s_label cfg = None ->
      s_text cfg <> EmptyString ->
      categorie cfg <> [] ->
      Forall (fun f => f_name f <> EmptyString)
        (categorie cfg ++ regioni cfg ++ settori cfg) ->
      _label cfg = _compute_label cfg).
Proof.
  split; [apply label_cut_bound|].
  intros Hl Ht Hc Hn.
  apply Forall_app in Hn. destruct Hn as [Hnc Hn].
  apply Forall_app in Hn. destruct Hn as [Hnr Hns].
  assert (Et : truthy (s_text cfg) = true)
    by (apply negb_true_iff, String.eqb_neq; assumption).
  pose proof (names_truthy Hnc Hc) as Ec.
  assert (Hr : truthy (names (regioni cfg)) = negb (is_nil (regioni cfg))).
  { destruct (regioni cfg) as [|r rs]; [reflexivity|].
    apply names_truthy; [assumption | discriminate]. }
  assert (Hx : truthy (names (settori cfg)) = negb (is_nil (settori cfg))).
  { destruct (settori cfg) as [|x xs]; [reflexivity|].
    apply names_truthy; [assumption | discriminate]. }
  assert (Fr : (if is_nil (regioni cfg) then []
                else [_fmt_names (regioni cfg) "tutte le regioni"])
               = if negb (is_nil (regioni cfg))
                 then [names (regioni cfg)] else [])
    by (destruct (regioni cfg); reflexivity).
  assert (Fx : (if is_nil (settori cfg) then []
                else [_fmt_names (settori cfg) "tutti i settori"])
               = if negb (is_nil (settori cfg))
                 then [names (settori cfg)] else [])
    by (destruct (settori cfg); reflexivity).
  unfold _label, _compute_label. rewrite Hl.
  cbv zeta. rewrite Ec, (names_fmt _ Hc), Fr, Fx, Hr, Hx.
  fold label_sep.
  rewrite (label_join (s_text cfg) (names (categorie cfg))
             (names (regioni cfg)) (names (settori cfg)) Et Ec Hr Hx).
  reflexivity.
Qed.

(** X5. For a positive limit [truncate] returns at most [limit]
    characters: the text itself when it fits, and otherwise its first
    [limit - 1] characters followed by the ellipsis, [limit] characters in
    all. *)
Theorem X5_truncate_bound (s : string) (limit : nat) :
  0 < limit ->
  String.length (truncate s limit) <= limit
  /\ (String.length s <= limit -> truncate s limit = s)
  /\ (limit < String.length s ->
      String.length (truncate s limit) = limit
      /\ truncate s limit
         = (String.substring 0 (limit - 1) s ++ ellipsis)%string).
Proof.
  intros Hl. unfold truncate.
  destruct (Nat.leb (String.length s) limit) eqn:E.
  - apply Nat.leb_le in E. split; [assumption|]. split; [reflexivity | lia].
  - apply Nat.leb_gt in E. destruct limit as [|n]; [lia|].
    rewrite length_append, length_substring_prefix by lia. simpl.
    rewrite Nat.sub_0_r.
    split; [lia|]. split; [lia|]. intros _. split; [lia | reflexivity].
Qed.

(** ** The selection of the wizard *)

Section Toggle.

Lemma index_of_none id lst :
  index_of id lst = None <-> ~ In id (map f_id lst).
Proof.
  induction lst as [|e r IH]; simpl; [tauto|].
  destruct (f_id e =? id) eqn:E.
  - apply String.eqb_eq in E. split; [discriminate | tauto].
  - apply String.eqb_neq in E.
    destruct (index_of id r); simpl in *.
    + split; [discriminate|]. intros H. exfalso.
      assert (Hr : ~ In id (map f_id r)) by tauto.
      apply IH in Hr. discriminate.
    + split; [|reflexivity]. intros _ [H|H]; [auto|].
      apply (proj1 IH eq_refl). assumption.
Qed.

(** The entry that [pop] removes is the first one with the id. *)
Lemma index_of_some id lst n :
  index_of id lst = Some n ->
  exists l1 e l2,
    lst = l1 ++ e :: l2 /\ f_id e = id /\ ~ In id (map f_id l1)
    /\ pop n lst = l1 ++ l2.
Proof.
  revert n. induction lst as [|e r IH]; intros n; simpl; [discriminate|].
  destruct (f_id e =? id) eqn:E.
  - apply String.eqb_eq in E. intros H. inversion H; subst.
    exists [], e, r. simpl. auto.
  - apply String.eqb_neq in E.
    destruct (index_of id r) as [m|]; simpl; [|discriminate].
    intros H. inversion H; subst.
    destruct (IH m eq_refl) as (l1 & e' & l2 & -> & He & Hn & Hp).
    exists (e :: l1), e', l2. simpl. rewrite Hp.
    repeat split; auto. intros [H1|H1]; auto.
Qed.

End Toggle.

(** X6. On a selection whose ids are pairwise distinct, [_toggle] returns
    [True] exactly when the id was not selected, and afterwards the id is
    selected exactly when it was not before; the ids stay pairwise
    distinct and the entries with another id are the same as before.  A
    new entry goes last; a removal takes out the entry with that id and
    keeps the others in place. *)
Theorem X6_toggle_flips (lst : list Filt) (item : Filt) :
  NoDup (map f_id lst) ->
  let lst' := fst (_toggle lst item) in
  let added := snd (_toggle lst item) in
  added = negb (mem (f_id item) (map f_id lst))
  /\ mem (f_id item) (map f_id lst') = added
  /\ NoDup (map f_id lst')
  /\ (forall e, f_id e <> f_id item -> (In e lst' <-> In e lst))
  /\ (if added then lst' = lst ++ [item] else subseq lst' lst).
Proof.
  intros Hnd. cbv zeta. unfold _toggle.
  destruct (index_of (f_id item) lst) as [n|] eqn:Ei; simpl.
  - destruct (index_of_some _ _ Ei) as (l1 & e & l2 & -> & He & Hn & ->).
    rewrite map_app in Hnd. simpl in Hnd.
    pose proof (NoDup_remove_1 _ _ _ Hnd) as Hnd'.
    pose proof (NoDup_remove_2 _ _ _ Hnd) as Hni.
    rewrite <- map_app in Hnd', Hni. rewrite He in Hni.
    split; [|split; [|split; [assumption|split]]].
    + symmetry. apply negb_false_iff, mem_In.
      rewrite map_app. apply in_or_app. right. left. assumption.
    + apply mem_false. assumption.
    + intros x Hx. rewrite !in_app_iff. simpl.
      split; [tauto|]. intros [H|[H|H]]; auto. subst. congruence.
    + clear. induction l1 as [|a l1 IH]; simpl.
      * apply subseq_skip. clear.
        induction l2 as [|b l2 IH]; [apply subseq_nil|].
        apply subseq_keep. assumption.
      * apply subseq_keep. assumption.
  - pose proof (proj1 (index_of_none _ _) Ei) as Hn.
    split; [|split; [|split; [|split]]].
    + symmetry. apply negb_true_iff, mem_false. assumption.
    + apply mem_In. rewrite map_app. apply in_or_app. right. left.
      reflexivity.
    + rewrite map_app. simpl. apply NoDup_app; [assumption | | ].
      * repeat constructor. simpl. tauto.
      * intros x Hx [<-|[]]. contradiction.
    + intros x Hx. rewrite in_app_iff. simpl.
      split; [|tauto]. intros [H|[H|[]]]; auto. subst. congruence.
    + reflexivity.
Qed.

(** ** The two payload builders *)


(** X7. For a search with at least one category, or without the legacy
    field [categoria], the payloads that [/test] sends
    ([_build_payloads_from_search]) are the payloads of the poller
    ([_iter_payloads]), in the same order.  For a legacy search, which has
    [categoria] only, the handlers build no payload while the poller
    builds one per region and sector combination. *)
Theorem X7_builders_agree (cfg : Search) :
  (categorie cfg <> [] \/ categoria cfg = None ->
   _iter_payloads cfg = _build_payloads_from_search cfg)
  /\ (categorie cfg = [] -> categoria cfg <> None ->
      _build_payloads_from_search cfg = []
      /\ length (_iter_payloads cfg)
         = Nat.max (length (regioni cfg)) 1
           * Nat.max (length (settori cfg)) 1).
Proof.
  split.
  - intros [Hc|Hn]; [apply builders_agree_cats; assumption|].
    destruct (categorie cfg) as [|c cs] eqn:E;
      [|apply builders_agree_cats; congruence].
    assert (Hb : _build_payloads_from_search cfg = []).
    { apply length_zero_iff_nil. rewrite build_payloads_length, E.
      reflexivity. }
    rewrite Hb. unfold _iter_payloads. rewrite E, Hn. reflexivity.
  - intros E Hn. split.
    + apply length_zero_iff_nil. rewrite build_payloads_length, E.
      reflexivity.
    + unfold _iter_payloads. rewrite E.
      destruct (categoria cfg) as [c|]; [|congruence].
      rewrite length_map, product3_length, !or_none_length. simpl. lia.
Qed.

(** ** Reading the SQLite store *)

Section Reading.

Lemma get_user_view chat d :
  StateSqlite.get_user chat (mkConn d None)
  = (inr (user_view chat
            (if has_user d chat then d
             else mkDB (users d ++ [chat]) (searches_t d) (search_filters d)
                    (seen_items d) (legacy_seen d))),
     mkConn (if has_user d chat then d
             else mkDB (users d ++ [chat]) (searches_t d) (search_filters d)
                    (seen_items d) (legacy_seen d)) None).
Proof.
  unfold StateSqlite.get_user, _conn, _ensure_user.
  unfold bind at 1. rewrite execute_no_fault. unfold sql_insert_user.
  destruct (has_user d chat); reflexivity.
Qed.

Lemma filter_none {A} (f : A -> bool) l :
  (forall x, In x l -> f x = false) -> filter f l = [].
Proof.
  induction l as [|a l IH]; simpl; intros H; [reflexivity|].
  rewrite H by auto. apply IH. auto.
Qed.

Lemma user_view_unknown chat d d' :
  fk_ok d = true -> has_user d chat = false ->
  searches_t d' = searches_t d -> legacy_seen d' = legacy_seen d ->
  user_view chat d' = mkUser [] None [] [].
Proof.
  intros Hfk Hu Es El. apply fk_ok_iff in Hfk.
  destruct Hfk as (H1 & _ & _ & H4).
  unfold user_view, select_legacy, _load_searches_for_user. rewrite Es, El.
  rewrite (filter_none (fun r => r_chat_id r =? chat)).
  - simpl. rewrite (filter_none (fun p => fst p =? chat)); [reflexivity|].
    intros p Hp. apply String.eqb_neq. intros E. apply H4 in Hp.
    rewrite E in Hp. congruence.
  - intros r Hr. apply String.eqb_neq. intros E. apply H1 in Hr.
    rewrite E in Hr. congruence.
Qed.

Lemma dict_set_fresh {V} k (v : V) d :
  ~ In k (map fst d) -> dict_set k v d = d ++ [(k, v)].
Proof.
  induction d as [|[k' v'] d IH]; simpl; intros Hn; [reflexivity|].
  destruct (k =? k') eqn:E.
  - apply String.eqb_eq in E. subst. tauto.
  - rewrite IH by tauto. reflexivity.
Qed.

Lemma all_users_loop_view d rows : forall out,
  (forall c, In c rows -> has_user d c = true) ->
  NoDup (map fst out ++ rows) ->
  StateSqlite.all_users_loop rows out (mkConn d None)
  = (inr (out ++ map (fun c => (c, user_view c d)) rows), mkConn d None).
Proof.
  induction rows as [|c rows IH]; intros out Hu Hnd; simpl.
  - rewrite app_nil_r. reflexivity.
  - unfold bind. rewrite get_user_view.
    rewrite (Hu c) by (left; reflexivity).
    rewrite dict_set_fresh.
    + rewrite IH.
      * rewrite <- app_assoc. reflexivity.
      * intros c' Hc'. apply Hu. right. assumption.
      * rewrite map_app. simpl. rewrite <- app_assoc. assumption.
    + apply NoDup_remove_2 in Hnd. intros Hin. apply Hnd.
      apply in_or_app. left. assumption.
Qed.

End Reading.

(** X8. [get_user] never fails on a connection without fault.  For a
    known user it leaves the database as it is; for an unknown one, on a
    database that respects its foreign keys, it adds the user row and
    returns empty collections: no searches, no legacy search, empty seen
    map and empty legacy seen list. *)
Theorem X8_get_user_lazy (chat_id : string) (d : DB) :
  (has_user d chat_id = true ->
   StateSqlite.get_user chat_id (mkConn d None)
   = (inr (user_view chat_id d), mkConn d None))
  /\ (fk_ok d = true -> has_user d chat_id = false ->
      StateSqlite.get_user chat_id (mkConn d None)
      = (inr (mkUser [] None [] []),
         mkConn (mkDB (users d ++ [chat_id]) (searches_t d)
                   (search_filters d) (seen_items d) (legacy_seen d)) None)).
Proof.
  split.
  - intros Hu. rewrite get_user_view, Hu. reflexivity.
  - intros Hfk Hu. rewrite get_user_view, Hu.
    rewrite (user_view_unknown chat_id d _ Hfk Hu); reflexivity.
Qed.

Lemma all_users_view (d : DB) :
  NoDup (users d) ->
  StateSqlite.all_users (mkConn d None)
  = (inr (map (fun c => (c, user_view c d)) (select_users d)),
     mkConn d None).
Proof.
  intros Hnd. unfold StateSqlite.all_users, _conn, bind, query. simpl.
  rewrite all_users_loop_view; [reflexivity | |].
  - intros c Hc. apply mem_In. unfold select_users in Hc.
    rewrite In_sort_asc in Hc. assumption.
  - simpl. apply NoDup_sort_asc. assumption.
Qed.

(** X9. On a connection without fault [all_users] returns one entry per
    row of [users], in the order of the chat ids (the order of the index
    that answers the query, not the order of insertion), each with the
    view [get_user] gives of that user, and leaves the database
    unchanged. *)
Theorem X9_all_users_snapshot (d : DB) :
  NoDup (users d) ->
  StateSqlite.all_users (mkConn d None)
  = (inr (map (fun c => (c, user_view c d)) (select_users d)),
     mkConn d None)
  /\ Permutation (users d) (select_users d)
  /\ StronglySorted (fun a b => String.leb a b = true) (select_users d).
Proof.
  intros Hnd. split; [apply all_users_view; assumption|].
  split; [apply sort_asc_perm | apply sort_asc_sorted].
Qed.

(** ** A cycle that finds nothing new *)

Section QuietCycle.

Context {St : Type} `{StateAPI St}.
Variable inpa_search : Catalog.

(** A search without new item: it returns [False] and leaves the dict,
    or raises at the sort; it notifies nothing. *)
Lemma process_one_quiet chat u s lid out :
  new_items_of inpa_search u s lid = [] ->
  exists sent,
    _process_one_search inpa_search chat u s lid out
    = (if sortable_search inpa_search s then inr (false, u)
       else inl TypeError, out ++ sent)
    /\ notified sent = [].
Proof.
  intros Hn. rewrite process_one_run, (quiet_returns inpa_search u s lid Hn).
  unfold sortable_search.
  destruct (sortable (merged (aggregate inpa_search (_iter_payloads s)))).
  - destruct (process_one_spec inpa_search chat u s lid) as (H1 & H2 & H3).
    rewrite Hn in H1, H2, H3. simpl in H2, H3.
    destruct (one_search_result inpa_search chat u s lid) as [[c u'] sent].
    simpl in *. subst. exists sent. auto.
  - exists []. auto.
Qed.

Lemma searches_loop_quiet chat u ss : forall c0 out,
  (forall s, In s ss -> new_items_of inpa_search u s (sid_of s) = []) ->
  exists sent,
    searches_loop inpa_search chat u c0 ss out
    = (if forallb (sortable_search inpa_search) ss then inr (c0, u)
       else inl TypeError, out ++ sent)
    /\ notified sent = [].
Proof.
  induction ss as [|s ss IH]; intros c0 out Hq;
    cbn [searches_loop forallb].
  - exists []. unfold ret. rewrite app_nil_r. auto.
  - destruct (process_one_quiet chat u s (sid_of s) out
                (Hq s (or_introl eq_refl))) as (sent1 & E1 & Hn1).
    unfold bind. rewrite E1.
    destruct (sortable_search inpa_search s); cbn [andb fst snd].
    + destruct (IH (c0 || false) (out ++ sent1)) as (sent2 & E2 & Hn2).
      { intros s' Hs'. apply Hq. right. assumption. }
      rewrite E2, orb_false_r, <- app_assoc. exists (sent1 ++ sent2).
      split; [reflexivity|]. rewrite notified_app, Hn1, Hn2. reflexivity.
    + exists sent1. auto.
Qed.

Lemma process_user_quiet chat u w :
  (searches u = [] -> search u = None) ->
  (forall s, In s (searches u) ->
             new_items_of inpa_search u s (sid_of s) = []) ->
  exists sent,
    process_user inpa_search (chat, u) w
    = (if forallb (sortable_search inpa_search) (searches u) then inr tt
       else inl TypeError,
       mkWorld (store w) (outbox w ++ sent))
    /\ notified sent = [].
Proof.
  intros Hl Hq. unfold process_user.
  destruct (searches u) as [|s0 ss] eqn:Es.
  - simpl. rewrite Hl by reflexivity. exists []. rewrite app_nil_r.
    destruct w. auto.
  - cbn [is_nil].
    destruct (searches_loop_quiet chat u (s0 :: ss) false (outbox w) Hq)
      as (sent & E & Hn).
    unfold bind, on_outbox. rewrite E.
    destruct (forallb (sortable_search inpa_search) (s0 :: ss));
      exists sent; auto.
Qed.

Lemma run_users_quiet us : forall w,
  (forall c u, In (c, u) us -> searches u = [] -> search u = None) ->
  (forall c u s, In (c, u) us -> In s (searches u) ->
                 new_items_of inpa_search u s (sid_of s) = []) ->
  exists sent,
    run_users inpa_search us w
    = (if forallb (fun cu => forallb (sortable_search inpa_search)
                               (searches (snd cu))) us
       then inr tt else inl TypeError,
       mkWorld (store w) (outbox w ++ sent))
    /\ notified sent = [].
Proof.
  unfold run_users.
  induction us as [|[c u] us IH]; intros w Hl Hq; cbn [for_each forallb].
  - exists []. rewrite app_nil_r. destruct w. auto.
  - destruct (process_user_quiet c u w) as (sent1 & E1 & Hn1).
    { eapply Hl. left. reflexivity. }
    { intros s Hs. eapply Hq; eauto. left. reflexivity. }
    unfold bind. rewrite E1. cbn [snd].
    destruct (forallb (sortable_search inpa_search) (searches u));
      cbn [andb].
    + destruct (IH (mkWorld (store w) (outbox w ++ sent1)))
        as (sent2 & E2 & Hn2).
      { intros c' u' Hin. eapply Hl. right. eassumption. }
      { intros c' u' s Hin. eapply Hq. right. eassumption. }
      rewrite E2. cbn [store outbox]. exists (sent1 ++ sent2).
      rewrite app_assoc, notified_app, Hn1, Hn2. auto.
    + exists sent1. auto.
Qed.

End QuietCycle.


(** ** What [set_user] keeps *)

Section SetUserKeeps.

Lemma In_set_user_stmts chat u d0 st :
  In st (set_user_stmts chat u d0) ->
  st = sql_insert_user chat
  \/ (exists sid text label, st = sql_upsert_search sid chat text label)
  \/ (exists sid, st = sql_delete_filters sid)
  \/ (exists sid k vid vname, st = sql_insert_filter sid k vid vname)
  \/ (exists x, In x (to_delete_of chat u d0) /\ st = sql_delete_search x)
  \/ (exists sid iid, st = sql_insert_seen sid iid)
  \/ (exists iid, st = sql_insert_legacy chat iid).
Proof.
  unfold set_user_stmts. rewrite !in_app_iff. simpl.
  intros [[<-|[]]|[H|[H|[H|H]]]]; auto.
  - apply in_flat_map in H. destruct H as (s & _ & H).
    apply In_search_stmts in H.
    destruct H as [->|[->|(k & vid & vname & ->)]]; eauto 10.
  - apply in_map_iff in H. destruct H as (x & <- & Hx). eauto 10.
  - apply in_flat_map in H. destruct H as ([sid ids] & _ & H).
    unfold seen_stmts in H. apply in_map_iff in H.
    destruct H as (x & <- & _). eauto 10.
  - apply in_map_iff in H. destruct H as (x & <- & _). eauto 10.
Qed.

(** The rows that a statement of [set_user] leaves in place. *)
Lemma stmt_keeps chat u d0 st d d' :
  In st (set_user_stmts chat u d0) -> st d = Some d' ->
  (forall c, In c (users d) -> In c (users d'))
  /\ (forall p, In p (legacy_seen d) -> In p (legacy_seen d'))
  /\ (forall p, In p (seen_items d) -> ~ In (fst p) (to_delete_of chat u d0) ->
                In p (seen_items d')).
Proof.
  intros Hin E. apply In_set_user_stmts in Hin.
  destruct Hin as [->|[(sid & text & label & ->)|[(sid & ->)|
    [(sid & k & vid & vname & ->)|[(x & Hx & ->)|[(sid & iid & ->)|
    (iid & ->)]]]]]]; revert E;
    unfold sql_insert_user, sql_upsert_search, sql_delete_filters,
      sql_insert_filter, sql_delete_search, sql_insert_seen,
      sql_insert_legacy;
    intros E; stmt_cases; simpl; repeat split; auto;
    try (intros; apply in_or_app; auto).
  intros p Hp Hn. apply filter_In. split; [assumption|].
  apply negb_true_iff, String.eqb_neq. intros <-. contradiction.
Qed.

End SetUserKeeps.

(** X11. Whatever happens during the call, [set_user] removes no user
    row and no legacy seen row (passing an empty [seen_ids], as [/reset]
    does, clears nothing), and it removes seen rows only of the searches
    it deletes: a seen row of any other search is still there afterwards. *)
Theorem X11_set_user_keeps_seen (chat_id : string) (u : User) (d : DB)
  (f : option nat) :
  let d' := db (snd (StateSqlite.set_user chat_id u (mkConn d f))) in
  (forall c, In c (users d) -> In c (users d'))
  /\ (forall p, In p (legacy_seen d) -> In p (legacy_seen d'))
  /\ (forall p, In p (seen_items d) ->
                ~ In (fst p) (to_delete_of chat_id u d) ->
                In p (seen_items d')).
Proof.
  cbv zeta. rewrite set_user_run. simpl db at 1 3 5.
  rewrite run_stmts_reached.
  apply (exec_all_inv
           (fun d' =>
              (forall c, In c (users d) -> In c (users d'))
              /\ (forall p, In p (legacy_seen d) -> In p (legacy_seen d'))
              /\ (forall p, In p (seen_items d) ->
                            ~ In (fst p) (to_delete_of chat_id u d) ->
                            In p (seen_items d')))); [|auto].
  intros s Hs d1 d2 (H1 & H2 & H3) E. apply In_reached in Hs.
  destruct (@stmt_keeps _ _ _ _ _ _ Hs E) as (K1 & K2 & K3).
  repeat split; auto.
Qed.

(** ** [append_seen] on the SQLite store *)

Section AppendSeen.

Lemma append_seen_result chat ids sid d :
  ids <> [] ->
  StateSqlite.append_seen chat ids sid (mkConn d None)
  = (if fst (exec_all (map (append_stmt chat sid) (None :: map Some ids)) d)
     then inr tt else inl IntegrityError,
     mkConn (snd (exec_all (map (append_stmt chat sid)
                              (None :: map Some ids)) d)) None).
Proof.
  intros Hne. unfold StateSqlite.append_seen.
  destruct ids as [|i ids]; [congruence|].
  cbv [is_nil]. generalize (i :: ids). intros l.
  cbv [_conn _ensure_user]. unfold bind at 1. rewrite execute_no_fault.
  simpl map. cbn [exec_all].
  assert (E : exists d1, sql_insert_user chat d = Some d1)
    by (unfold sql_insert_user; destruct (has_user d chat); eauto).
  destruct E as [d1 ->]. rewrite map_map.
  destruct sid as [s|]; [destruct (truthy s) eqn:Et|];
    rewrite for_each_exec_all; unfold append_stmt; rewrite ?Et; reflexivity.
Qed.

(** With the search in place every insertion is accepted. *)
Lemma insert_seen_all sid ids : forall d,
  has_search d sid = true ->
  exists d',
    exec_all (map (sql_insert_seen sid) ids) d = (true, d')
    /\ users d' = users d /\ searches_t d' = searches_t d
    /\ search_filters d' = search_filters d
    /\ legacy_seen d' = legacy_seen d
    /\ (forall p, In p (seen_items d') <->
                  In p (seen_items d)
                  \/ exists iid, In iid ids /\ p = (sid, iid)).
Proof.
  induction ids as [|i ids IH]; intros d Hs; simpl.
  - exists d. repeat split; auto. intros [H|(iid & [] & _)]. assumption.
  - unfold sql_insert_seen at 1.
    destruct (has_pair (sid, i) (seen_items d)) eqn:Ep.
    + destruct (IH d Hs) as (d' & E & H1 & H2 & H3 & H4 & H5).
      exists d'. repeat split; auto.
      * intros Hp. apply H5 in Hp. destruct Hp as [Hp|(iid & Hi & ->)];
          eauto.
      * intros [Hp|(iid & [<-|Hi] & ->)]; apply H5; eauto.
        left. apply has_pair_In. assumption.
    + rewrite Hs.
      destruct (IH (mkDB (users d) (searches_t d) (search_filters d)
                      (seen_items d ++ [(sid, i)]) (legacy_seen d)) Hs)
        as (d' & E & H1 & H2 & H3 & H4 & H5).
      exists d'. repeat split; auto.
      * intros Hp. apply H5 in Hp. simpl in Hp. rewrite in_app_iff in Hp.
        simpl in Hp. destruct Hp as [[Hp|[<-|[]]]|(iid & Hi & ->)]; eauto.
      * intros Hp. apply H5. simpl. rewrite in_app_iff. simpl.
        destruct Hp as [Hp|(iid & [<-|Hi] & ->)]; eauto.
Qed.

Lemma insert_legacy_all chat ids : forall d,
  has_user d chat = true ->
  exists d',
    exec_all (map (sql_insert_legacy chat) ids) d = (true, d')
    /\ users d' = users d /\ searches_t d' = searches_t d
    /\ search_filters d' = search_filters d
    /\ seen_items d' = seen_items d
    /\ (forall p, In p (legacy_seen d') <->
                  In p (legacy_seen d)
                  \/ exists iid, In iid ids /\ p = (chat, iid)).
Proof.
  induction ids as [|i ids IH]; intros d Hs; simpl.
  - exists d. repeat split; auto. intros [H|(iid & [] & _)]. assumption.
  - unfold sql_insert_legacy at 1.
    destruct (has_pair (chat, i) (legacy_seen d)) eqn:Ep.
    + destruct (IH d Hs) as (d' & E & H1 & H2 & H3 & H4 & H5).
      exists d'. repeat split; auto.
      * intros Hp. apply H5 in Hp. destruct Hp as [Hp|(iid & Hi & ->)];
          eauto.
      * intros [Hp|(iid & [<-|Hi] & ->)]; apply H5; eauto.
        left. apply has_pair_In. assumption.
    + rewrite Hs.
      destruct (IH (mkDB (users d) (searches_t d) (search_filters d)
                      (seen_items d) (legacy_seen d ++ [(chat, i)])) Hs)
        as (d' & E & H1 & H2 & H3 & H4 & H5).
      exists d'. repeat split; auto.
      * intros Hp. apply H5 in Hp. simpl in Hp. rewrite in_app_iff in Hp.
        simpl in Hp. destruct Hp as [[Hp|[<-|[]]]|(iid & Hi & ->)]; eauto.
      * intros Hp. apply H5. simpl. rewrite in_app_iff. simpl.
        destruct Hp as [Hp|(iid & [<-|Hi] & ->)]; eauto.
Qed.

(** Without the search no insertion happens. *)
Lemma insert_seen_orphan sid ids : forall d,
  has_search d sid = false ->
  snd (exec_all (map (sql_insert_seen sid) ids) d) = d
  /\ (fst (exec_all (map (sql_insert_seen sid) ids) d) = true ->
      forall iid, In iid ids -> In (sid, iid) (seen_items d)).
Proof.
  induction ids as [|i ids IH]; intros d Hs; simpl; [split; [auto|]|].
  - intros _ iid [].
  - unfold sql_insert_seen at 1 3.
    destruct (has_pair (sid, i) (seen_items d)) eqn:Ep.
    + destruct (IH d Hs) as [H1 H2]. split; [assumption|].
      intros Hf iid [<-|Hi]; [apply has_pair_In; assumption | auto].
    + rewrite Hs. simpl. split; [reflexivity | discriminate].
Qed.

Lemma insert_user_has chat d :
  exists d1, sql_insert_user chat d = Some d1
             /\ has_user d1 chat = true
             /\ (forall c, In c (users d1) <-> In c (users d) \/ c = chat)
             /\ searches_t d1 = searches_t d
             /\ search_filters d1 = search_filters d
             /\ seen_items d1 = seen_items d
             /\ legacy_seen d1 = legacy_seen d.
Proof.
  unfold sql_insert_user. destruct (has_user d chat) eqn:Eu.
  - exists d. repeat split; auto. intros [H | ->]; [assumption|].
    apply mem_In. assumption.
  - eexists. split; [reflexivity|]. unfold has_user. simpl.
    rewrite mem_app. simpl. rewrite String.eqb_refl.
    repeat split; auto using orb_true_r.
    + intros Hc. apply in_app_or in Hc. destruct Hc as [Hc|[<-|[]]]; auto.
    + intros [Hc | ->]; apply in_or_app; simpl; auto.
Qed.

End AppendSeen.

(** X12. When the search exists, [append_seen] with its id returns
    normally and afterwards the seen rows of the database are the ones it
    had together with one row per given id; nothing else changes but the
    user row, which is created when missing.  Without a search id (or
    with the empty one) the same holds for the legacy seen rows of the
    user, whatever the database. *)
Theorem X12_append_seen_records (chat_id : string) (ids : list string)
  (sid : string) (d : DB) :
  let r := StateSqlite.append_seen chat_id ids (Some sid) (mkConn d None) in
  let r0 := StateSqlite.append_seen chat_id ids None (mkConn d None) in
  (truthy sid = true -> has_search d sid = true ->
   fst r = inr tt
   /\ (forall p, In p (seen_items (db (snd r))) <->
                 In p (seen_items d)
                 \/ exists iid, In iid ids /\ p = (sid, iid))
   /\ legacy_seen (db (snd r)) = legacy_seen d
   /\ searches_t (db (snd r)) = searches_t d
   /\ search_filters (db (snd r)) = search_filters d)
  /\ (fst r0 = inr tt
      /\ (forall p, In p (legacy_seen (db (snd r0))) <->
                    In p (legacy_seen d)
                    \/ exists iid, In iid ids /\ p = (chat_id, iid))
      /\ seen_items (db (snd r0)) = seen_items d
      /\ searches_t (db (snd r0)) = searches_t d
      /\ search_filters (db (snd r0)) = search_filters d).
Proof.
  cbv zeta. destruct ids as [|i0 ids0] eqn:Eids.
  { simpl. split; [intros _ _|]; repeat split; auto;
      intros [H|(iid & [] & _)]; assumption. }
  rewrite <- Eids. assert (Hne : ids <> []) by (rewrite Eids; discriminate).
  clear Eids. rewrite !append_seen_result by assumption.
  simpl map. cbn [exec_all].
  destruct (insert_user_has chat_id d)
    as (d1 & -> & Hu1 & _ & S1 & S2 & S3 & S4).
  rewrite !map_map. split.
  - intros Ht Hs. unfold append_stmt. rewrite Ht.
    change (fun x : string => sql_insert_seen sid x)
      with (sql_insert_seen sid).
    assert (Hs1 : has_search d1 sid = true)
      by (unfold has_search; rewrite S1; exact Hs).
    destruct (insert_seen_all sid ids d1 Hs1)
      as (d' & -> & H1 & H2 & H3 & H4 & H5).
    simpl. rewrite H2, H3, H4, S1, S2, S4. repeat split; auto.
    + intros Hp. apply H5 in Hp. rewrite S3 in Hp. assumption.
    + intros Hp. apply H5. rewrite S3. assumption.
  - unfold append_stmt.
    change (fun x : string => sql_insert_legacy chat_id x)
      with (sql_insert_legacy chat_id).
    destruct (insert_legacy_all chat_id ids d1 Hu1)
      as (d' & -> & H1 & H2 & H3 & H4 & H5).
    simpl. rewrite H2, H3, H4, S1, S2, S3. repeat split; auto.
    + intros Hp. apply H5 in Hp. rewrite S4 in Hp. assumption.
    + intros Hp. apply H5. rewrite S4. assumption.
Qed.

(** X13. When no search has the given id and one of the ids is not yet
    recorded for it, [append_seen] raises [IntegrityError] and records
    nothing: the seen rows, the searches and the legacy rows are as
    before; only the user row has been created. *)
Theorem X13_append_seen_orphan (chat_id : string) (ids : list string)
  (sid : string) (d : DB) (iid : string) :
  truthy sid = true -> has_search d sid = false ->
  In iid ids -> ~ In (sid, iid) (seen_items d) ->
  let r := StateSqlite.append_seen chat_id ids (Some sid) (mkConn d None) in
  fst r = inl IntegrityError
  /\ seen_items (db (snd r)) = seen_items d
  /\ legacy_seen (db (snd r)) = legacy_seen d
  /\ searches_t (db (snd r)) = searches_t d
  /\ has_user (db (snd r)) chat_id = true.
Proof.
  intros Ht Hs Hin Hn. cbv zeta.
  assert (Hne : ids <> []) by (intros ->; destruct Hin).
  rewrite append_seen_result by assumption.
  simpl map. cbn [exec_all].
  destruct (insert_user_has chat_id d)
    as (d1 & -> & Hu1 & _ & S1 & S2 & S3 & S4).
  rewrite !map_map. unfold append_stmt. rewrite Ht.
  change (fun x : string => sql_insert_seen sid x)
    with (sql_insert_seen sid).
  assert (Hs1 : has_search d1 sid = false)
    by (unfold has_search; rewrite S1; exact Hs).
  destruct (insert_seen_orphan sid ids d1 Hs1) as [E1 E2].
  rewrite E1. simpl.
  destruct (fst (exec_all (map (sql_insert_seen sid) ids) d1)) eqn:Ef.
  - exfalso. apply Hn. rewrite <- S3. apply E2; auto.
  - repeat split; auto.
Qed.

(** ** The JSON store *)

Section JsonStore.

Lemma skipn_suffix {A} n (l : list A) : exists dropped, l = dropped ++ skipn n l.
Proof. exists (firstn n l). symmetry. apply firstn_skipn. Qed.

Lemma NoDup_suffix {A} (a b : list A) : NoDup (a ++ b) -> NoDup b.
Proof.
  induction a as [|x a IH]; simpl; [auto|]. intros H. inversion H; auto.
Qed.

Lemma dict_get_set_same {V} k (v : V) d : dict_get k (dict_set k v d) = Some v.
Proof. rewrite dict_get_set, String.eqb_refl. reflexivity. Qed.

Lemma dict_get_set_other {V} k k' (v : V) d :
  k <> k' -> dict_get k (dict_set k' v d) = dict_get k d.
Proof.
  intros Hn. rewrite dict_get_set. apply String.eqb_neq in Hn.
  rewrite Hn. reflexivity.
Qed.

End JsonStore.

(** X14. [append_seen] of the JSON store adds the ids that are not yet
    in the list, in order, and then keeps the newest entries: the stored
    list is a suffix of the extended one; for a positive cap it has at
    most [cap] entries and is the whole extended list when that fits; a
    cap of [0] removes nothing, because the slice from index [-0] is the
    whole list.  A list without repetition stays so, and the nodes of the
    other users are untouched. *)
Theorem X14_json_append_seen_cap (chat_id : string) (ids : list string)
  (cap : nat) (data : JsonFile) :
  let old := seen_ids (match dict_get chat_id data with
                       | Some u => u
                       | None => StateJsonMore.default_user
                       end) in
  let all := fold_left fromkeys_step ids old in
  let data' := snd (StateJsonMore.append_seen chat_id ids cap data) in
  exists u',
    dict_get chat_id data' = Some u'
    /\ (exists dropped, all = dropped ++ seen_ids u')
    /\ (forall i, In i all <-> In i old \/ In i ids)
    /\ (0 < cap ->
        length (seen_ids u') <= cap
        /\ (length all <= cap -> seen_ids u' = all))
    /\ (cap = 0 -> seen_ids u' = all)
    /\ (NoDup old -> NoDup (seen_ids u'))
    /\ (forall c, c <> chat_id -> dict_get c data' = dict_get c data).
Proof.
  cbv zeta. unfold StateJsonMore.append_seen. simpl snd.
  set (u := match dict_get chat_id data with
            | Some u => u
            | None => StateJsonMore.default_user
            end).
  set (all := fold_left fromkeys_step ids (seen_ids u)).
  eexists. split; [apply dict_get_set_same|]. simpl seen_ids.
  assert (Hsuf : exists dropped,
             all = dropped
                   ++ (if Nat.ltb cap (length all)
                       then StateJsonMore.last_n cap all else all)).
  { destruct (Nat.ltb cap (length all)); [|exists []; reflexivity].
    unfold StateJsonMore.last_n. destruct cap; [exists []; reflexivity|].
    apply skipn_suffix. }
  split; [exact Hsuf|].
  split; [intros i; apply step_fold_In|].
  split; [|split; [|split]].
  - intros Hc. destruct (Nat.ltb cap (length all)) eqn:E.
    + apply Nat.ltb_lt in E. unfold StateJsonMore.last_n.
      destruct cap as [|n]; [lia|]. rewrite length_skipn. split; lia.
    + apply Nat.ltb_ge in E. split; [assumption | reflexivity].
  - intros ->. destruct (Nat.ltb 0 (length all)); reflexivity.
  - intros Hnd. destruct Hsuf as [dropped Hd].
    assert (Ha : NoDup all) by (apply step_fold_NoDup; assumption).
    rewrite Hd in Ha. eapply NoDup_suffix; eauto.
  - intros c Hc. apply dict_get_set_other. assumption.
Qed.

(** X15. In the JSON store [get_user] returns the node that the last
    [set_user] for that chat stored, [set_user] for one chat changes the
    node of no other chat, and the chats of the file keep their order; a
    chat without node reads as the default node and the file is not
    written. *)
Theorem X15_json_set_get (chat_id : string) (u : User) (data : JsonFile) :
  let data' := snd (StateJson.set_user chat_id u data) in
  StateJsonMore.get_user chat_id data' = (inr u, data')
  /\ (forall c, c <> chat_id ->
                fst (StateJsonMore.get_user c data')
                = fst (StateJsonMore.get_user c data))
  /\ (dict_get chat_id data <> None -> map fst data' = map fst data)
  /\ (dict_get chat_id data = None ->
      StateJsonMore.get_user chat_id data
      = (inr StateJsonMore.default_user, data)
      /\ data' = data ++ [(chat_id, u)]).
Proof.
  cbv zeta. unfold StateJson.set_user, StateJsonMore.get_user. simpl snd.
  split; [rewrite dict_get_set_same; reflexivity|].
  split; [intros c Hc; simpl;
          rewrite dict_get_set_other by assumption; reflexivity|].
  split.
  - intros Hk. induction data as [|[k v] data IH]; simpl in *; [congruence|].
    rewrite (String.eqb_sym chat_id k) in *.
    destruct (k =? chat_id) eqn:E.
    + apply String.eqb_eq in E. subst. reflexivity.
    + simpl. rewrite IH by assumption. reflexivity.
  - intros Hk. rewrite Hk. split; [reflexivity|].
    apply dict_set_fresh. clear u.
    induction data as [|[k v] data IH]; simpl in *; [tauto|].
    destruct (chat_id =? k) eqn:E; [discriminate|].
    apply String.eqb_neq in E. intros [H|H]; [congruence | tauto].
Qed.

(** ** Saving searches and reading them back *)

Section RoundTrip.

Lemma insert_filters_run sid k (l : list Filt) : forall d,
  has_search d sid = true ->
  exec_all (map (fun x => sql_insert_filter sid k (f_id x) (f_name x)) l) d
  = (true,
     mkDB (users d) (searches_t d)
       (search_filters d
          ++ map (fun x => mkFilterRow sid k (f_id x) (f_name x)) l)
       (seen_items d) (legacy_seen d)).
Proof.
  induction l as [|x l IH]; intros d Hs; simpl.
  - rewrite app_nil_r. destruct d; reflexivity.
  - unfold sql_insert_filter at 1. rewrite Hs. rewrite IH by exact Hs.
    simpl. rewrite <- app_assoc. reflexivity.
Qed.

Lemma filter_all {A} (f : A -> bool) l :
  (forall x, In x l -> f x = true) -> filter f l = l.
Proof.
  induction l as [|a l IH]; simpl; intros H; [reflexivity|].
  rewrite H by auto. rewrite IH by auto. reflexivity.
Qed.

(** The statements of a search that the database does not know yet. *)
Lemma search_stmts_fresh chat s d :
  has_user d chat = true ->
  has_search d (s_id s) = false ->
  (forall f, In f (search_filters d) -> fr_search_id f <> s_id s) ->
  exec_all (search_stmts chat s) d
  = (true,
     mkDB (users d) (searches_t d ++ [row_of chat s])
       (search_filters d ++ filter_rows s) (seen_items d) (legacy_seen d)).
Proof.
  intros Hu Hs Hf. unfold search_stmts.
  change ([?a; ?b] ++ ?l) with (a :: b :: l). cbn [exec_all].
  unfold sql_upsert_search. rewrite Hs, Hu.
  unfold sql_delete_filters. cbn [users searches_t search_filters seen_items
                                  legacy_seen].
  rewrite filter_all.
  2:{ intros f Hin. apply negb_true_iff, String.eqb_neq. apply Hf.
      assumption. }
  assert (Hs1 : forall fl,
             has_search (mkDB (users d)
                           (searches_t d
                              ++ [mkSearchRow (s_id s) chat (s_text s)
                                    (s_label s)])
                           fl (seen_items d) (legacy_seen d)) (s_id s)
             = true).
  { intros fl. unfold has_search. simpl. rewrite existsb_app. simpl.
    rewrite String.eqb_refl. apply orb_true_iff. auto. }
  rewrite exec_all_app, insert_filters_run by apply Hs1. cbn [fst snd].
  rewrite exec_all_app, insert_filters_run by apply Hs1. cbn [fst snd].
  rewrite insert_filters_run by apply Hs1.
  cbn [users searches_t search_filters seen_items legacy_seen].
  unfold filter_rows, row_of. rewrite <- !app_assoc. reflexivity.
Qed.

Lemma searches_fresh chat ss : forall d,
  has_user d chat = true ->
  NoDup (map s_id ss) ->
  (forall s, In s ss -> has_search d (s_id s) = false) ->
  (forall s f, In s ss -> In f (search_filters d) ->
               fr_search_id f <> s_id s) ->
  exec_all (flat_map (search_stmts chat) ss) d
  = (true,
     mkDB (users d) (searches_t d ++ map (row_of chat) ss)
       (search_filters d ++ flat_map filter_rows ss)
       (seen_items d) (legacy_seen d)).
Proof.
  induction ss as [|s ss IH]; intros d Hu Hnd Hs Hf; cbn [flat_map map].
  - simpl. rewrite !app_nil_r. destruct d; reflexivity.
  - inversion Hnd as [|? ? Hni Hnd']; subst.
    rewrite exec_all_app, search_stmts_fresh; auto.
    2:{ apply Hs. left. reflexivity. }
    2:{ intros f Hin. apply Hf; [left; reflexivity | assumption]. }
    cbn [fst snd]. rewrite IH; auto.
    + cbn [users searches_t search_filters seen_items legacy_seen].
      rewrite <- !app_assoc. reflexivity.
    + intros s' Hs'. unfold has_search. simpl. rewrite existsb_app. simpl.
      rewrite orb_false_r.
      assert (E : (s_id s =? s_id s') = false).
      { apply String.eqb_neq. intros E. apply Hni. rewrite E.
        apply in_map. assumption. }
      rewrite E, orb_false_r. apply Hs. right. assumption.
    + intros s' f Hs' Hin. simpl in Hin. apply in_app_or in Hin.
      destruct Hin as [Hin|Hin]; [apply Hf; auto; right; assumption|].
      assert (Ef : fr_search_id f = s_id s).
      { unfold filter_rows in Hin. rewrite !in_app_iff, !in_map_iff in Hin.
        destruct Hin as [(x & <- & _)|[(x & <- & _)|(x & <- & _)]];
          reflexivity. }
      rewrite Ef. intros E. apply Hni. rewrite E. apply in_map. assumption.
Qed.

Lemma filter_rows_id s f : In f (filter_rows s) -> fr_search_id f = s_id s.
Proof.
  unfold filter_rows. rewrite !in_app_iff, !in_map_iff.
  intros [(x & <- & _)|[(x & <- & _)|(x & <- & _)]]; reflexivity.
Qed.

Lemma filter_rows_pick ss : forall s,
  NoDup (map s_id ss) -> In s ss ->
  filter (fun f => fr_search_id f =? s_id s) (flat_map filter_rows ss)
  = filter_rows s.
Proof.
  induction ss as [|a ss IH]; intros s Hnd Hin; [destruct Hin|].
  inversion Hnd as [|? ? Hni Hnd']; subst. cbn [flat_map].
  rewrite filter_app. destruct Hin as [->|Hin].
  - rewrite filter_all.
    2:{ intros f Hf. apply String.eqb_eq, filter_rows_id. assumption. }
    rewrite filter_none; [apply app_nil_r|].
    intros f Hf. apply in_flat_map in Hf. destruct Hf as (s' & Hs' & Hf).
    apply filter_rows_id in Hf. apply String.eqb_neq. rewrite Hf.
    intros E. apply Hni. rewrite <- E. apply in_map. assumption.
  - rewrite filter_none.
    2:{ intros f Hf. apply filter_rows_id in Hf. apply String.eqb_neq.
        rewrite Hf. intros E. apply Hni. rewrite E. apply in_map.
        assumption. }
    simpl. apply IH; assumption.
Qed.

Lemma filters_of_app k a b :
  filters_of k (a ++ b) = filters_of k a ++ filters_of k b.
Proof. unfold filters_of. apply flat_map_app. Qed.

Lemma filters_of_map sid k k' (l : list Filt) :
  filters_of k' (map (fun x => mkFilterRow sid k (f_id x) (f_name x)) l)
  = if match k, k' with
       | category, category | region, region | sector, sector => true
       | _, _ => false
       end then l else [].
Proof.
  induction l as [|[i n] l IH].
  - destruct k, k'; reflexivity.
  - cbn [map]. change (filters_of k' (?r :: ?rs))
      with ((match fr_kind r, k' with
             | category, category | region, region | sector, sector =>
                 [mkFilt (fr_value_id r) (fr_value_name r)]
             | _, _ => []
             end) ++ filters_of k' rs).
    rewrite IH. destruct k, k'; reflexivity.
Qed.

Lemma filters_of_rows s :
  filters_of category (filter_rows s) = categorie s
  /\ filters_of region (filter_rows s) = regioni s
  /\ filters_of sector (filter_rows s) = settori s.
Proof.
  unfold filter_rows. rewrite !filters_of_app, !filters_of_map.
  rewrite !app_nil_r. auto.
Qed.

Lemma seen_stage_keeps chat l : forall d,
  (forall st, In st l ->
     (exists sid iid, st = sql_insert_seen sid iid)
     \/ (exists iid, st = sql_insert_legacy chat iid)) ->
  users (snd (exec_all l d)) = users d
  /\ searches_t (snd (exec_all l d)) = searches_t d
  /\ search_filters (snd (exec_all l d)) = search_filters d.
Proof.
  intros d Hl.
  apply (exec_all_inv
           (fun d' => users d' = users d /\ searches_t d' = searches_t d
                      /\ search_filters d' = search_filters d)); [|auto].
  intros st Hst d1 d2 (H1 & H2 & H3) E.
  destruct (Hl st Hst) as [(sid & iid & ->)|(iid & ->)]; revert E;
    unfold sql_insert_seen, sql_insert_legacy; intros E; stmt_cases;
    simpl; auto.
Qed.

Lemma load_fresh chat d d' ss :
  fk_ok d = true ->
  existing_of chat d = [] ->
  NoDup (map s_id ss) ->
  (forall s, In s ss -> has_search d (s_id s) = false) ->
  searches_t d' = searches_t d ++ map (row_of chat) ss ->
  search_filters d' = search_filters d ++ flat_map filter_rows ss ->
  _load_searches_for_user chat d' = map stored ss.
Proof.
  intros Hfk Hex Hnd Hs Et Ef. unfold _load_searches_for_user.
  rewrite Et, Ef, filter_app.
  unfold existing_of in Hex. apply map_eq_nil in Hex. rewrite Hex. simpl.
  rewrite filter_all.
  2:{ intros r Hr. apply in_map_iff in Hr. destruct Hr as (s & <- & _).
      simpl. apply String.eqb_refl. }
  rewrite map_map. apply map_ext_in. intros s Hin. simpl.
  rewrite filter_app, filter_none.
  2:{ intros f Hf. apply String.eqb_neq. intros E.
      apply fk_ok_iff in Hfk. destruct Hfk as (_ & H2 & _).
      apply H2 in Hf. rewrite E, (Hs s Hin) in Hf. discriminate. }
  simpl. rewrite filter_rows_pick by assumption.
  destruct (filters_of_rows s) as (-> & -> & ->). reflexivity.
Qed.

End RoundTrip.

(** X16. Saving new searches and reading them back.  On a database that
    respects its foreign keys, for a user without stored searches and
    incoming searches with pairwise distinct ids that no stored search
    has, [get_user] after [set_user] returns exactly the incoming
    searches, in their order, each with its text, label and three filter
    lists and with [categoria] set to its first category; the legacy
    [search] is the last of them. *)
Theorem X16_set_then_get_searches (chat_id : string) (u : User) (d : DB) :
  fk_ok d = true ->
  existing_of chat_id d = [] ->
  NoDup (map s_id (searches u)) ->
  (forall s, In s (searches u) -> has_search d (s_id s) = false) ->
  let c := snd (StateSqlite.set_user chat_id u (mkConn d None)) in
  exists v,
    StateSqlite.get_user chat_id c = (inr v, c)
    /\ searches v = map stored (searches u)
    /\ search v = last (map Some (map stored (searches u))) None.
Proof.
  intros Hfk Hex Hnd Hs. cbv zeta.
  rewrite set_user_run, run_stmts_no_fault. simpl db. simpl snd.
  unfold set_user_stmts. change ([?a] ++ ?l) with (a :: l). cbn [exec_all].
  destruct (insert_user_has chat_id d)
    as (d1 & -> & Hu1 & _ & S1 & S2 & S3 & S4).
  assert (Hdel : to_delete_of chat_id u d = []).
  { unfold to_delete_of. rewrite Hex. reflexivity. }
  rewrite Hdel. cbn [map app].
  rewrite exec_all_app, searches_fresh; auto.
  2:{ intros s Hin. unfold has_search. rewrite S1. apply Hs. assumption. }
  2:{ intros s f Hin Hf E. rewrite S2 in Hf.
      apply fk_ok_iff in Hfk. destruct Hfk as (_ & H2 & _).
      apply H2 in Hf. rewrite E, (Hs s Hin) in Hf. discriminate. }
  cbn [fst snd].
  match goal with
  | |- context [exec_all ?l ?d0] =>
      destruct (@seen_stage_keeps chat_id l d0) as (K1 & K2 & K3);
      [|set (d3 := snd (exec_all l d0)) in *]
  end.
  { intros st Hst. apply in_app_or in Hst. destruct Hst as [Hst|Hst].
    - apply in_flat_map in Hst. destruct Hst as ([sid ids] & _ & Hst).
      unfold seen_stmts in Hst. apply in_map_iff in Hst.
      destruct Hst as (x & <- & _). left. eauto.
    - apply in_map_iff in Hst. destruct Hst as (x & <- & _). right. eauto. }
  simpl in K1, K2, K3.
  assert (Hu3 : has_user d3 chat_id = true)
    by (unfold has_user in *; rewrite K1; exact Hu1).
  exists (user_view chat_id d3).
  rewrite get_user_view, Hu3.
  assert (Hload : _load_searches_for_user chat_id d3
                  = map stored (searches u)).
  { apply (@load_fresh chat_id d d3); auto.
    - rewrite K2, S1. reflexivity.
    - rewrite K3, S2. reflexivity. }
  split; [reflexivity|]. unfold user_view. simpl. rewrite Hload. auto.
Qed.

(** ** Instances of the further properties *)

Lemma X1_witness :
  let payloads := _iter_payloads (search_dict Ex.three) in
  Forall (fun it => valid_id it = false)
    (all_items Ex2.catalog_down payloads)
  /\ 0 < failures Ex2.catalog_down payloads
  /\ _process_one_search Ex2.catalog_down "1" Ex.user3
       (search_dict Ex.three) "s3" []
     = (inr (false, Ex.user3),
        [] ++ [("1", MsgCheckFailed (_label (search_dict Ex.three))
                       (failures Ex2.catalog_down payloads))]).
Proof.
  cbv zeta.
  assert (H1 : Forall (fun it => valid_id it = false)
                 (all_items Ex2.catalog_down
                    (_iter_payloads (search_dict Ex.three))))
    by constructor.
  assert (H2 : 0 < failures Ex2.catalog_down
                     (_iter_payloads (search_dict Ex.three)))
    by (vm_compute; lia).
  split; [exact H1|]. split; [exact H2|].
  exact (proj1 (X1_failure_notice Ex2.catalog_down "1" Ex.user3
                  (search_dict Ex.three) "s3" []) H1 H2).
Defined.

Lemma X3_witness :
  s_label Ex2.labelled = Some "mia ricerca"
  /\ "mia ricerca" <> EmptyString
  /\ _label Ex2.labelled = "mia ricerca"
  /\ (s_label Ex2.unlabelled = None
      \/ s_label Ex2.unlabelled = Some EmptyString)
  /\ String.length (_label Ex2.unlabelled) <= 65.
Proof.
  assert (H2 : "mia ricerca" <> EmptyString) by discriminate.
  split; [reflexivity|]. split; [exact H2|].
  split; [exact (proj1 (X3_label_stored_or_bounded Ex2.labelled) _
                   eq_refl H2)|].
  split; [left; reflexivity|].
  exact (proj2 (X3_label_stored_or_bounded Ex2.unlabelled)
           (or_introl eq_refl)).
Defined.

Lemma X4_witness :
  s_label Ex2.unlabelled = None
  /\ s_text Ex2.unlabelled <> EmptyString
  /\ categorie Ex2.unlabelled <> []
  /\ Forall (fun f => f_name f <> EmptyString)
       (categorie Ex2.unlabelled ++ regioni Ex2.unlabelled
          ++ settori Ex2.unlabelled)
  /\ _label Ex2.unlabelled = _compute_label Ex2.unlabelled.
Proof.
  assert (H2 : s_text Ex2.unlabelled <> EmptyString) by discriminate.
  assert (H3 : categorie Ex2.unlabelled <> []) by discriminate.
  assert (H4 : Forall (fun f => f_name f <> EmptyString)
                 (categorie Ex2.unlabelled ++ regioni Ex2.unlabelled
                    ++ settori Ex2.unlabelled))
    by (repeat constructor; discriminate).
  split; [reflexivity|]. split; [exact H2|]. split; [exact H3|].
  split; [exact H4|].
  exact (proj2 (X4_compute_label Ex2.unlabelled) eq_refl H2 H3 H4).
Defined.

Lemma X5_witness :
  0 < 5
  /\ String.length (truncate "bibliotecario" 5) <= 5
  /\ truncate "bibliotecario" 5 = ("bibl" ++ ellipsis)%string.
Proof.
  assert (H : 0 < 5) by lia.
  split; [exact H|].
  split; [exact (proj1 (@X5_truncate_bound "bibliotecario" 5 H))|].
  destruct (proj2 (proj2 (@X5_truncate_bound "bibliotecario" 5 H))) as [_ E].
  - simpl. lia.
  - exact E.
Defined.

Lemma X6_witness :
  NoDup (map f_id [Ex.c1; Ex.c2])
  /\ fst (_toggle [Ex.c1; Ex.c2] Ex.c1) = [Ex.c2]
  /\ snd (_toggle [Ex.c1; Ex.c2] Ex.c1)
     = negb (mem (f_id Ex.c1) (map f_id [Ex.c1; Ex.c2])).
Proof.
  assert (H : NoDup (map f_id [Ex.c1; Ex.c2])).
  { simpl. repeat constructor; simpl; intuition discriminate. }
  split; [exact H|]. split; [reflexivity|].
  exact (proj1 (@X6_toggle_flips [Ex.c1; Ex.c2] Ex.c1 H)).
Defined.

Lemma X7_witness :
  (categorie Ex2.unlabelled <> [] \/ categoria Ex2.unlabelled = None)
  /\ _iter_payloads Ex2.unlabelled
     = _build_payloads_from_search Ex2.unlabelled
  /\ categorie Ex.legacy_search = []
  /\ categoria Ex.legacy_search <> None
  /\ _build_payloads_from_search Ex.legacy_search = [].
Proof.
  assert (H1 : categorie Ex2.unlabelled <> []
               \/ categoria Ex2.unlabelled = None)
    by (left; discriminate).
  assert (H3 : categoria Ex.legacy_search <> None) by discriminate.
  split; [exact H1|].
  split; [exact (proj1 (X7_builders_agree Ex2.unlabelled) H1)|].
  split; [reflexivity|]. split; [exact H3|].
  exact (proj1 (proj2 (X7_builders_agree Ex.legacy_search) eq_refl H3)).
Defined.

Lemma X8_witness :
  has_user Ex.db1 "1" = true
  /\ StateSqlite.get_user "1" (mkConn Ex.db1 None)
     = (inr (user_view "1" Ex.db1), mkConn Ex.db1 None)
  /\ fk_ok Ex.db1 = true
  /\ has_user Ex.db1 "7" = false
  /\ fst (StateSqlite.get_user "7" (mkConn Ex.db1 None))
     = inr (mkUser [] None [] []).
Proof.
  split; [reflexivity|].
  split; [exact (proj1 (X8_get_user_lazy "1" Ex.db1) eq_refl)|].
  split; [reflexivity|]. split; [reflexivity|].
  rewrite (proj2 (X8_get_user_lazy "7" Ex.db1) eq_refl eq_refl).
  reflexivity.
Defined.

Lemma X9_witness :
  NoDup (users Ex2.db_late)
  /\ StateSqlite.all_users (mkConn Ex2.db_late None)
     = (inr [("1", user_view "1" Ex2.db_late);
             ("10", user_view "10" Ex2.db_late);
             ("2", user_view "2" Ex2.db_late)],
        mkConn Ex2.db_late None)
  /\ Permutation ["2"; "10"; "1"] ["1"; "10"; "2"]
  /\ StronglySorted (fun a b => String.leb a b = true) ["1"; "10"; "2"].
Proof.
  assert (H : NoDup (users Ex2.db_late)).
  { simpl. repeat constructor; simpl; intuition discriminate. }
  split; [exact H|]. exact (@X9_all_users_snapshot Ex2.db_late H).
Defined.


Lemma X11_witness :
  let d' := db (snd (StateSqlite.set_user "1" Ex.after_delete
                       (mkConn Ex2.db_seen None))) in
  In ("1", "L1") (legacy_seen Ex2.db_seen)
  /\ In ("1", "L1") (legacy_seen d')
  /\ In ("s2", "A1") (seen_items Ex2.db_seen)
  /\ ~ In (fst ("s2", "A1")) (to_delete_of "1" Ex.after_delete Ex2.db_seen)
  /\ In ("s2", "A1") (seen_items d').
Proof.
  cbv zeta.
  assert (H1 : In ("1", "L1") (legacy_seen Ex2.db_seen))
    by (left; reflexivity).
  assert (H2 : In ("s2", "A1") (seen_items Ex2.db_seen))
    by (simpl; auto).
  assert (H3 : ~ In (fst ("s2", "A1"))
                 (to_delete_of "1" Ex.after_delete Ex2.db_seen))
    by (vm_compute; intros [E|[]]; discriminate E).
  split; [exact H1|].
  split; [exact (proj1 (proj2 (X11_set_user_keeps_seen "1" Ex.after_delete
                                 Ex2.db_seen None)) _ H1)|].
  split; [exact H2|]. split; [exact H3|].
  exact (proj2 (proj2 (X11_set_user_keeps_seen "1" Ex.after_delete
                         Ex2.db_seen None)) _ H2 H3).
Defined.

Lemma X12_witness :
  truthy "s2" = true
  /\ has_search Ex.db1 "s2" = true
  /\ fst (StateSqlite.append_seen "1" ["A1"; "A1"; "A3"] (Some "s2")
            (mkConn Ex.db1 None)) = inr tt.
Proof.
  split; [reflexivity|]. split; [reflexivity|].
  exact (proj1 (proj1 (X12_append_seen_records "1" ["A1"; "A1"; "A3"] "s2"
                         Ex.db1) eq_refl eq_refl)).
Defined.

Lemma X13_witness :
  truthy "gone" = true
  /\ has_search Ex.db1 "gone" = false
  /\ In "A1" ["A1"]
  /\ ~ In ("gone", "A1") (seen_items Ex.db1)
  /\ fst (StateSqlite.append_seen "1" ["A1"] (Some "gone")
            (mkConn Ex.db1 None)) = inl IntegrityError.
Proof.
  assert (H3 : In "A1" ["A1"]) by (left; reflexivity).
  assert (H4 : ~ In ("gone", "A1") (seen_items Ex.db1))
    by (simpl; intros [E|[]]; discriminate E).
  split; [reflexivity|]. split; [reflexivity|]. split; [exact H3|].
  split; [exact H4|].
  exact (proj1 (@X13_append_seen_orphan "1" ["A1"] "gone" Ex.db1 "A1"
                  eq_refl eq_refl H3 H4)).
Defined.

Lemma X14_witness :
  exists u',
    dict_get "1" (snd (StateJsonMore.append_seen "1" ["A1"; "A3"] 2
                         Ex2.json_file)) = Some u'
    /\ length (seen_ids u') <= 2.
Proof.
  destruct (X14_json_append_seen_cap "1" ["A1"; "A3"] 2 Ex2.json_file)
    as (u' & Hg & _ & _ & Hc & _).
  exists u'. split; [exact Hg|].
  assert (H : 0 < 2) by lia. exact (proj1 (Hc H)).
Defined.

Lemma X15_witness :
  "2" <> "1"
  /\ fst (StateJsonMore.get_user "2"
            (snd (StateJson.set_user "1" Ex.multi_user Ex2.json_file)))
     = fst (StateJsonMore.get_user "2" Ex2.json_file).
Proof.
  assert (H : "2" <> "1") by discriminate.
  split; [exact H|].
  exact (proj1 (proj2 (X15_json_set_get "1" Ex.multi_user Ex2.json_file))
           "2" H).
Defined.

Lemma X16_witness :
  fk_ok Ex2.db_empty = true
  /\ existing_of "1" Ex2.db_empty = []
  /\ NoDup (map s_id (searches Ex2.new_user))
  /\ (forall s, In s (searches Ex2.new_user) ->
                has_search Ex2.db_empty (s_id s) = false)
  /\ exists v,
       StateSqlite.get_user "1"
         (snd (StateSqlite.set_user "1" Ex2.new_user
                 (mkConn Ex2.db_empty None)))
       = (inr v,
          snd (StateSqlite.set_user "1" Ex2.new_user
                 (mkConn Ex2.db_empty None)))
       /\ searches v = map stored (searches Ex2.new_user)
       /\ search v
          = last (map Some (map stored (searches Ex2.new_user))) None.
Proof.
  assert (H3 : NoDup (map s_id (searches Ex2.new_user))).
  { simpl. repeat constructor; simpl; intuition discriminate. }
  assert (H4 : forall s, In s (searches Ex2.new_user) ->
                 has_search Ex2.db_empty (s_id s) = false)
    by (intros s _; reflexivity).
  split; [reflexivity|]. split; [reflexivity|]. split; [exact H3|].
  split; [exact H4|].
  exact (@X16_set_then_get_searches "1" Ex2.new_user Ex2.db_empty
           eq_refl eq_refl H3 H4).
Defined.

(** ** A cycle on the SQLite store and the cycle after it *)

Section SqliteCycle.

Variable inpa_search : Catalog.

Lemma load_same d d' chat :
  same_searches d d' ->
  _load_searches_for_user chat d' = _load_searches_for_user chat d.
Proof.
  intros (Hu & Ht & Hf). unfold _load_searches_for_user. rewrite Ht.
  apply map_ext. intros sr.
  fold (filters_for (r_id sr) d'). fold (filters_for (r_id sr) d).
  rewrite !Hf. reflexivity.
Qed.

Lemma same_searches_refl d : same_searches d d.
Proof. repeat split. Qed.

Lemma dict_get_In {V} k (v : V) d : dict_get k d = Some v -> In (k, v) d.
Proof.
  induction d as [|[k' v'] d IH]; simpl; [discriminate|].
  destruct (k =? k') eqn:E.
  - apply String.eqb_eq in E. intros H. inversion H; subst. auto.
  - auto.
Qed.

Lemma dict_set_keys {V} k (v : V) d k0 :
  In k0 (map fst (dict_set k v d)) <-> k0 = k \/ In k0 (map fst d).
Proof.
  induction d as [|[k' v'] d IH]; simpl.
  - split; [intros [H|[]]; auto | intros [H|[]]; auto].
  - destruct (k =? k') eqn:E; simpl.
    + apply String.eqb_eq in E. subst. split; [tauto|].
      intros [H|[H|H]]; auto.
    + rewrite IH. split; tauto.
Qed.

(** The seen map that [get_user] builds: one entry per loaded search,
    holding its seen rows. *)
Lemma seen_map_of_get d ss : forall m k,
  dict_get k (fold_left
                (fun m s =>
                   dict_set (s_id s)
                     (select_seen (s_id s) d) m) ss m)
  = if mem k (map s_id ss)
    then Some (select_seen k d)
    else dict_get k m.
Proof.
  induction ss as [|s ss IH]; intros m k; simpl; [reflexivity|].
  rewrite IH. destruct (mem k (map s_id ss)) eqn:Em.
  - rewrite orb_true_r. reflexivity.
  - rewrite orb_false_r, dict_get_set.
    destruct (k =? s_id s) eqn:E; [|reflexivity].
    apply String.eqb_eq in E. subst. reflexivity.
Qed.

Lemma seen_map_of_keys d ss : forall m k,
  In k (map fst (fold_left
                   (fun m s =>
                      dict_set (s_id s)
                        (select_seen (s_id s) d) m) ss m)) ->
  In k (map s_id ss) \/ In k (map fst m).
Proof.
  induction ss as [|s ss IH]; intros m k; simpl; [auto|].
  intros H. apply IH in H. destruct H as [H|H]; [auto|].
  apply dict_set_keys in H. destruct H as [->|H]; auto.
Qed.

Lemma view_seen chat d s :
  In s (_load_searches_for_user chat d) ->
  get_list (s_id s) (seen_ids_map (user_view chat d))
  = select_seen (s_id s) d.
Proof.
  intros Hs. unfold get_list, user_view, seen_map_of. simpl.
  rewrite seen_map_of_get.
  assert (E : mem (s_id s) (map s_id (_load_searches_for_user chat d)) = true)
    by (apply mem_In, in_map; assumption).
  rewrite E. reflexivity.
Qed.

Lemma In_seen_rows sid i d :
  In i (select_seen sid d)
  <-> In (sid, i) (seen_items d).
Proof. apply In_select_seen. Qed.

Lemma diff_nil_iff seen items :
  diff seen items = [] <-> forall it, In it items -> unseen seen it = false.
Proof.
  split.
  - intros H it Hin. destruct (unseen seen it) eqn:E; [|reflexivity].
    assert (Hd : In it (diff seen items))
      by (unfold diff; apply filter_In; auto).
    rewrite H in Hd. destruct Hd.
  - apply diff_all_seen.
Qed.

Lemma sorted_items_valid s it :
  In it (sorted_items inpa_search s) -> exists i, it_id it = Some i.
Proof.
  intros Hin. unfold sorted_items in Hin.
  apply (Permutation_in _ (Permutation_sym (sort_desc_perm _))) in Hin.
  pose proof (merged_valid inpa_search (_iter_payloads s)) as Hv.
  rewrite Forall_forall in Hv. apply Hv in Hin. unfold valid_id in Hin.
  destruct (it_id it) as [i|]; [eauto | discriminate].
Qed.

(** No new item for a search means: every item of it is in the seen
    list. *)
Lemma no_news_iff u s lid :
  new_items_of inpa_search u s lid = []
  <-> forall it i, In it (sorted_items inpa_search s) -> it_id it = Some i ->
                   In i (seen_for u lid).
Proof.
  unfold new_items_of. fold (sorted_items inpa_search s).
  rewrite diff_nil_iff. split.
  - intros H it i Hin Hi. apply H in Hin. unfold unseen in Hin.
    rewrite Hi in Hin. apply negb_false_iff, mem_In in Hin. assumption.
  - intros H it Hin. destruct (sorted_items_valid _ _ Hin) as [i Hi].
    unfold unseen. rewrite Hi. apply negb_false_iff, mem_In. eauto.
Qed.

End SqliteCycle.

Section LoopEffect.

Variable inpa_search : Catalog.

(** One search in multi-search mode. *)
Lemma one_search_facts chat u s :
  searches u <> [] ->
  let u1 := snd (fst (one_search_result inpa_search chat u s (sid_of s))) in
  let c1 := fst (fst (one_search_result inpa_search chat u s (sid_of s))) in
  searches u1 = searches u
  /\ (forall k i, In i (get_list k (seen_ids_map u)) ->
                  In i (get_list k (seen_ids_map u1)))
  /\ new_items_of inpa_search u1 s (sid_of s) = []
  /\ (forall k, In k (map fst (seen_ids_map u1)) ->
                In k (map fst (seen_ids_map u)) \/ k = sid_of s)
  /\ (c1 = false -> u1 = u).
Proof.
  intros Hm. cbv zeta.
  destruct (process_one_spec inpa_search chat u s (sid_of s))
    as (_ & Hc & Hu).
  rewrite Hc, Hu.
  destruct (is_nil (new_items_of inpa_search u s (sid_of s))) eqn:En.
  - apply is_nil_true in En. repeat split; auto.
  - assert (Hs : is_nil (searches u) = false)
      by (apply is_nil_false; assumption).
    split; [unfold record_seen; rewrite Hs; reflexivity|].
    split.
    { intros k i Hi. unfold record_seen. rewrite Hs. simpl.
      rewrite get_list_set. destruct (k =? sid_of s) eqn:E; [|assumption].
      apply String.eqb_eq in E. subst k. apply commit_In. auto. }
    split; [apply new_items_after_record|].
    split; [|discriminate].
    intros k. unfold record_seen. rewrite Hs. simpl.
    rewrite dict_set_keys. intros [Hk|Hk]; auto.
Qed.

Lemma seen_for_multi u lid :
  searches u <> [] -> seen_for u lid = get_list lid (seen_ids_map u).
Proof.
  intros Hm. unfold seen_for. apply is_nil_false in Hm. rewrite Hm.
  reflexivity.
Qed.

(** The loop over the searches of a user. *)
Lemma loop_effect chat rest : forall c u sent c' u' sent',
  searches u <> [] ->
  fold_left
    (fun '(changed, u, sent) s =>
       let '(c, u', sent') :=
         one_search_result inpa_search chat u s (sid_of s) in
       (changed || c, u', sent ++ sent'))
    rest (c, u, sent) = (c', u', sent') ->
  searches u' = searches u
  /\ (forall k i, In i (get_list k (seen_ids_map u)) ->
                  In i (get_list k (seen_ids_map u')))
  /\ (forall s, In s rest -> new_items_of inpa_search u' s (sid_of s) = [])
  /\ (forall k, In k (map fst (seen_ids_map u')) ->
                In k (map fst (seen_ids_map u)) \/ In k (map sid_of rest))
  /\ (c' = false -> c = false /\ u' = u).
Proof.
  induction rest as [|s rest IH]; intros c u sent c' u' sent' Hm E.
  - simpl in E. inversion E; subst. repeat split; auto. intros s [].
  - cbn [fold_left] in E.
    destruct (one_search_facts chat u s Hm) as (F1 & F2 & F3 & F4 & F5).
    destruct (one_search_result inpa_search chat u s (sid_of s))
      as [[c1 u1] sent1]. simpl in F1, F2, F3, F4, F5.
    assert (Hm1 : searches u1 <> []) by (rewrite F1; assumption).
    destruct (IH _ _ _ _ _ _ Hm1 E) as (G1 & G2 & G3 & G4 & G5).
    split; [congruence|]. split; [auto|]. split; [|split].
    + intros s0 [<-|Hs0]; [|auto].
      apply no_news_iff. intros it i Hit Hi.
      rewrite seen_for_multi by congruence. apply G2.
      rewrite <- seen_for_multi by assumption.
      eapply (proj1 (no_news_iff inpa_search u1 s (sid_of s))); eauto.
    + intros k Hk. apply G4 in Hk. destruct Hk as [Hk|Hk]; [|simpl; auto].
      apply F4 in Hk. destruct Hk as [Hk | ->]; simpl; auto.
    + intros Hc. destruct (G5 Hc) as [Hcc ->].
      apply orb_false_iff in Hcc. destruct Hcc as [-> Hc1]. auto.
Qed.

End LoopEffect.

Section SetUserView.

Lemma NoDup_map_eq {A B} (f : A -> B) l x y :
  NoDup (map f l) -> In x l -> In y l -> f x = f y -> x = y.
Proof.
  induction l as [|a l IH]; simpl; intros Hnd Hx Hy E; [destruct Hx|].
  inversion Hnd as [|? ? Hni Hnd']; subst.
  destruct Hx as [->|Hx], Hy as [->|Hy]; auto.
  - exfalso. apply Hni. rewrite E. apply in_map. assumption.
  - exfalso. apply Hni. rewrite <- E. apply in_map. assumption.
Qed.

(** Writing a stored row again changes nothing. *)
Lemma upsert_same d sr chat :
  NoDup (map r_id (searches_t d)) -> In sr (searches_t d) ->
  sql_upsert_search (r_id sr) chat (r_text sr) (r_label sr) d = Some d.
Proof.
  intros Hnd Hin. unfold sql_upsert_search.
  assert (Hs : has_search d (r_id sr) = true)
    by (apply has_search_iff; eauto).
  rewrite Hs. f_equal.
  assert (Hm : map (fun r => if r_id r =? r_id sr
                             then mkSearchRow (r_id r) (r_chat_id r)
                                    (r_text sr) (r_label sr)
                             else r) (searches_t d) = searches_t d).
  { rewrite <- (map_id (searches_t d)) at 2. apply map_ext_in.
    intros r Hr. destruct (r_id r =? r_id sr) eqn:E; [|reflexivity].
    apply String.eqb_eq in E.
    assert (r = sr) by (eapply NoDup_map_eq; eauto). subst.
    destruct sr; reflexivity. }
  rewrite Hm. destruct d; reflexivity.
Qed.

(** The statements of one search, once its row is written. *)
Lemma search_stmts_effect chat s d d1 :
  sql_upsert_search (s_id s) chat (s_text s) (s_label s) d = Some d1 ->
  has_search d1 (s_id s) = true ->
  exec_all (search_stmts chat s) d
  = (true,
     mkDB (users d1) (searches_t d1)
       (filter (fun f => negb (fr_search_id f =? s_id s)) (search_filters d1)
          ++ filter_rows s)
       (seen_items d1) (legacy_seen d1)).
Proof.
  intros Eu Hs. unfold search_stmts.
  change ([?a; ?b] ++ ?l) with (a :: b :: l). cbn [exec_all].
  rewrite Eu. unfold sql_delete_filters.
  assert (Hs1 : forall fl,
             has_search (mkDB (users d1) (searches_t d1) fl (seen_items d1)
                           (legacy_seen d1)) (s_id s) = true)
    by (intros fl; exact Hs).
  rewrite exec_all_app, insert_filters_run by apply Hs1. cbn [fst snd].
  rewrite exec_all_app, insert_filters_run by apply Hs1. cbn [fst snd].
  rewrite insert_filters_run by apply Hs1.
  cbn [users searches_t search_filters seen_items legacy_seen].
  unfold filter_rows. rewrite <- !app_assoc. reflexivity.
Qed.

Lemma filter_filter_neq sid sid' (F : list FilterRow) :
  sid' <> sid ->
  filter (fun f => fr_search_id f =? sid')
    (filter (fun f => negb (fr_search_id f =? sid)) F)
  = filter (fun f => fr_search_id f =? sid') F.
Proof.
  intros Hn. induction F as [|f F IH]; simpl; [reflexivity|].
  destruct (fr_search_id f =? sid) eqn:E; simpl.
  - apply String.eqb_eq in E.
    assert (E' : (fr_search_id f =? sid') = false)
      by (apply String.eqb_neq; congruence).
    rewrite E'. assumption.
  - rewrite IH. reflexivity.
Qed.

Lemma filter_filter_eq sid (F : list FilterRow) :
  filter (fun f => fr_search_id f =? sid)
    (filter (fun f => negb (fr_search_id f =? sid)) F) = [].
Proof.
  apply filter_none. intros f Hf. apply filter_In in Hf.
  destruct Hf as [_ Hf]. apply negb_true_iff in Hf. assumption.
Qed.

(** A search as [get_user] loaded it from [d0] is written back without
    any change that [get_user] could see. *)
Lemma view_search_stage chat d0 d s :
  NoDup (map r_id (searches_t d0)) ->
  same_searches d0 d ->
  In s (_load_searches_for_user chat d0) ->
  exists d',
    exec_all (search_stmts chat s) d = (true, d')
    /\ same_searches d0 d'
    /\ seen_items d' = seen_items d
    /\ legacy_seen d' = legacy_seen d.
Proof.
  intros Hnd (Hu & Ht & Hf) Hs.
  unfold _load_searches_for_user in Hs. apply in_map_iff in Hs.
  destruct Hs as (sr & <- & Hsr). apply filter_In in Hsr.
  destruct Hsr as [Hsr _].
  fold (filters_for (r_id sr) d0).
  set (s := mkSearch (r_id sr) (r_text sr) (r_label sr)
              (filters_of category (filters_for (r_id sr) d0))
              (filters_of region (filters_for (r_id sr) d0))
              (filters_of sector (filters_for (r_id sr) d0))
              (hd_error (filters_of category (filters_for (r_id sr) d0)))).
  assert (Eu : sql_upsert_search (s_id s) chat (s_text s) (s_label s) d
               = Some d).
  { simpl. apply upsert_same; rewrite Ht; assumption. }
  assert (Hhs : has_search d (s_id s) = true).
  { apply has_search_iff. exists sr. rewrite Ht. auto. }
  eexists. split; [apply (@search_stmts_effect chat s d d Eu Hhs)|].
  split; [|auto]. repeat split; auto. intros sid k.
  unfold filters_for. cbn [search_filters]. rewrite filter_app.
  rewrite filters_of_app.
  destruct (String.eqb_spec sid (r_id sr)) as [->|Hn].
  - change (s_id s) with (r_id sr).
    rewrite (filter_filter_eq (r_id sr) (search_filters d)).
    rewrite (filter_all (fun f => fr_search_id f =? r_id sr)
               (filter_rows s)).
    2:{ intros f Hin. apply String.eqb_eq. apply filter_rows_id in Hin.
        exact Hin. }
    destruct (filters_of_rows s) as (E1 & E2 & E3).
    destruct k; [rewrite E1 | rewrite E2 | rewrite E3]; reflexivity.
  - change (s_id s) with (r_id sr). rewrite filter_filter_neq by assumption.
    rewrite (filter_none (fun f => fr_search_id f =? sid) (filter_rows s)).
    2:{ intros f Hin. apply filter_rows_id in Hin. apply String.eqb_neq.
        rewrite Hin. simpl. congruence. }
    rewrite app_nil_r. apply Hf.
Qed.

Lemma view_searches_stage chat d0 ss : forall d,
  NoDup (map r_id (searches_t d0)) ->
  same_searches d0 d ->
  (forall s, In s ss -> In s (_load_searches_for_user chat d0)) ->
  exists d',
    exec_all (flat_map (search_stmts chat) ss) d = (true, d')
    /\ same_searches d0 d'
    /\ seen_items d' = seen_items d
    /\ legacy_seen d' = legacy_seen d.
Proof.
  induction ss as [|s ss IH]; intros d Hnd Hsame Hin; cbn [flat_map].
  - exists d. simpl. auto.
  - destruct (@view_search_stage chat d0 d s Hnd Hsame)
      as (d1 & E1 & S1 & K1 & L1); [apply Hin; left; reflexivity|].
    destruct (IH d1 Hnd S1) as (d2 & E2 & S2 & K2 & L2).
    { intros s' Hs'. apply Hin. right. assumption. }
    exists d2. rewrite exec_all_app, E1. cbn [fst snd]. rewrite E2.
    repeat split; try apply S2; congruence.
Qed.

(** The insertions of a seen map whose keys are stored searches. *)
Lemma seen_map_all m : forall d,
  (forall k, In k (map fst m) -> has_search d k = true) ->
  exists d',
    exec_all (flat_map seen_stmts m) d = (true, d')
    /\ users d' = users d /\ searches_t d' = searches_t d
    /\ search_filters d' = search_filters d
    /\ legacy_seen d' = legacy_seen d
    /\ (forall k i, In (k, i) (seen_items d') <->
                    In (k, i) (seen_items d)
                    \/ exists ids, In (k, ids) m /\ In i ids).
Proof.
  induction m as [|[k0 ids0] m IH]; intros d Hk; cbn [flat_map].
  - exists d. simpl. repeat split; auto. intros [H|(ids & [] & _)].
    assumption.
  - destruct (insert_seen_all k0 ids0 d) as (d1 & E1 & U1 & T1 & F1 & L1 & P1).
    { apply Hk. left. reflexivity. }
    destruct (IH d1) as (d2 & E2 & U2 & T2 & F2 & L2 & P2).
    { intros k Hin. unfold has_search. rewrite T1. apply Hk. right.
      assumption. }
    exists d2. unfold seen_stmts at 1. cbn [fst snd].
    rewrite exec_all_app, E1. cbn [fst snd]. rewrite E2.
    repeat split; try congruence.
    + intros H. apply P2 in H. destruct H as [H|(ids & Hin & Hi)].
      * apply P1 in H. destruct H as [H|(iid & Hi & E)]; [auto|].
        inversion E; subst. right. exists ids0. split; [left|]; auto.
      * right. exists ids. split; [right|]; auto.
    + intros H. apply P2. destruct H as [H|(ids & [E|Hin] & Hi)].
      * left. apply P1. auto.
      * inversion E; subst. left. apply P1. right. eauto.
      * right. eauto.
Qed.

End SetUserView.

Section CommitView.

Lemma load_ids chat d :
  map s_id (_load_searches_for_user chat d) = existing_of chat d.
Proof.
  unfold _load_searches_for_user, existing_of. rewrite map_map.
  apply map_ext. reflexivity.
Qed.

Lemma same_searches_tables d0 d d' :
  same_searches d0 d ->
  users d' = users d -> searches_t d' = searches_t d ->
  search_filters d' = search_filters d ->
  same_searches d0 d'.
Proof.
  intros (Hu & Ht & Hf) Eu Et Ef. repeat split; try congruence.
  intros sid k. unfold filters_for. rewrite Ef. apply Hf.
Qed.

(** [set_user] with the searches of the user as loaded and a seen map
    over them: the call returns, the searches read the same afterwards
    and the seen rows are the old ones and the ones of the map. *)
Lemma set_user_view chat d0 d u' :
  NoDup (map r_id (searches_t d0)) ->
  same_searches d0 d ->
  has_user d chat = true ->
  searches u' = _load_searches_for_user chat d0 ->
  (forall k, In k (map fst (seen_ids_map u')) ->
             In k (map s_id (searches u'))) ->
  exists d',
    StateSqlite.set_user chat u' (mkConn d None) = (inr tt, mkConn d' None)
    /\ same_searches d0 d'
    /\ (forall k i, In (k, i) (seen_items d') <->
                    In (k, i) (seen_items d)
                    \/ exists ids, In (k, ids) (seen_ids_map u')
                                   /\ In i ids).
Proof.
  intros Hnd Hsame Hu Hss Hkeys.
  rewrite set_user_run, run_stmts_no_fault. simpl db.
  unfold set_user_stmts. change ([?a] ++ ?l) with (a :: l). cbn [exec_all].
  assert (Ei : sql_insert_user chat d = Some d)
    by (unfold sql_insert_user; rewrite Hu; reflexivity).
  rewrite Ei.
  destruct (@view_searches_stage chat d0 (searches u') d Hnd Hsame)
    as (d2 & E2 & S2 & K2 & L2).
  { intros s Hs. rewrite <- Hss. assumption. }
  rewrite exec_all_app, E2. cbn [fst snd].
  assert (Hdel : to_delete_of chat u' d = []).
  { unfold to_delete_of. apply filter_none. intros x Hx.
    apply negb_false_iff, mem_In. rewrite Hss, load_ids.
    destruct Hsame as (_ & Ht & _). unfold existing_of in *.
    rewrite <- Ht. assumption. }
  rewrite Hdel. cbn [map app].
  destruct (seen_map_all (seen_ids_map u') d2)
    as (d3 & E3 & U3 & T3 & F3 & L3 & P3).
  { intros k Hk. apply Hkeys in Hk. rewrite Hss, load_ids in Hk.
    unfold existing_of in Hk. apply in_map_iff in Hk.
    destruct Hk as (sr & <- & Hsr). apply filter_In in Hsr.
    apply has_search_iff. exists sr. destruct S2 as (_ & Ht & _).
    rewrite Ht. tauto. }
  rewrite exec_all_app, E3. cbn [fst snd].
  destruct (insert_legacy_all chat (seen_ids u') d3)
    as (d4 & E4 & U4 & T4 & F4 & K4 & P4).
  { unfold has_user in *. rewrite U3. destruct S2 as (Eu & _).
    rewrite Eu. destruct Hsame as (Eu0 & _). rewrite <- Eu0. assumption. }
  rewrite E4. cbn [fst snd]. exists d4. split; [reflexivity|].
  split.
  - apply (@same_searches_tables d0 d2 d4 S2); congruence.
  - intros k i. rewrite K4, P3, K2. reflexivity.
Qed.

End CommitView.

Section FullCycle.

Variable inpa_search : Catalog.
Variable d0 : DB.
Hypothesis users_distinct : NoDup (users d0).
Hypothesis ids_distinct : NoDup (map r_id (searches_t d0)).
Hypothesis ids_truthy :
  forall r, In r (searches_t d0) -> r_id r <> EmptyString.

Lemma sid_of_view chat s :
  In s (_load_searches_for_user chat d0) -> sid_of s = s_id s.
Proof.
  intros Hs. unfold _load_searches_for_user in Hs.
  apply in_map_iff in Hs. destruct Hs as (sr & <- & Hsr).
  apply filter_In in Hsr. destruct Hsr as [Hsr _].
  unfold sid_of, truthy. simpl.
  apply ids_truthy, String.eqb_neq in Hsr. rewrite Hsr. reflexivity.
Qed.

Lemma all_seen_mono d d' chat :
  all_seen inpa_search d0 d chat ->
  (forall p, In p (seen_items d) -> In p (seen_items d')) ->
  all_seen inpa_search d0 d' chat.
Proof. intros Ha Hm s it i Hs Hit Hi. apply Hm. eapply Ha; eauto. Qed.

Lemma get_list_In {V} k (m : Dict (list V)) i :
  In i (get_list k m) -> exists ids, In (k, ids) m /\ In i ids.
Proof.
  unfold get_list. destruct (dict_get k m) as [ids|] eqn:E; [|intros []].
  intros Hi. exists ids. split; [apply dict_get_In; assumption | assumption].
Qed.

(** One user of the cycle, with the dict loaded from [d0], on a database
    that reads like [d0] and has at least its seen rows. *)
Lemma user_result_view chat d out :
  In chat (users d0) ->
  same_searches d0 d ->
  (forall p, In p (seen_items d0) -> In p (seen_items d)) ->
  exists d' sent,
    user_result inpa_search (chat, user_view chat d0)
      (mkWorld (mkConn d None) out)
    = (inr tt, mkWorld (mkConn d' None) (out ++ sent))
    /\ same_searches d0 d'
    /\ (forall p, In p (seen_items d) -> In p (seen_items d'))
    /\ all_seen inpa_search d0 d' chat.
Proof.
  intros Hc Hsame Hmono. unfold user_result.
  set (u0 := user_view chat d0).
  assert (Hss : searches u0 = _load_searches_for_user chat d0)
    by reflexivity.
  destruct (is_nil (searches u0)) eqn:En.
  - apply is_nil_true in En. assert (Hl : search u0 = None).
    { change (search u0)
        with (last (map Some (_load_searches_for_user chat d0)) None).
      rewrite <- Hss, En. reflexivity. }
    rewrite Hl. exists d, []. rewrite app_nil_r.
    repeat split; try apply Hsame; auto.
    intros s it i Hs. rewrite <- Hss, En in Hs. destruct Hs.
  - apply is_nil_false in En. rename En into Hm. unfold loop_result.
    destruct (fold_left _ (searches u0) (false, u0, []))
      as [[changed u'] sent] eqn:El.
    destruct (@loop_effect inpa_search chat _ _ _ _ _ _ _ Hm El)
      as (G1 & G2 & G3 & G4 & G5).
    assert (Hseen : forall s it i,
               In s (_load_searches_for_user chat d0) ->
               In it (sorted_items inpa_search s) -> it_id it = Some i ->
               In i (get_list (s_id s) (seen_ids_map u'))).
    { intros s it i Hs Hit Hi.
      rewrite <- (sid_of_view chat s Hs).
      rewrite <- seen_for_multi by congruence.
      assert (Hs' : In s (searches u0)) by (rewrite Hss; assumption).
      eapply (proj1 (no_news_iff inpa_search u' s (sid_of s))); eauto. }
    destruct changed.
    + destruct (@set_user_view chat d0 d u' ids_distinct Hsame)
        as (d' & E & S' & P').
      { apply mem_In. destruct Hsame as (Eu & _). rewrite Eu. assumption. }
      { congruence. }
      { intros k Hk. apply G4 in Hk. rewrite G1, Hss.
        destruct Hk as [Hk|Hk].
        - unfold u0, user_view, seen_map_of in Hk. simpl in Hk.
          apply seen_map_of_keys in Hk. destruct Hk as [Hk|[]]. assumption.
        - rewrite Hss in Hk. apply in_map_iff in Hk.
          destruct Hk as (s & <- & Hs). rewrite (sid_of_view chat s Hs).
          apply in_map. assumption. }
      exists d', sent. unfold bind, tg_send_all, on_store. simpl.
      change (@set_user Conn sqlite_state) with StateSqlite.set_user.
      rewrite E. split; [reflexivity|]. split; [assumption|].
      split.
      * intros [k i] Hp. apply P'. auto.
      * intros s it i Hs Hit Hi. apply P'. right.
        apply get_list_In. eapply Hseen; eauto.
    + destruct (G5 eq_refl) as [_ ->].
      exists d, sent. unfold bind, tg_send_all, ret. simpl.
      split; [reflexivity|]. split; [assumption|]. split; [auto|].
      intros s it i Hs Hit Hi. apply Hmono. apply In_seen_rows.
      rewrite <- (view_seen chat d0 s Hs). eapply Hseen; eauto.
Qed.

Lemma users_result_view cs : forall d out,
  (forall c, In c cs -> In c (users d0)) ->
  same_searches d0 d ->
  (forall p, In p (seen_items d0) -> In p (seen_items d)) ->
  exists d' sent,
    users_result inpa_search (map (fun c => (c, user_view c d0)) cs)
      (mkWorld (mkConn d None) out)
    = (inr tt, mkWorld (mkConn d' None) (out ++ sent))
    /\ same_searches d0 d'
    /\ (forall p, In p (seen_items d) -> In p (seen_items d'))
    /\ (forall c, In c cs -> all_seen inpa_search d0 d' c).
Proof.
  unfold users_result.
  induction cs as [|c cs IH]; intros d out Hin Hsame Hmono; cbn [map for_each].
  - exists d, []. rewrite app_nil_r. repeat split; try apply Hsame; auto.
    intros c [].
  - destruct (@user_result_view c d out) as (d1 & sent1 & E1 & S1 & M1 & A1);
      auto. { apply Hin. left. reflexivity. }
    destruct (IH d1 (out ++ sent1)) as (d2 & sent2 & E2 & S2 & M2 & A2);
      auto. { intros c' Hc'. apply Hin. right. assumption. }
    exists d2, (sent1 ++ sent2). unfold bind. rewrite E1, E2.
    rewrite app_assoc. split; [reflexivity|]. split; [assumption|].
    split; [auto|]. intros c' [<-|Hc']; [|auto].
    eapply all_seen_mono; eauto.
Qed.

(** After the cycle nothing is new. *)
Lemma all_seen_no_news d1 c s :
  same_searches d0 d1 ->
  all_seen inpa_search d0 d1 c ->
  In s (searches (user_view c d1)) ->
  new_items_of inpa_search (user_view c d1) s (sid_of s) = [].
Proof.
  intros Hsame Ha Hs.
  assert (Hl : _load_searches_for_user c d1 = _load_searches_for_user c d0)
    by (apply load_same; assumption).
  assert (Hs1 : In s (_load_searches_for_user c d1)) by exact Hs.
  assert (Hs0 : In s (_load_searches_for_user c d0))
    by (rewrite <- Hl; assumption).
  apply no_news_iff. intros it i Hit Hi.
  rewrite seen_for_multi by (intros E; rewrite E in Hs; destruct Hs).
  rewrite (sid_of_view c s Hs0), (view_seen c d1 s Hs1).
  apply In_seen_rows. eapply Ha; eauto.
Qed.

End FullCycle.

Section WellFormed.

Variable inpa_search : Catalog.

Lemma loop_returns_wf chat ss : forall u,
  (forall s, In s ss -> well_formed inpa_search s = true) ->
  loop_returns inpa_search chat u ss = true.
Proof.
  induction ss as [|s ss IH]; intros u Hw; cbn [loop_returns];
    [reflexivity|].
  rewrite well_formed_returns by (apply Hw; left; reflexivity).
  apply IH. intros s' Hs'. apply Hw. right. assumption.
Qed.

Lemma view_returns c d :
  (forall s, In s (searches (user_view c d)) ->
             well_formed inpa_search s = true) ->
  user_returns inpa_search (c, user_view c d) = true.
Proof.
  intros Hw. unfold user_returns.
  destruct (searches (user_view c d)) as [|s0 ss] eqn:Es.
  - cbn [is_nil]. unfold user_view in *. simpl in *. rewrite Es.
    reflexivity.
  - cbn [is_nil]. apply loop_returns_wf. assumption.
Qed.

Lemma well_formed_sortable s :
  well_formed inpa_search s = true -> sortable_search inpa_search s = true.
Proof.
  unfold well_formed, sortable_search. cbv zeta.
  rewrite andb_true_iff. tauto.
Qed.

End WellFormed.

(** X17. Multi-search mode on the SQLite store, without fault.  On a
    database whose user rows and search ids are pairwise distinct and
    whose search ids are non-empty, and with catalog answers that are
    well formed for every stored search (no [null] date among two or more
    merged items, no [null] list of agencies or places), a poll cycle
    returns normally; it leaves the searches of every user as they read
    before and removes no seen row; and the next cycle with the same
    catalog answers returns normally, notifies no item and writes
    nothing: every item notified by the first cycle was recorded. *)
Theorem X17_cycle_then_quiet (inpa_search : Catalog) (d : DB) :
  NoDup (users d) ->
  NoDup (map r_id (searches_t d)) ->
  (forall r, In r (searches_t d) -> r_id r <> EmptyString) ->
  (forall c s, In c (users d) -> In s (searches (user_view c d)) ->
               well_formed inpa_search s = true) ->
  exists d1 sent,
    run_once inpa_search (mkWorld (mkConn d None) [])
    = (inr tt, mkWorld (mkConn d1 None) sent)
    /\ (forall c, searches (user_view c d1) = searches (user_view c d))
    /\ (forall p, In p (seen_items d) -> In p (seen_items d1))
    /\ (let r2 := run_once inpa_search (mkWorld (mkConn d1 None) []) in
        fst r2 = inr tt
        /\ notified (outbox (snd r2)) = []
        /\ store (snd r2) = mkConn d1 None).
Proof.
  intros Hu Hi Ht Hw.
  assert (Hsel : forall c, In c (select_users d) -> In c (users d)).
  { intros c Hc. unfold select_users in Hc. rewrite In_sort_asc in Hc.
    assumption. }
  destruct (@users_result_view inpa_search d Hi Ht (select_users d) d [])
    as (d1 & sent & E1 & S1 & M1 & A1); auto using same_searches_refl.
  exists d1, sent. split.
  { unfold run_once, bind, on_store. simpl.
    change (@all_users Conn sqlite_state) with StateSqlite.all_users.
    rewrite all_users_view by assumption.
    rewrite run_users_ok; [exact E1|].
    intros cu Hin. apply in_map_iff in Hin. destruct Hin as (c & <- & Hc).
    apply view_returns. intros s Hs. apply (Hw c s); auto. }
  split; [intros c; apply (load_same c S1)|]. split; [exact M1|].
  cbv zeta.
  assert (Hu1 : NoDup (users d1))
    by (destruct S1 as (Eu & _); rewrite Eu; assumption).
  assert (Hsel1 : select_users d1 = select_users d)
    by (destruct S1 as (Eu & _); unfold select_users; rewrite Eu;
        reflexivity).
  unfold run_once, bind, on_store. simpl.
  change (@all_users Conn sqlite_state) with StateSqlite.all_users.
  rewrite all_users_view by assumption.
  destruct (run_users_quiet inpa_search
              (map (fun c => (c, user_view c d1)) (select_users d1))
              (mkWorld (mkConn d1 None) [])) as (sent2 & E2 & Hn2).
  - intros c u Hin. apply in_map_iff in Hin.
    destruct Hin as (c' & E & _). inversion E; subst.
    unfold user_view. simpl. intros ->. reflexivity.
  - intros c u s Hin Hs. apply in_map_iff in Hin.
    destruct Hin as (c' & E & Hc). inversion E; subst.
    eapply (@all_seen_no_news inpa_search d Ht d1); [exact S1 | | exact Hs].
    apply A1. rewrite <- Hsel1. assumption.
  - rewrite E2.
    assert (Hf : forallb
                   (fun cu => forallb (sortable_search inpa_search)
                                (searches (snd cu)))
                   (map (fun c => (c, user_view c d1)) (select_users d1))
                 = true).
    { apply forallb_forall. intros cu Hin. apply in_map_iff in Hin.
      destruct Hin as (c & <- & Hc). cbn [snd].
      apply forallb_forall. intros s Hs. apply well_formed_sortable.
      apply (Hw c s).
      - apply Hsel. rewrite <- Hsel1. assumption.
      - change (In s (_load_searches_for_user c d)).
        rewrite <- (load_same c S1). exact Hs. }
    rewrite Hf. simpl. auto.
Qed.

Lemma X17_witness :
  NoDup (users Ex.db2)
  /\ NoDup (map r_id (searches_t Ex.db2))
  /\ (forall r, In r (searches_t Ex.db2) -> r_id r <> EmptyString)
  /\ (forall c s, In c (users Ex.db2) ->
                  In s (searches (user_view c Ex.db2)) ->
                  well_formed Ex.catalog s = true)
  /\ exists d1 sent,
       run_once Ex.catalog (mkWorld (mkConn Ex.db2 None) [])
       = (inr tt, mkWorld (mkConn d1 None) sent)
       /\ notified
            (outbox (snd (run_once Ex.catalog (mkWorld (mkConn d1 None) []))))
          = [].
Proof.
  assert (H1 : NoDup (users Ex.db2))
    by (simpl; repeat constructor; simpl; intuition discriminate).
  assert (H2 : NoDup (map r_id (searches_t Ex.db2)))
    by (simpl; repeat constructor; simpl; intuition discriminate).
  assert (H3 : forall r, In r (searches_t Ex.db2) -> r_id r <> EmptyString)
    by (intros r [<-|[<-|[]]]; discriminate).
  assert (H4 : forall c s, In c (users Ex.db2) ->
                 In s (searches (user_view c Ex.db2)) ->
                 well_formed Ex.catalog s = true).
  { intros c s [<-|[<-|[]]] Hs; vm_compute in Hs;
      destruct Hs as [<-|[]]; reflexivity. }
  split; [exact H1|]. split; [exact H2|]. split; [exact H3|].
  split; [exact H4|].
  destruct (@X17_cycle_then_quiet Ex.catalog Ex.db2 H1 H2 H3 H4)
    as (d1 & sent & E & _ & _ & _ & Hq & _).
  exists d1, sent. split; [exact E | exact Hq].
Defined.

(** ** The flows of the handlers that rewrite a user *)

Section HandlerFlows.

(** Insertions of rows that are already there. *)
Lemma seen_map_settled m : forall d,
  (forall k ids i, In (k, ids) m -> In i ids -> In (k, i) (seen_items d)) ->
  exec_all (flat_map seen_stmts m) d = (true, d).
Proof.
  induction m as [|[k ids] m IH]; intros d Hs; cbn [flat_map];
    [reflexivity|].
  rewrite exec_all_app.
  assert (E : exec_all (seen_stmts (k, ids)) d = (true, d)).
  { unfold seen_stmts. cbn [fst snd].
    assert (Hk : forall i, In i ids -> In (k, i) (seen_items d))
      by (intros i Hi; eapply Hs; [left; reflexivity | assumption]).
    clear Hs IH. induction ids as [|i ids IHi]; [reflexivity|].
    cbn [map exec_all]. unfold sql_insert_seen at 1.
    assert (Hp : has_pair (k, i) (seen_items d) = true)
      by (apply has_pair_In, Hk; left; reflexivity).
    rewrite Hp. apply IHi. intros j Hj. apply Hk. right. assumption. }
  rewrite E. cbn [fst snd]. apply IH.
  intros k' ids' i Hin Hi. eapply Hs; [right; eassumption | assumption].
Qed.

Lemma legacy_settled chat ids : forall d,
  (forall i, In i ids -> In (chat, i) (legacy_seen d)) ->
  exec_all (map (sql_insert_legacy chat) ids) d = (true, d).
Proof.
  induction ids as [|i ids IH]; intros d Hs; [reflexivity|].
  cbn [map exec_all]. unfold sql_insert_legacy at 1.
  assert (Hp : has_pair (chat, i) (legacy_seen d) = true)
    by (apply has_pair_In, Hs; left; reflexivity).
  rewrite Hp. apply IH. intros j Hj. apply Hs. right. assumption.
Qed.

Lemma seen_map_of_pairs ss d k ids i :
  In (k, ids) (seen_map_of ss d) -> In i ids -> In (k, i) (seen_items d).
Proof.
  unfold seen_map_of.
  assert (G : forall m,
             (forall k ids i, In (k, ids) m -> In i ids ->
                              In (k, i) (seen_items d)) ->
             In (k, ids)
               (fold_left
                  (fun m s =>
                     dict_set (s_id s)
                       (select_seen (s_id s) d) m) ss m) ->
             In i ids -> In (k, i) (seen_items d)).
  { induction ss as [|s ss IH]; intros m Hm; simpl; [apply Hm|].
    apply IH. intros k' ids' i' Hin Hi.
    assert (Hd : forall (m0 : Dict (list string)) k0 v0 k1 v1,
               In (k1, v1) (dict_set k0 v0 m0) ->
               (k1 = k0 /\ v1 = v0) \/ In (k1, v1) m0).
    { clear. induction m0 as [|[a b] m0 IHm]; intros k0 v0 k1 v1; simpl.
      - intros [E|[]]. inversion E. auto.
      - destruct (k0 =? a); simpl.
        + intros [E|H]; [inversion E; auto | auto].
        + intros [E|H]; [auto|]. apply IHm in H. tauto. }
    apply Hd in Hin. destruct Hin as [[-> ->]|Hin]; [|eapply Hm; eauto].
    apply In_seen_rows. assumption. }
  apply G. intros k' ids' i' [].
Qed.

Lemma view_legacy_pairs chat d i :
  In i (seen_ids (user_view chat d)) -> In (chat, i) (legacy_seen d).
Proof.
  unfold user_view. simpl. apply In_select_legacy.
Qed.

End HandlerFlows.

Section ResetFlow.

Lemma to_delete_view chat d0 d u' :
  same_searches d0 d ->
  searches u' = _load_searches_for_user chat d0 ->
  to_delete_of chat u' d = [].
Proof.
  intros Hsame Hss. unfold to_delete_of. apply filter_none. intros x Hx.
  apply negb_false_iff, mem_In. rewrite Hss, load_ids.
  destruct Hsame as (_ & Ht & _). unfold existing_of in *.
  rewrite <- Ht. assumption.
Qed.

Lemma user_view_same d d' chat :
  same_searches d d' -> seen_items d' = seen_items d ->
  legacy_seen d' = legacy_seen d ->
  user_view chat d' = user_view chat d.
Proof.
  intros Hsame Es El. unfold user_view, seen_map_of, select_seen,
    select_legacy.
  rewrite (load_same chat Hsame), Es, El. reflexivity.
Qed.

End ResetFlow.

(** X18. On the SQLite store [/reset] clears nothing: for a known user,
    on a database with pairwise distinct search ids, the call returns
    normally and afterwards [get_user] returns for every user the dict it
    returned before; in particular the legacy seen list of the user is
    still there, and no seen row was touched. *)
Theorem X18_reset_clears_nothing (chat_id : string) (d : DB) :
  has_user d chat_id = true ->
  NoDup (map r_id (searches_t d)) ->
  exists d',
    cmd_reset chat_id (mkConn d None) = (inr tt, mkConn d' None)
    /\ (forall c, user_view c d' = user_view c d)
    /\ seen_items d' = seen_items d
    /\ legacy_seen d' = legacy_seen d.
Proof.
  intros Hu Hnd. unfold cmd_reset. unfold bind at 1.
  rewrite get_user_view, Hu.
  set (u' := mkUser (searches (user_view chat_id d)) None
               (seen_ids_map (user_view chat_id d)) []).
  rewrite set_user_run, run_stmts_no_fault. simpl db.
  unfold set_user_stmts. change ([?a] ++ ?l) with (a :: l). cbn [exec_all].
  assert (Ei : sql_insert_user chat_id d = Some d)
    by (unfold sql_insert_user; rewrite Hu; reflexivity).
  rewrite Ei.
  destruct (@view_searches_stage chat_id d (searches u') d Hnd
              (same_searches_refl d))
    as (d2 & E2 & S2 & K2 & L2); [intros s Hs; exact Hs|].
  rewrite exec_all_app, E2. cbn [fst snd].
  rewrite (@to_delete_view chat_id d d u' (same_searches_refl d) eq_refl).
  cbn [map app].
  assert (E3 : exec_all (flat_map seen_stmts (seen_ids_map u')) d2
               = (true, d2)).
  { apply seen_map_settled. intros k ids i Hin Hi. rewrite K2.
    exact (@seen_map_of_pairs _ d k ids i Hin Hi). }
  rewrite exec_all_app, E3.
  cbn [fst snd seen_ids u' map exec_all].
  exists d2. split; [reflexivity|].
  split; [intros c; apply user_view_same; assumption | auto].
Qed.

Lemma X18_witness :
  has_user Ex2.db_seen "1" = true
  /\ NoDup (map r_id (searches_t Ex2.db_seen))
  /\ exists d',
       cmd_reset "1" (mkConn Ex2.db_seen None) = (inr tt, mkConn d' None)
       /\ (forall c, user_view c d' = user_view c Ex2.db_seen)
       /\ seen_items d' = seen_items Ex2.db_seen
       /\ legacy_seen d' = legacy_seen Ex2.db_seen.
Proof.
  assert (H1 : has_user Ex2.db_seen "1" = true) by reflexivity.
  assert (H2 : NoDup (map r_id (searches_t Ex2.db_seen)))
    by (repeat constructor; simpl; intuition discriminate).
  split; [exact H1|]. split; [exact H2|].
  exact (@X18_reset_clears_nothing "1" Ex2.db_seen H1 H2).
Defined.

Section DeleteFlow.

Lemma filter_length_lt {A} (f : A -> bool) l x :
  In x l -> f x = false -> length (filter f l) < length l.
Proof.
  induction l as [|a l IH]; simpl; intros Hx E; [destruct Hx|].
  pose proof (filter_length_le f l) as Hle.
  destruct Hx as [->|Hx].
  - rewrite E. lia.
  - specialize (IH Hx E). destruct (f a); simpl; lia.
Qed.

Lemma filter_eq_single l a :
  NoDup l -> In a l -> filter (fun x => x =? a) l = [a].
Proof.
  induction l as [|b l IH]; simpl; intros Hnd Hin; [destruct Hin|].
  inversion Hnd as [|? ? Hni Hnd']; subst.
  destruct Hin as [->|Hin].
  - rewrite String.eqb_refl. f_equal. apply filter_none.
    intros x Hx. apply String.eqb_neq. intros ->. auto.
  - assert (E : (b =? a) = false)
      by (apply String.eqb_neq; intros ->; auto).
    rewrite E. auto.
Qed.

Lemma NoDup_map_filter {A B} (f : A -> B) (p : A -> bool) l :
  NoDup (map f l) -> NoDup (map f (filter p l)).
Proof.
  induction l as [|a l IH]; simpl; intros Hnd; [constructor|].
  inversion Hnd as [|? ? Hni Hnd']; subst.
  destruct (p a); simpl; auto. constructor; auto.
  intros Hin. apply Hni. apply in_map_iff in Hin.
  destruct Hin as (x & E & Hx). apply filter_In in Hx.
  apply in_map_iff. exists x. tauto.
Qed.

Lemma map_filter_comm {A B} (f : A -> B) (p : B -> bool) l :
  map f (filter (fun x => p (f x)) l) = filter p (map f l).
Proof.
  induction l as [|a l IH]; simpl; [reflexivity|].
  destruct (p (f a)); simpl; rewrite IH; reflexivity.
Qed.

Lemma to_delete_one chat d sid u' :
  NoDup (existing_of chat d) ->
  In sid (existing_of chat d) ->
  searches u'
  = filter (fun s => negb (s_id s =? sid)) (_load_searches_for_user chat d) ->
  to_delete_of chat u' d = [sid].
Proof.
  intros Hnd Hin Hss. unfold to_delete_of.
  rewrite <- (@filter_eq_single _ sid Hnd Hin). apply filter_ext_in.
  intros x Hx. rewrite Hss.
  rewrite (map_filter_comm s_id (fun y => negb (y =? sid))), load_ids.
  destruct (x =? sid) eqn:E.
  - apply negb_true_iff, mem_false. intros H. apply filter_In in H.
    rewrite E in H. destruct H. discriminate.
  - apply negb_false_iff, mem_In, filter_In. rewrite E. auto.
Qed.

(** The inserts of a seen map whose every pair is stored already or
    names a search that is not there: they go through exactly when all
    the pairs are stored, and change nothing either way. *)
Lemma seen_stmts_outcome m : forall d,
  (forall k ids i, In (k, ids) m -> In i ids ->
                   In (k, i) (seen_items d) \/ has_search d k = false) ->
  exec_all (flat_map seen_stmts m) d
  = (forallb (fun kv =>
                forallb (fun i => has_pair (fst kv, i) (seen_items d))
                  (snd kv)) m, d).
Proof.
  induction m as [|[k ids] m IH]; intros d Hs; cbn [flat_map forallb];
    [reflexivity|].
  rewrite exec_all_app.
  assert (E : exec_all (seen_stmts (k, ids)) d
              = (forallb (fun i => has_pair (k, i) (seen_items d)) ids, d)).
  { unfold seen_stmts. cbn [fst snd].
    assert (Hk : forall i, In i ids ->
                   In (k, i) (seen_items d) \/ has_search d k = false)
      by (intros i Hi; eapply Hs; [left; reflexivity | assumption]).
    clear Hs IH. induction ids as [|i ids IHi]; [reflexivity|].
    cbn [map exec_all forallb]. unfold sql_insert_seen at 1.
    destruct (has_pair (k, i) (seen_items d)) eqn:Hp.
    - apply IHi. intros j Hj. apply Hk. right. assumption.
    - destruct (Hk i) as [Hin|Hn]; [left; reflexivity| |].
      + apply has_pair_In in Hin. congruence.
      + rewrite Hn. reflexivity. }
  rewrite E. cbn [fst snd].
  destruct (forallb (fun i => has_pair (k, i) (seen_items d)) ids);
    [|reflexivity].
  apply IH. intros k' ids' i Hin Hi. eapply Hs; [right; eassumption|assumption].
Qed.

Lemma load_delete chat sid d d' :
  sql_delete_search sid d = Some d' ->
  _load_searches_for_user chat d'
  = filter (fun s => negb (s_id s =? sid)) (_load_searches_for_user chat d).
Proof.
  intros E. inversion E; subst; clear E.
  unfold _load_searches_for_user. cbn [searches_t search_filters].
  induction (searches_t d) as [|r l IH]; [reflexivity|].
  cbn [filter].
  destruct (r_id r =? sid) eqn:Er; destruct (r_chat_id r =? chat) eqn:Ec;
    cbn [negb filter map s_id]; rewrite ?Ec, ?Er; cbn [negb map];
    rewrite ?IH; try reflexivity.
  rewrite filter_filter_neq; [reflexivity|].
  apply String.eqb_neq. assumption.
Qed.

End DeleteFlow.

(** X19. The delete button of [/modifica] on the SQLite store.  For a known
    user who owns the search [sid], on a database with pairwise distinct
    search ids: the search, its filters and its seen rows are deleted, and
    every user's other searches are loaded as before; yet the flow raises
    [IntegrityError] exactly when the search had a seen row, since the
    dict handed to [set_user] still carries the seen ids of the search,
    whose insert comes after the delete. *)
Theorem X19_delete_flow (chat_id sid : string) (d : DB) :
  has_user d chat_id = true ->
  NoDup (map r_id (searches_t d)) ->
  In sid (existing_of chat_id d) ->
  exists d',
    delete_search chat_id sid (mkConn d None)
    = (if has_seen sid d then inl IntegrityError else inr true,
       mkConn d' None)
    /\ gone sid d' = true
    /\ (forall c,
          _load_searches_for_user c d'
          = filter (fun s => negb (s_id s =? sid))
              (_load_searches_for_user c d))
    /\ seen_items d'
       = filter (fun p => negb (fst p =? sid)) (seen_items d)
    /\ legacy_seen d' = legacy_seen d.
Proof.
  intros Hu Hnd Hsid. unfold delete_search. unfold bind at 1.
  rewrite get_user_view, Hu. cbv zeta.
  set (u := user_view chat_id d).
  set (new_list := filter (fun s => negb (s_id s =? sid)) (searches u)).
  set (u' := mkUser new_list (search u) (seen_ids_map u) (seen_ids u)).
  assert (Hlen : Nat.eqb (length new_list) (length (searches u)) = false).
  { apply Nat.eqb_neq. rewrite <- load_ids in Hsid.
    apply in_map_iff in Hsid. destruct Hsid as (s & Es & Hs).
    pose proof (@filter_length_lt _ (fun s => negb (s_id s =? sid))
                  (searches u) s Hs) as Hlt.
    unfold new_list. cbv beta in Hlt. rewrite Es, String.eqb_refl in Hlt.
    specialize (Hlt eq_refl). lia. }
  rewrite Hlen. unfold bind.
  rewrite set_user_run, run_stmts_no_fault. simpl db.
  unfold set_user_stmts. change ([?a] ++ ?l) with (a :: l). cbn [exec_all].
  assert (Ei : sql_insert_user chat_id d = Some d)
    by (unfold sql_insert_user; rewrite Hu; reflexivity).
  rewrite Ei.
  destruct (@view_searches_stage chat_id d (searches u') d Hnd
              (same_searches_refl d))
    as (d2 & E2 & S2 & K2 & L2).
  { intros s Hs. apply filter_In in Hs. tauto. }
  rewrite exec_all_app, E2. cbn [fst snd].
  rewrite (@to_delete_one chat_id d sid u'
             (NoDup_map_filter r_id _ _ Hnd) Hsid eq_refl).
  cbn [map app exec_all].
  destruct (sql_delete_search sid d2) as [d3|] eqn:E3; [|discriminate].
  assert (Hgone : gone sid d3 = true) by (eapply delete_makes_gone; eauto).
  assert (K3 : seen_items d3
               = filter (fun p => negb (fst p =? sid)) (seen_items d))
    by (inversion E3; subst; simpl; rewrite K2; reflexivity).
  assert (L3 : legacy_seen d3 = legacy_seen d)
    by (inversion E3; subst; simpl; assumption).
  assert (Hpairs : forall k ids i,
            In (k, ids) (seen_ids_map u') -> In i ids ->
            In (k, i) (seen_items d)).
  { intros k ids i Hin Hi. exact (@seen_map_of_pairs _ d k ids i Hin Hi). }
  assert (Hall : forallb (fun kv =>
                    forallb (fun i => has_pair (fst kv, i) (seen_items d3))
                      (snd kv)) (seen_ids_map u')
                 = negb (has_seen sid d)).
  { destruct (has_seen sid d) eqn:Hseen; cbn [negb].
    - apply not_true_is_false. intros Hf.
      unfold has_seen in Hseen. apply existsb_exists in Hseen.
      destruct Hseen as ([k i] & Hp & Ek). simpl in Ek.
      apply String.eqb_eq in Ek. subst k.
      rewrite forallb_forall in Hf.
      assert (Hin : In (sid, select_seen sid d)
                      (seen_ids_map u')).
      { apply dict_get_In. simpl. unfold seen_map_of.
        rewrite seen_map_of_get.
        assert (Hm : mem sid (map s_id (_load_searches_for_user chat_id d))
                     = true) by (apply mem_In; rewrite load_ids; exact Hsid).
        rewrite Hm. reflexivity. }
      specialize (Hf _ Hin). cbn [fst snd] in Hf.
      rewrite forallb_forall in Hf.
      assert (Hi : In i (select_seen sid d))
        by (apply In_select_seen; assumption).
      specialize (Hf _ Hi). apply has_pair_In in Hf.
      rewrite K3 in Hf. apply filter_In in Hf. simpl in Hf.
      rewrite String.eqb_refl in Hf. destruct Hf. discriminate.
    - apply forallb_forall. intros [k ids] Hin. cbn [fst snd].
      apply forallb_forall. intros i Hi. apply has_pair_In.
      rewrite K3. apply filter_In. split; [eapply Hpairs; eauto|].
      simpl. apply negb_true_iff, String.eqb_neq. intros ->.
      unfold has_seen in Hseen.
      assert (Ht : existsb (fun p => fst p =? sid) (seen_items d) = true).
      { apply existsb_exists. exists (sid, i).
        split; [eapply Hpairs; eauto | apply String.eqb_refl]. }
      congruence. }
  assert (E4 : exec_all (flat_map seen_stmts (seen_ids_map u')) d3
               = (negb (has_seen sid d), d3)).
  { rewrite seen_stmts_outcome, Hall; [reflexivity|].
    intros k ids i Hin Hi. destruct (String.eqb_spec k sid) as [->|Hk].
    - right. unfold gone in Hgone.
      apply andb_true_iff in Hgone. destruct Hgone as [Hg _].
      apply andb_true_iff in Hg. destruct Hg as [Hg _].
      apply negb_true_iff in Hg. assumption.
    - left. rewrite K3. apply filter_In.
      split; [eapply Hpairs; eauto|]. simpl.
      apply negb_true_iff, String.eqb_neq. assumption. }
  assert (E5 : exec_all (map (sql_insert_legacy chat_id) (seen_ids u')) d3
               = (true, d3)).
  { apply legacy_settled. intros i Hi. rewrite L3.
    apply view_legacy_pairs. assumption. }
  rewrite exec_all_app, E4. cbn [fst snd].
  exists d3.
  split.
  { destruct (has_seen sid d); cbn [negb fst snd]; [reflexivity|].
    rewrite E5. reflexivity. }
  split; [assumption|].
  split; [|split; assumption].
  intros c. rewrite (load_delete c E3). rewrite (load_same c S2).
  reflexivity.
Qed.

Lemma X19_witness :
  has_user Ex2.db_seen "1" = true
  /\ NoDup (map r_id (searches_t Ex2.db_seen))
  /\ In "s1" (existing_of "1" Ex2.db_seen)
  /\ exists d',
       delete_search "1" "s1" (mkConn Ex2.db_seen None)
       = (if has_seen "s1" Ex2.db_seen then inl IntegrityError
          else inr true,
          mkConn d' None)
       /\ gone "s1" d' = true
       /\ (forall c,
             _load_searches_for_user c d'
             = filter (fun s => negb (s_id s =? "s1"))
                 (_load_searches_for_user c Ex2.db_seen))
       /\ seen_items d'
          = filter (fun p => negb (fst p =? "s1")) (seen_items Ex2.db_seen)
       /\ legacy_seen d' = legacy_seen Ex2.db_seen.
Proof.
  assert (H1 : has_user Ex2.db_seen "1" = true) by reflexivity.
  assert (H2 : NoDup (map r_id (searches_t Ex2.db_seen)))
    by (repeat constructor; simpl; intuition discriminate).
  assert (H3 : In "s1" (existing_of "1" Ex2.db_seen))
    by (left; reflexivity).
  split; [exact H1|]. split; [exact H2|]. split; [exact H3|].
  exact (@X19_delete_flow "1" "s1" Ex2.db_seen H1 H2 H3).
Defined.

Section SaveFlow.

Lemma load_append c chat s d :
  has_search d (s_id s) = false ->
  (forall f, In f (search_filters d) -> fr_search_id f <> s_id s) ->
  _load_searches_for_user c
    (mkDB (users d) (searches_t d ++ [row_of chat s])
       (search_filters d ++ filter_rows s) (seen_items d) (legacy_seen d))
  = _load_searches_for_user c d
    ++ (if chat =? c then [stored s] else []).
Proof.
  intros Hs Hf. unfold _load_searches_for_user.
  cbn [searches_t search_filters]. rewrite filter_app, map_app. f_equal.
  - apply map_ext_in. intros sr Hsr. apply filter_In in Hsr.
    destruct Hsr as [Hsr _]. rewrite filter_app.
    rewrite (filter_none _ (filter_rows s)); [rewrite app_nil_r; reflexivity|].
    intros f Hin. apply String.eqb_neq. rewrite (filter_rows_id _ _ Hin).
    intros E. assert (Ht : has_search d (s_id s) = true)
      by (apply has_search_iff; exists sr; auto).
    congruence.
  - cbn [filter row_of r_chat_id]. destruct (chat =? c); [|reflexivity].
    cbn [map r_id r_text r_label]. f_equal. rewrite filter_app.
    rewrite (filter_none _ (search_filters d)).
    2:{ intros f Hin. apply String.eqb_neq. apply Hf. assumption. }
    cbn [app]. rewrite filter_all.
    2:{ intros f Hin. apply String.eqb_eq, filter_rows_id. assumption. }
    destruct (filters_of_rows s) as (-> & -> & ->). reflexivity.
Qed.

Lemma filters_of_nil l :
  (forall k, filters_of k l = []) -> l = [].
Proof.
  destruct l as [|f l]; [reflexivity|]. intros H.
  specialize (H (fr_kind f)). unfold filters_of in H. cbn [flat_map] in H.
  destruct (fr_kind f); discriminate.
Qed.

End SaveFlow.

(** X20. Saving a new search on the SQLite store without fault.  On a
    database that keeps its foreign keys and has pairwise distinct search
    ids, for a known user, a draft with at least one category and an id
    that no stored search carries: the flow returns normally, the user's
    searches load afterwards as before followed by the new search (with
    its computed label and [categoria] the first category), the searches
    of every other user load as before, and no seen row changes. *)
Theorem X20_save_appends (uuid chat_id : string) (dr : Draft) (d : DB) :
  fk_ok d = true ->
  has_user d chat_id = true ->
  NoDup (map r_id (searches_t d)) ->
  has_search d uuid = false ->
  d_categorie dr <> [] ->
  exists d',
    save_search uuid chat_id dr (mkConn d None) = (inr true, mkConn d' None)
    /\ (forall c,
          _load_searches_for_user c d'
          = _load_searches_for_user c d
            ++ (if chat_id =? c then [new_search_of uuid dr] else []))
    /\ seen_items d' = seen_items d
    /\ legacy_seen d' = legacy_seen d.
Proof.
  intros Hfk Hu Hnd Hfresh Hcat. unfold save_search. unfold bind at 1.
  rewrite get_user_view, Hu. unfold _finalize_and_save.
  assert (Hnil : is_nil (d_categorie dr) = false)
    by (destruct (d_categorie dr); [congruence | reflexivity]).
  rewrite Hnil. cbv zeta.
  set (u := user_view chat_id d). set (new := new_search_of uuid dr).
  set (u' := mkUser (searches u ++ [new]) (Some new) (seen_ids_map u)
               (seen_ids u)).
  unfold bind. rewrite set_user_run, run_stmts_no_fault. simpl db.
  unfold set_user_stmts. change ([?a] ++ ?l) with (a :: l). cbn [exec_all].
  assert (Ei : sql_insert_user chat_id d = Some d)
    by (unfold sql_insert_user; rewrite Hu; reflexivity).
  rewrite Ei. cbn [searches u']. rewrite flat_map_app.
  destruct (@view_searches_stage chat_id d (searches u) d Hnd
              (same_searches_refl d))
    as (d2 & E2 & S2 & K2 & L2); [intros s Hs; exact Hs|].
  assert (Hu2 : has_user d2 chat_id = true).
  { destruct S2 as (Eu & _). unfold has_user in *. rewrite Eu. assumption. }
  assert (Hs2 : has_search d2 (s_id new) = false).
  { destruct S2 as (_ & Et & _). unfold has_search in *. rewrite Et.
    assumption. }
  assert (Hf2 : forall f, In f (search_filters d2) ->
                          fr_search_id f <> s_id new).
  { intros f Hin E.
    assert (Hno : filters_for uuid d = []).
    { apply filter_none. intros g Hg. apply String.eqb_neq. intros Eg.
      apply fk_ok_iff in Hfk. destruct Hfk as (_ & H2 & _).
      apply H2 in Hg. rewrite Eg in Hg. congruence. }
    assert (Hno2 : filters_for uuid d2 = []).
    { apply filters_of_nil. intros k. destruct S2 as (_ & _ & Ef).
      rewrite Ef, Hno. reflexivity. }
    assert (Hin2 : In f (filters_for uuid d2)).
    { apply filter_In. split; [assumption|]. apply String.eqb_eq.
      exact E. }
    rewrite Hno2 in Hin2. destruct Hin2. }
  rewrite <- !app_assoc, exec_all_app, E2. cbn [fst snd].
  cbn [flat_map]. rewrite app_nil_r.
  rewrite exec_all_app, (@search_stmts_fresh chat_id new d2 Hu2 Hs2 Hf2).
  cbn [fst snd].
  set (d3 := mkDB (users d2) (searches_t d2 ++ [row_of chat_id new])
               (search_filters d2 ++ filter_rows new) (seen_items d2)
               (legacy_seen d2)).
  assert (Hdel : to_delete_of chat_id u' d = []).
  { unfold to_delete_of. apply filter_none. intros x Hx.
    apply negb_false_iff, mem_In. cbn [searches u'].
    rewrite map_app, in_app_iff. left. unfold u, user_view.
    cbn [searches]. rewrite load_ids. assumption. }
  rewrite Hdel. cbn [map app].
  assert (E4 : exec_all (flat_map seen_stmts (seen_ids_map u')) d3
               = (true, d3)).
  { apply seen_map_settled. intros k ids i Hin Hi.
    cbn [seen_items d3]. rewrite K2.
    exact (@seen_map_of_pairs _ d k ids i Hin Hi). }
  assert (E5 : exec_all (map (sql_insert_legacy chat_id) (seen_ids u')) d3
               = (true, d3)).
  { apply legacy_settled. intros i Hi. cbn [legacy_seen d3]. rewrite L2.
    apply view_legacy_pairs. assumption. }
  rewrite exec_all_app, E4. cbn [fst snd]. rewrite E5. cbn [fst snd].
  exists d3. split; [reflexivity|]. split; [|split; assumption].
  intros c. unfold d3. rewrite (@load_append c chat_id new d2 Hs2 Hf2).
  rewrite (load_same c S2). reflexivity.
Qed.

Lemma X20_witness :
  fk_ok Ex2.db_seen = true
  /\ has_user Ex2.db_seen "1" = true
  /\ NoDup (map r_id (searches_t Ex2.db_seen))
  /\ has_search Ex2.db_seen "s9" = false
  /\ d_categorie (mkDraft "museo" [Ex.c1] [] []) <> []
  /\ exists d',
       save_search "s9" "1" (mkDraft "museo" [Ex.c1] [] [])
         (mkConn Ex2.db_seen None)
       = (inr true, mkConn d' None)
       /\ (forall c,
             _load_searches_for_user c d'
             = _load_searches_for_user c Ex2.db_seen
               ++ (if "1" =? c
                   then [new_search_of "s9" (mkDraft "museo" [Ex.c1] [] [])]
                   else []))
       /\ seen_items d' = seen_items Ex2.db_seen
       /\ legacy_seen d' = legacy_seen Ex2.db_seen.
Proof.
  assert (H0 : fk_ok Ex2.db_seen = true) by reflexivity.
  assert (H1 : has_user Ex2.db_seen "1" = true) by reflexivity.
  assert (H2 : NoDup (map r_id (searches_t Ex2.db_seen)))
    by (repeat constructor; simpl; intuition discriminate).
  assert (H3 : has_search Ex2.db_seen "s9" = false) by reflexivity.
  assert (H4 : d_categorie (mkDraft "museo" [Ex.c1] [] []) <> [])
    by discriminate.
  split; [exact H0|]. split; [exact H1|]. split; [exact H2|].
  split; [exact H3|]. split; [exact H4|].
  exact (@X20_save_appends "s9" "1" (mkDraft "museo" [Ex.c1] [] [])
           Ex2.db_seen H0 H1 H2 H3 H4).
Defined.

(** ** When the processing of a search raises *)

Section SearchRaises.

Variable inpa_search : Catalog.




End SearchRaises.


